(** * FAhrstuhl.js: the single-car elevator controller

    A shallow embedding of [class Elevator] of
    [src/2025-10-15/FAhrstuhl.js] and the properties of its dispatch and
    door logic.

    Conventions of the embedding.
    - Floors are JavaScript Numbers holding integers; they are modelled as
      [Z].  Comparisons of Numbers are exact; the sums and differences the
      code computes are rounded to the nearest double ([Number_add],
      [Number_sub]), which changes nothing up to a magnitude of 2^53.
      The floors of the code are doubles; the model admits every
      integer as a floor, the doubles among them.
    - [this.requests] is a [Set] of floors, modelled as [gset Z];
      [this.calls] is a [Map] from a floor to a [Set] of direction strings,
      modelled as [gmap Z (gset Direction)].  Iteration order of the two
      containers only reaches the log lines, which are not modelled.
    - [console.log] / [console.warn] and the [name] field (a string) are
      left out, but for the exception a log line throws when it formats
      an argument that has no conversion to a string ([template]).
    - An [async] method is split at its [await]s: the code before the
      first [await] is the method's call, the code after each [await] is
      a resumption.  A running [start()] is a stack of suspended frames.
      Time is abstracted: between two resumptions of a task, public
      operations and resumptions of other tasks may occur in any order. *)

From stdpp Require Import gmap strings list fin_maps.
From Stdlib Require Import ZArith Lia.

Local Open Scope Z_scope.

(** ** Values *)

(** ['up' | 'down' | 'idle'], the strings held by [this.direction] and by
    the direction sets of [this.calls]. *)
Inductive Direction := Up | Down | Idle.

#[global] Instance Direction_eq_dec : EqDecision Direction.
Proof. solve_decision. Defined.

Definition Direction_to_nat (d : Direction) : nat :=
  match d with Up => 0%nat | Down => 1%nat | Idle => 2%nat end.

Definition Direction_of_nat (n : nat) : option Direction :=
  match n with
  | O => Some Up
  | S O => Some Down
  | S (S O) => Some Idle
  | _ => None
  end.

#[global] Instance Direction_countable : Countable Direction.
Proof.
  apply (inj_countable Direction_to_nat Direction_of_nat).
  intros []; reflexivity.
Defined.

(** What a caller may pass as an argument.  Three observations are made
    on arguments: [Number.isInteger(floor)], with the numeric comparisons
    that follow it, [direction === 'up'], and the conversion to a string
    of the floor argument that a log line formats. *)
Inductive JsValue :=
| JsInt (n : Z)          (* a Number with the integral value n *)
| JsFrac                 (* any other Number: fractional, NaN, +-Infinity *)
| JsString (s : string)
| JsOther                (* undefined, null, booleans, plain objects, ... *)
| JsUnprintable.         (* a value whose conversion to a string throws:
                            a Symbol, [Object.create(null)], an object
                            with a failing [toString] *)

(** [v === 'up'] *)
Definition is_up (v : JsValue) : bool :=
  match v with JsString s => bool_decide (s = "up"%string) | _ => false end.

(** How a call of a method completes: it returns (with [undefined]), or
    an exception propagates to the caller. *)
Inductive Completion := Returns | Throws.

(** [`.. ${v}`]: a template literal converts [v] to a string. *)
Definition template (v : JsValue) : Completion :=
  match v with JsUnprintable => Throws | _ => Returns end.

(** ** Number arithmetic

    A Number is an IEEE 754 double.  Every integer of magnitude up to
    2^53 is a double; beyond, a double has 53 significant bits.  The sum
    or difference of two integral doubles is the exact result rounded to
    the nearest double, ties to the even significand.  (A result of
    magnitude 2^1024 or more stands for the infinity the doubles give
    there; the code only compares such a result.) *)
Definition exact_bound : Z := 2 ^ 53.

Definition Number_round (z : Z) : Z :=
  if Z.abs z <=? exact_bound then z
  else
    let ulp := 2 ^ (Z.log2 (Z.abs z) - 52) in
    let q := Z.abs z / ulp in
    let r := Z.abs z mod ulp in
    let q' := if 2 * r <? ulp then q
              else if ulp <? 2 * r then q + 1
              else if Z.even q then q else q + 1 in
    Z.sgn z * (q' * ulp).

(** [a + b] and [a - b] *)
Definition Number_add (a b : Z) : Z := Number_round (a + b).
Definition Number_sub (a b : Z) : Z := Number_round (a - b).

(** ** The controller object *)

Record Elevator := mkElevator {
  minFloor : Z;
  maxFloor : Z;
  currentFloor : Z;
  direction : Direction;
  doorsOpen : bool;
  requests : gset Z;
  calls : gmap Z (gset Direction);
  travelTimeMs : Z;
  doorOperateMs : Z;
  doorDwellMs : Z;
  _running : bool
}.

Definition set_currentFloor (f : Z) (st : Elevator) : Elevator :=
  mkElevator (minFloor st) (maxFloor st) f (direction st) (doorsOpen st)
    (requests st) (calls st)
    (travelTimeMs st) (doorOperateMs st) (doorDwellMs st) (_running st).

Definition set_direction (d : Direction) (st : Elevator) : Elevator :=
  mkElevator (minFloor st) (maxFloor st) (currentFloor st) d (doorsOpen st)
    (requests st) (calls st)
    (travelTimeMs st) (doorOperateMs st) (doorDwellMs st) (_running st).

Definition set_doorsOpen (b : bool) (st : Elevator) : Elevator :=
  mkElevator (minFloor st) (maxFloor st) (currentFloor st) (direction st) b
    (requests st) (calls st)
    (travelTimeMs st) (doorOperateMs st) (doorDwellMs st) (_running st).

Definition set_requests (r : gset Z) (st : Elevator) : Elevator :=
  mkElevator (minFloor st) (maxFloor st) (currentFloor st) (direction st)
    (doorsOpen st) r (calls st)
    (travelTimeMs st) (doorOperateMs st) (doorDwellMs st) (_running st).

Definition set_calls (c : gmap Z (gset Direction)) (st : Elevator) : Elevator :=
  mkElevator (minFloor st) (maxFloor st) (currentFloor st) (direction st)
    (doorsOpen st) (requests st) c
    (travelTimeMs st) (doorOperateMs st) (doorDwellMs st) (_running st).

Definition set_running (b : bool) (st : Elevator) : Elevator :=
  mkElevator (minFloor st) (maxFloor st) (currentFloor st) (direction st)
    (doorsOpen st) (requests st) (calls st)
    (travelTimeMs st) (doorOperateMs st) (doorDwellMs st) b.

(** [constructor({minFloor, maxFloor, travelTimeMs, doorOperateMs,
    doorDwellMs})]: the car starts at [minFloor], idle, doors closed, with
    no demand and the loop not running. *)
Definition new_Elevator
    (minFloor maxFloor travelTimeMs doorOperateMs doorDwellMs : Z) : Elevator :=
  mkElevator minFloor maxFloor minFloor Idle false ∅ ∅
    travelTimeMs doorOperateMs doorDwellMs false.

(** The constructor's default option values. *)
Definition default_Elevator : Elevator := new_Elevator 1 10 400 700 0.

(** ** Demand registration *)

(** [_validFloor(floor)]: [Number.isInteger(floor)] holds of [JsInt]
    only, and [&&] does not evaluate the comparisons without it. *)
Definition _validFloor (st : Elevator) (floor : JsValue) : bool :=
  match floor with
  | JsInt f => (minFloor st <=? f) && (f <=? maxFloor st)
  | _ => false
  end.

(** [pressFloor(floor)] *)
Definition pressFloor (st : Elevator) (floor : JsValue) : Elevator :=
  if negb (_validFloor st floor) then st
  else
    match floor with
    | JsInt f => set_requests ({[f]} ∪ requests st) st
    | _ => st (* not an integer: already returned above *)
    end.

(** How [pressFloor(floor)] completes.  The warning of the rejection
    formats the argument as it was passed; the log line of an accepted
    press formats an integer. *)
Definition pressFloor_completion (st : Elevator) (floor : JsValue)
    : Completion :=
  if negb (_validFloor st floor) then template floor
  else Returns.

(** [direction === 'up' ? 'up' : 'down'] *)
Definition normalize (direction : JsValue) : Direction :=
  if is_up direction then Up else Down.

(** [callFrom(floor, direction)] *)
Definition callFrom (st : Elevator) (floor direction : JsValue) : Elevator :=
  let direction := normalize direction in
  if negb (_validFloor st floor) then st
  else
    match floor with
    | JsInt f =>
        if (f =? maxFloor st) && bool_decide (direction = Up) then st
        else if (f =? minFloor st) && bool_decide (direction = Down) then st
        else
          let calls1 :=
            match calls st !! f with
            | None => <[f := ∅]> (calls st)
            | Some _ => calls st
            end in
          set_calls (alter (fun s => {[direction]} ∪ s) f calls1) st
    | _ => st (* not an integer: already returned above *)
    end.

(** How [callFrom(floor, direction)] completes.  The warning for an
    invalid floor formats the argument as it was passed; the other log
    lines format an integer floor and the normalized direction. *)
Definition callFrom_completion (st : Elevator) (floor direction : JsValue)
    : Completion :=
  if negb (_validFloor st floor) then template floor
  else Returns.

(** ** Suspended frames

    Where an [async] method is waiting.  The [..Sleep] frames wait for a
    timer ([await this._sleep(ms)]); the [..Await..] frames wait for the
    promise of a callee. *)
Inductive Frame :=
| IdleSleep                      (* start: await this._sleep(250) *)
| StartAwaitClose                (* start: await this.closeDoors() *)
| StartAwaitMove                 (* start: await this._moveOneFloor() *)
| TravelSleep (targetFloor : Z)  (* _moveOneFloor: await this._sleep(travelTimeMs) *)
| MoveAwaitOpen                  (* _moveOneFloor: await this.openDoors(..) *)
| OpenSleep                      (* openDoors: await this._sleep(doorOperateMs) *)
| DwellSleep                     (* openDoors: await this._sleep(doorDwellMs) *)
| OpenAwaitClose                 (* openDoors: await this.closeDoors() *)
| CloseSleep.                    (* closeDoors: await this._sleep(doorOperateMs) *)

#[global] Instance Frame_eq_dec : EqDecision Frame.
Proof. solve_decision. Defined.

(** A call of an [async] method runs up to its first [await] and leaves
    the frames it is suspended in, innermost first; no frame means that
    the method has returned.  [awaited r fr] is the caller suspending on
    the callee's promise with its own frame [fr]. *)
Definition awaited (r : Elevator * list Frame) (fr : Frame)
    : Elevator * list Frame :=
  (r.1, r.2 ++ [fr]).

(** ** Doors *)

(** [closeDoors()] up to its [await]. *)
Definition closeDoors (st : Elevator) : Elevator * list Frame :=
  if negb (doorsOpen st) then (st, [])
  else (st, [CloseSleep]).

(** [closeDoors()] after the closing time: [this.doorsOpen = false]. *)
Definition closeDoors_closed (st : Elevator) : Elevator * list Frame :=
  (set_doorsOpen false st, []).

(** [openDoors(reason)] up to its first [await]. *)
Definition openDoors (st : Elevator) : Elevator * list Frame :=
  if doorsOpen st then (st, [])
  else (st, [OpenSleep]).

(** [openDoors], "Fulfill internal request for this floor". *)
Definition fulfil_request (st : Elevator) : Elevator :=
  if bool_decide (currentFloor st ∈ requests st)
  then set_requests (requests st ∖ {[currentFloor st]}) st
  else st.

(** [openDoors], "Fulfill calls only if they match the direction we are
    about to take".  [callsHere.delete(this.direction)] updates the set
    held by the map under the current floor. *)
Definition fulfil_calls (st : Elevator) : Elevator :=
  match calls st !! currentFloor st with
  | Some callsHere =>
      if bool_decide (0 < size callsHere)%nat then
        if bool_decide (direction st = Idle) then
          set_calls (delete (currentFloor st) (calls st)) st
        else
          let callsHere' :=
            if bool_decide (direction st ∈ callsHere)
            then callsHere ∖ {[direction st]}
            else callsHere in
          let calls1 := <[currentFloor st := callsHere']> (calls st) in
          if bool_decide (size callsHere' = 0)%nat
          then set_calls (delete (currentFloor st) calls1) st
          else set_calls calls1 st
      else st
  | None => st
  end.

(** [openDoors]: the statements that run when the opening time is over,
    from [this.doorsOpen = true] to the end of the fulfilment of calls. *)
Definition openDoors_fulfil (st : Elevator) : Elevator :=
  fulfil_calls (fulfil_request (set_doorsOpen true st)).

(** [openDoors]: the dwell time is over (or was zero):
    [await this.closeDoors()]. *)
Definition openDoors_close (st : Elevator) : Elevator * list Frame :=
  awaited (closeDoors st) OpenAwaitClose.

(** [openDoors] resumed after the opening time. *)
Definition openDoors_opened (st : Elevator) : Elevator * list Frame :=
  let st := openDoors_fulfil st in
  if 0 <? doorDwellMs st then (st, [DwellSleep])
  else openDoors_close st.

(** ** Direction decision *)

(** [Math.min(...l)] and [Math.max(...l)]; [None] is the infinity the
    functions return on no argument. *)
Definition Math_min (l : list Z) : option Z :=
  match l with [] => None | x :: xs => Some (foldr Z.min x xs) end.

Definition Math_max (l : list Z) : option Z :=
  match l with [] => None | x :: xs => Some (foldr Z.max x xs) end.

(** The set [targets] built by [_decideDirection]: the panel requests and
    every key of the call map. *)
Definition targets (st : Elevator) : gset Z :=
  requests st ∪ dom (calls st).

(** The arrays [targetsArr], [above] and [below] of [_decideDirection]. *)
Definition targetsArr (st : Elevator) : list Z := elements (targets st).

Definition above (st : Elevator) : list Z :=
  filter (fun f => currentFloor st < f) (targetsArr st).

Definition below (st : Elevator) : list Z :=
  filter (fun f => f < currentFloor st) (targetsArr st).

(** [_decideDirection()] *)
Definition _decideDirection (st : Elevator) : Direction :=
  if bool_decide (size (requests st) = 0%nat)
     && bool_decide (size (calls st) = 0%nat) then Idle
  else
    match direction st with
    | Up =>
        if bool_decide (0 < length (above st))%nat then Up
        else if bool_decide (0 < length (below st))%nat then Down
        else Idle
    | Down =>
        if bool_decide (0 < length (below st))%nat then Down
        else if bool_decide (0 < length (above st))%nat then Up
        else Idle
    | Idle =>
        if bool_decide (length (above st) = 0)%nat
           && bool_decide (length (below st) = 0)%nat then Idle
        else if bool_decide (length (above st) = 0)%nat then Down
        else if bool_decide (length (below st) = 0)%nat then Up
        else
          match Math_min (above st), Math_max (below st) with
          | Some mn, Some mx =>
              let nearestAbove := Number_sub mn (currentFloor st) in
              let nearestBelow := Number_sub (currentFloor st) mx in
              if nearestAbove <=? nearestBelow then Up else Down
          | _, _ => Idle (* both arrays are non-empty here *)
          end
    end.

(** ** Movement *)

(** [_moveOneFloor()] up to its first [await]. *)
Definition _moveOneFloor (st : Elevator) : Elevator * list Frame :=
  if doorsOpen st then (st, [])
  else if bool_decide (direction st = Idle) then (st, [])
  else
    let targetFloor :=
      if bool_decide (direction st = Up)
      then Number_add (currentFloor st) 1
      else Number_sub (currentFloor st) 1 in
    if negb (_validFloor st (JsInt targetFloor))
    then (set_direction Idle st, [])
    else (st, [TravelSleep targetFloor]).

(** [_moveOneFloor] resumed after the travel time. *)
Definition _moveOneFloor_arrive (st : Elevator) (targetFloor : Z)
    : Elevator * list Frame :=
  let st := set_currentFloor targetFloor st in
  let shouldOpenForRequest := bool_decide (currentFloor st ∈ requests st) in
  let shouldOpenForCall :=
    match calls st !! currentFloor st with
    | Some callsHere => bool_decide (direction st ∈ callsHere)
    | None => false
    end in
  if shouldOpenForRequest || shouldOpenForCall
  then awaited (openDoors st) MoveAwaitOpen
  else (st, []).

(** ** The control loop *)

(** [start]: [await this._moveOneFloor()]. *)
Definition start_move (st : Elevator) : Elevator * list Frame :=
  awaited (_moveOneFloor st) StartAwaitMove.

(** [start]: one pass of [while (this._running) { .. }] from its test to
    the first [await] of the body. *)
Definition start_loop (st : Elevator) : Elevator * list Frame :=
  if negb (_running st) then (st, [])
  else
    let st := set_direction (_decideDirection st) st in
    if bool_decide (direction st = Idle) then (st, [IdleSleep])
    else if doorsOpen st then awaited (closeDoors st) StartAwaitClose
    else start_move st.

(** [start()] up to its first [await]. *)
Definition start (st : Elevator) : Elevator * list Frame :=
  if _running st then (st, [])
  else start_loop (set_running true st).

(** [stop()] *)
Definition stop (st : Elevator) : Elevator := set_running false st.

(** The code that follows the [await] of frame [fr]. *)
Definition resume_frame (st : Elevator) (fr : Frame) : Elevator * list Frame :=
  match fr with
  | IdleSleep => start_loop st
  | StartAwaitClose => start_move st
  | StartAwaitMove => start_loop st
  | TravelSleep targetFloor => _moveOneFloor_arrive st targetFloor
  | MoveAwaitOpen => (st, [])
  | OpenSleep => openDoors_opened st
  | DwellSleep => openDoors_close st
  | OpenAwaitClose => (st, [])
  | CloseSleep => closeDoors_closed st
  end.

(** A suspended task is resumed at its innermost frame; the frames the
    resumption leaves replace it on top of the awaiting callers. *)
Definition resume (st : Elevator) (k : list Frame) : Elevator * list Frame :=
  match k with
  | [] => (st, [])
  | fr :: callers =>
      let r := resume_frame st fr in (r.1, r.2 ++ callers)
  end.

(** [n] resumptions in a row of one task, nothing else running between. *)
Fixpoint run (n : nat) (st : Elevator) (k : list Frame)
    : Elevator * list Frame :=
  match n with
  | O => (st, k)
  | S n' => let r := resume st k in run n' r.1 r.2
  end.

(** ** The controller among its callers

    The event loop interleaves the public operations with the resumptions
    of the suspended [start()] tasks. *)
Inductive Event :=
| E_pressFloor (floor : JsValue)
| E_callFrom (floor direction : JsValue)
| E_start
| E_stop
| E_resume (i : nat).   (* the [i]-th suspended task continues *)

Record System := mkSystem {
  elevator : Elevator;
  tasks : list (list Frame)
}.

(** The task left by a call of [start()] joins the suspended tasks; a call
    that returned at once leaves none. *)
Definition spawn (r : Elevator * list Frame) (ts : list (list Frame)) : System :=
  match r.2 with
  | [] => mkSystem r.1 ts
  | _ :: _ => mkSystem r.1 (ts ++ [r.2])
  end.

(** One event.  A task whose resumption leaves no frame has returned
    from [start()] and is removed. *)
Definition step (sys : System) (ev : Event) : System :=
  match ev with
  | E_pressFloor floor =>
      mkSystem (pressFloor (elevator sys) floor) (tasks sys)
  | E_callFrom floor d =>
      mkSystem (callFrom (elevator sys) floor d) (tasks sys)
  | E_start => spawn (start (elevator sys)) (tasks sys)
  | E_stop => mkSystem (stop (elevator sys)) (tasks sys)
  | E_resume i =>
      match tasks sys !! i with
      | None => sys
      | Some k =>
          let r := resume (elevator sys) k in
          match r.2 with
          | [] => mkSystem r.1 (delete i (tasks sys))
          | _ :: _ => mkSystem r.1 (<[i := r.2]> (tasks sys))
          end
      end
  end.

Definition exec (sys : System) (evs : list Event) : System :=
  foldl step sys evs.

Definition boot (st : Elevator) : System := mkSystem st [].

(** ** Vocabulary of the properties *)

(** The hall call [(f, d)] is pending. *)
Definition hasCall (st : Elevator) (f : Z) (d : Direction) : Prop :=
  ∃ ds, calls st !! f = Some ds ∧ d ∈ ds.

(** A floor with outstanding demand: a panel request for it, or a pending
    hall call at it. *)
Definition demand (st : Elevator) (f : Z) : Prop :=
  f ∈ requests st ∨ ∃ d, hasCall st f d.

Definition demand_above (st : Elevator) : Prop :=
  ∃ f, demand st f ∧ currentFloor st < f.

Definition demand_below (st : Elevator) : Prop :=
  ∃ f, demand st f ∧ f < currentFloor st.

(** [n] floors of travel reach the closest demand floor above (below). *)
Definition nearest_above (st : Elevator) (n : Z) : Prop :=
  0 < n ∧ demand st (currentFloor st + n) ∧
  ∀ f, demand st f → currentFloor st < f → currentFloor st + n ≤ f.

Definition nearest_below (st : Elevator) (n : Z) : Prop :=
  0 < n ∧ demand st (currentFloor st - n) ∧
  ∀ f, demand st f → f < currentFloor st → f ≤ currentFloor st - n.

(** No key of the call map holds an empty direction set.  [callFrom] only
    creates a set to add to it and [openDoors] deletes the key of a set it
    has emptied, so every state the controller reaches has the property
    ([calls_nonempty_reachable]). *)
Definition calls_nonempty (st : Elevator) : Prop :=
  ∀ f ds, calls st !! f = Some ds → ds ≠ ∅.

(** Every pending hall call is for Up or Down, never Up from the top
    floor and never Down from the bottom floor. *)
Definition call_geometry (st : Elevator) : Prop :=
  ∀ f d, hasCall st f d →
    (d = Up ∨ d = Down) ∧
    ¬ (f = maxFloor st ∧ d = Up) ∧ ¬ (f = minFloor st ∧ d = Down).

(** The bounds are safe integers ([Number.isSafeInteger]) at most 2^53
    apart: between floors of such a range, the sums and differences the
    code computes are exact. *)
Definition safe_range (st : Elevator) : Prop :=
  - exact_bound < minFloor st ∧ maxFloor st < exact_bound ∧
  maxFloor st - minFloor st ≤ exact_bound.

(** Floors *)
Definition in_range (st : Elevator) (f : Z) : Prop :=
  minFloor st ≤ f ≤ maxFloor st.

Definition floors_in_range (st : Elevator) : Prop :=
  in_range st (currentFloor st) ∧
  (∀ f, f ∈ requests st → in_range st f) ∧
  (∀ f, f ∈ dom (calls st) → in_range st f).

(** The target of a hop in progress was validated before the hop. *)
Definition frame_in_range (st : Elevator) (fr : Frame) : Prop :=
  match fr with
  | TravelSleep targetFloor => in_range st targetFloor
  | _ => True
  end.

Definition system_in_range (sys : System) : Prop :=
  floors_in_range (elevator sys) ∧
  Forall (Forall (frame_in_range (elevator sys))) (tasks sys).

(** States reached from a fresh controller by any interleaving of public
    operations and task resumptions. *)
Inductive reachable (st0 : Elevator) : System → Prop :=
| reachable_boot : reachable st0 (boot st0)
| reachable_step sys ev :
    reachable st0 sys → reachable st0 (step sys ev).

(** The same with at most one [start()] task alive at any time. *)
Inductive reachable_single (st0 : Elevator) : System → Prop :=
| single_boot : reachable_single st0 (boot st0)
| single_step sys ev :
    reachable_single st0 sys →
    (length (tasks (step sys ev)) ≤ 1)%nat →
    reachable_single st0 (step sys ev).

(** The call map after a stop at the current floor, in the words of the
    door cycle: an Idle car clears the floor's entry; a car with a
    direction fulfils the call of that direction only, and the entry goes
    once its direction set is empty. *)
Definition calls_after_stop (st : Elevator) : gmap Z (gset Direction) :=
  match calls st !! currentFloor st with
  | None => calls st
  | Some ds =>
      if decide (direction st = Idle) then delete (currentFloor st) (calls st)
      else if decide (ds ∖ {[direction st]} = ∅)
           then delete (currentFloor st) (calls st)
      else <[currentFloor st := ds ∖ {[direction st]}]> (calls st)
  end.

(** From [st] to [st'] the bounds are kept, no demand floor is added and
    no direction set is emptied in place: what every part of the control
    loop does to the demand. *)
Definition shrinks (st st' : Elevator) : Prop :=
  minFloor st' = minFloor st ∧ maxFloor st' = maxFloor st ∧
  requests st' ⊆ requests st ∧ dom (calls st') ⊆ dom (calls st) ∧
  (calls_nonempty st → calls_nonempty st') ∧
  (∀ f d, hasCall st' f d → hasCall st f d).

(** The outcome [r] of a call or of a resumption that leaves the car where
    it is. *)
Definition stays (st : Elevator) (r : Elevator * list Frame) : Prop :=
  shrinks st r.1 ∧ currentFloor r.1 = currentFloor st ∧
  Forall (frame_in_range st) r.2.

(** A suspended task is gated when a hop in progress can only be its
    innermost frame, and then the doors are closed. *)
Definition gated (st : Elevator) (k : list Frame) : Prop :=
  (∀ t, TravelSleep t ∉ tail k) ∧
  (∀ t, head k = Some (TravelSleep t) → doorsOpen st = false).

(** At most one task, and it is gated. *)
Definition single_gated (sys : System) : Prop :=
  tasks sys = [] ∨ ∃ k, tasks sys = [k] ∧ gated (elevator sys) k.

(** ** Example controllers and runs *)

(** Idle at floor 5 with demand two floors below (panel request 3) and two
    floors above (hall call at 7), and a farther request for 8. *)
Definition tie_at_5 : Elevator :=
  mkElevator 1 9 5 Idle false {[3; 8]} {[7 := {[Down]}]} 400 700 0 true.

(** Heading Up, about to open at floor 2, where a panel request and both
    hall calls are pending. *)
Definition stop_at_2 : Elevator :=
  mkElevator 1 5 2 Up false {[2; 4]} {[2 := {[Up; Down]}]} 400 700 0 true.

(** A started controller of floors 1 to 5, idling at floor 1. *)
Definition idle_at_1 : Elevator := (start (new_Elevator 1 5 400 700 0)).1.

(** Idle at floor 2 with the hall call (2, down) pending. *)
Definition waiting_at_2 : Elevator :=
  mkElevator 1 5 2 Idle false ∅ {[2 := {[Down]}]} 400 700 0 true.

(** [start()], then [callFrom(2, 'up')] and [callFrom(2, 'down')] while
    the loop sleeps idle at floor 1; the loop wakes up, travels to floor 2
    and completes the opening of the doors. *)
Definition two_calls_run : System :=
  exec (boot (new_Elevator 1 5 400 700 0))
    [E_start;
     E_callFrom (JsInt 2) (JsString "up");
     E_callFrom (JsInt 2) (JsString "down");
     E_resume 0; E_resume 0; E_resume 0].

(** The same run continued until the loop sleeps idle again. *)
Definition two_calls_run_end : System :=
  exec two_calls_run
    [E_resume 0; E_resume 0; E_resume 0; E_resume 0; E_resume 0].

(** Floors 1 to 5, idle at floor 1: [start()], [callFrom(3, 'up')],
    [pressFloor(5)], then [n] resumptions of the loop. *)
Definition journey (n : nat) : System :=
  exec (boot (new_Elevator 1 5 400 700 0))
    (E_start :: E_callFrom (JsInt 3) (JsString "up")
     :: E_pressFloor (JsInt 5) :: replicate n (E_resume 0)).

(** A restart, with [travelTimeMs = 200] and [doorOperateMs = 220].
    t = 0: [start()], the loop sleeps idle until 250.
    t = 10: [pressFloor(2)], [pressFloor(3)], [stop()], [start()]: a second
    loop begins the hop 1 -> 2.
    t = 210: the second loop arrives at 2 and begins to open the doors.
    t = 250: the first loop wakes up, sees [_running] true again, and
    begins the hop 2 -> 3 (the doors are still opening).
    t = 430: the second loop completes the opening: [doorsOpen] is true.
    [restart_run] ends here; next, at t = 450, the first loop completes
    its hop. *)
Definition restart_config : Elevator := new_Elevator 1 10 200 220 0.

Definition restart_run : System :=
  exec (boot restart_config)
    [E_start;
     E_pressFloor (JsInt 2); E_pressFloor (JsInt 3);
     E_stop; E_start;
     E_resume 1; E_resume 0; E_resume 1].

(** ** Proof steps *)

(** Case analysis on every test of the goal. *)
Ltac split_ifs :=
  repeat match goal with
         | |- context [if ?b then _ else _] => destruct b eqn:?
         end.

(** ** Vocabulary of the further properties *)

(** [st'] differs from [st] in the car only: position, direction, doors. *)
Definition car_only (st st' : Elevator) : Prop :=
  minFloor st' = minFloor st ∧ maxFloor st' = maxFloor st ∧
  travelTimeMs st' = travelTimeMs st ∧ doorOperateMs st' = doorOperateMs st ∧
  doorDwellMs st' = doorDwellMs st ∧ _running st' = _running st ∧
  requests st' = requests st ∧ calls st' = calls st.

(** The floor [pressFloor(floor)] registers, if it accepts the press. *)
Definition pressed (st : Elevator) (floor : JsValue) : option Z :=
  match floor with
  | JsInt f => if _validFloor st floor then Some f else None
  | _ => None
  end.

(** The floor [callFrom(floor, direction)] registers a call at, if it
    accepts the call. *)
Definition called (st : Elevator) (floor direction : JsValue) : option Z :=
  match floor with
  | JsInt f =>
      if negb (_validFloor st floor) then None
      else if (f =? maxFloor st) && bool_decide (normalize direction = Up)
      then None
      else if (f =? minFloor st) && bool_decide (normalize direction = Down)
      then None
      else Some f
  | _ => None
  end.

(** The suspended task of a loop that runs alone, with the state of the
    doors in each of its positions: closed while the loop sleeps idle,
    travels to the floor [_moveOneFloor] computed from the current floor
    and direction, waits for the doors to open or returns from a door
    cycle; open during the dwell time and while the doors close. *)
Definition loop_task (st : Elevator) (k : list Frame) : Prop :=
  (doorsOpen st = false ∧
   (k = [IdleSleep] ∨
    k = [StartAwaitMove] ∨
    (∃ t, k = [TravelSleep t; StartAwaitMove] ∧
          ((direction st = Up ∧ t = Number_add (currentFloor st) 1) ∨
           (direction st = Down ∧ t = Number_sub (currentFloor st) 1))) ∨
    k = [OpenSleep; MoveAwaitOpen; StartAwaitMove] ∨
    k = [OpenAwaitClose; MoveAwaitOpen; StartAwaitMove] ∨
    k = [MoveAwaitOpen; StartAwaitMove])) ∨
  (doorsOpen st = true ∧
   (k = [DwellSleep; MoveAwaitOpen; StartAwaitMove] ∨
    k = [CloseSleep; OpenAwaitClose; MoveAwaitOpen; StartAwaitMove])).

(** A controller with no loop and closed doors, or with one loop in one
    of the positions of [loop_task]. *)
Definition single_loop (sys : System) : Prop :=
  (tasks sys = [] ∧ doorsOpen (elevator sys) = false) ∨
  ∃ k, tasks sys = [k] ∧ loop_task (elevator sys) k.

(** The resumptions a door cycle takes from the start of the opening to
    the return of [openDoors]: opening, dwell if any, closing, return. *)
Definition door_cycle_steps (st : Elevator) : nat :=
  if 0 <? doorDwellMs st then 4%nat else 3%nat.

(** A measure of the way left to floor [f] under the policy "continue in
    the current direction, then reverse": the distance when the car heads
    for [f], else the way to the end of the shaft and back. *)
Definition way_to (st : Elevator) (f : Z) : Z :=
  if currentFloor st <? f then
    match direction st with
    | Up => f - currentFloor st
    | Down => (currentFloor st - minFloor st) + (f - minFloor st) + 1
    | Idle => (currentFloor st - minFloor st) + (f - minFloor st) + 2
    end
  else
    match direction st with
    | Down => currentFloor st - f
    | Up => (maxFloor st - currentFloor st) + (maxFloor st - f) + 1
    | Idle => (maxFloor st - currentFloor st) + (maxFloor st - f) + 2
    end.

(** * seed script: reading [.env]

    [loadEnv] of the airline seed script ([src/unnamed/part_000]): the
    text of the file is split into lines and every line of the form
    [KEY=VALUE] becomes an assignment of the environment.  A string is
    the list of its UTF-16 code units.  [Deno.readTextFile] and
    [Deno.env.set] are outside the repository: the model stops at the
    list of assignments the loop attempts, in order (each attempt sits in
    its own [try], so a failing one does not affect the others). *)
Module LoadEnv.

(** Code units of the characters the parser looks at. *)
Definition LF : N := 10%N.
Definition CR : N := 13%N.
Definition hash : N := 35%N.
Definition equals : N := 61%N.
Definition dquote : N := 34%N.
Definition squote : N := 39%N.

(** The code units [String.prototype.trim] removes: the WhiteSpace and
    LineTerminator code points of ECMAScript (TAB, VT, FF, SP, NBSP,
    ZWNBSP, the Unicode space separators, LF, CR, LS, PS). *)
Definition spaces : list N :=
  [9; 10; 11; 12; 13; 32; 160; 5760;
   8192; 8193; 8194; 8195; 8196; 8197; 8198; 8199; 8200; 8201; 8202;
   8232; 8233; 8239; 8287; 12288; 65279]%N.

Definition is_space (c : N) : bool := bool_decide (c ∈ spaces).

Fixpoint trimStart (s : list N) : list N :=
  match s with
  | c :: s' => if is_space c then trimStart s' else s
  | [] => []
  end.

Definition trimEnd (s : list N) : list N :=
  reverse (trimStart (reverse s)).

(** [s.trim()] *)
Definition trim (s : list N) : list N := trimEnd (trimStart s).

(** [s.startsWith(c)] and [s.endsWith(c)] for a one-character [c]. *)
Definition startsWith (c : N) (s : list N) : bool :=
  match s with x :: _ => bool_decide (x = c) | [] => false end.

Definition endsWith (c : N) (s : list N) : bool :=
  match last s with Some x => bool_decide (x = c) | None => false end.

(** [s.indexOf(c)]; [None] is [-1]. *)
Fixpoint indexOf (c : N) (s : list N) : option nat :=
  match s with
  | [] => None
  | x :: s' => if bool_decide (x = c) then Some O else S <$> indexOf c s'
  end.

(** [s.slice(1, -1)] *)
Definition slice_1_m1 (s : list N) : list N :=
  take (length s - 1 - 1) (drop 1 s).

(** [txt.split(/\r?\n/)], with the line in progress kept reversed in
    [cur]. *)
Fixpoint split_from (cur : list N) (txt : list N) : list (list N) :=
  match txt with
  | [] => [reverse cur]
  | c :: rest =>
      if bool_decide (c = LF) then reverse cur :: split_from [] rest
      else if bool_decide (c = CR) then
        match rest with
        | c' :: rest' =>
            if bool_decide (c' = LF) then reverse cur :: split_from [] rest'
            else split_from (c :: cur) rest
        | [] => split_from (c :: cur) rest
        end
      else split_from (c :: cur) rest
  end.

Definition split_lines (txt : list N) : list (list N) := split_from [] txt.

(** The quotes around a value are dropped when the value starts and ends
    with the same quote (a value that is one quote starts and ends with
    it, and becomes empty). *)
Definition unquote (val : list N) : list N :=
  if (startsWith dquote val && endsWith dquote val)
     || (startsWith squote val && endsWith squote val)
  then slice_1_m1 val
  else val.

(** The body of the loop for one line: the key and the value passed to
    [Deno.env.set], or [None] when the loop [continue]s. *)
Definition parse_line (line : list N) : option (list N * list N) :=
  let trimmed := trim line in
  if bool_decide (trimmed = []) || startsWith hash trimmed then None
  else
    match indexOf equals trimmed with
    | None => None
    | Some eq =>
        let key := trim (take eq trimmed) in
        let val := trim (drop (S eq) trimmed) in
        Some (key, unquote val)
    end.

(** The assignments [loadEnv] attempts on a file with text [txt]. *)
Definition assignments (txt : list N) : list (list N * list N) :=
  omap parse_line (split_lines txt).

(** Joining lines with a separator, as a file has them. *)
Fixpoint join (sep : list N) (lines : list (list N)) : list N :=
  match lines with
  | [] => []
  | [l] => l
  | l :: ls => l ++ sep ++ join sep ls
  end.

(** A string [trim] leaves as it is: empty, or with a first and a last
    code unit that are not spaces. *)
Definition tight (s : list N) : Prop :=
  (∀ c, head s = Some c → is_space c = false) ∧
  (∀ c, last s = Some c → is_space c = false).

End LoadEnv.

(** ** Sets and arrays *)

Lemma difference_singleton_if `{Countable A} (x : A) (X : gset A) :
  (if bool_decide (x ∈ X) then X ∖ {[x]} else X) = X ∖ {[x]}.
Proof.
  case_bool_decide; [done |].
  apply set_eq. intros y. rewrite elem_of_difference, elem_of_singleton.
  split; [| tauto]. intros Hy. split; [done |]. by intros ->.
Qed.

Lemma size_zero_empty `{Countable A} (X : gset A) :
  size X = 0%nat ↔ X = ∅.
Proof. rewrite size_empty_iff. apply leibniz_equiv_iff. Qed.

Lemma size_pos_nonempty `{Countable A} (X : gset A) :
  (0 < size X)%nat ↔ X ≠ ∅.
Proof. rewrite <- size_zero_empty. lia. Qed.



(** ** Number arithmetic within the exact range *)

#[global] Arguments Number_round : simpl never.
#[global] Arguments Number_add : simpl never.
#[global] Arguments Number_sub : simpl never.

Lemma exact_bound_eq : exact_bound = 9007199254740992.
Proof. reflexivity. Qed.

Lemma Number_round_exact z :
  - exact_bound ≤ z ≤ exact_bound → Number_round z = z.
Proof.
  intros Hz. unfold Number_round.
  assert ((Z.abs z <=? exact_bound) = true) as ->; [| done].
  apply Z.leb_le. lia.
Qed.

Lemma Number_add_exact a b :
  - exact_bound ≤ a + b ≤ exact_bound → Number_add a b = a + b.
Proof. apply Number_round_exact. Qed.

Lemma Number_sub_exact a b :
  - exact_bound ≤ a - b ≤ exact_bound → Number_sub a b = a - b.
Proof. apply Number_round_exact. Qed.

(** Beyond 2^53 the doubles are two or more apart: at 2^53 a step of one
    floor is lost, at 2^53 + 2 it is a step of two. *)
Lemma Number_add_beyond :
  Number_add exact_bound 1 = exact_bound ∧
  Number_add (exact_bound + 2) 1 = exact_bound + 4 ∧
  Number_sub (- exact_bound) 1 = - exact_bound.
Proof. split_and!; by vm_compute. Qed.

(** Next to a floor of a safe range, and between two of them. *)
Lemma safe_next st f :
  safe_range st → in_range st f →
  Number_add f 1 = f + 1 ∧ Number_sub f 1 = f - 1.
Proof.
  unfold safe_range, in_range. intros (Hlo & Hhi & _) Hf.
  rewrite Number_add_exact, Number_sub_exact by lia. done.
Qed.

Lemma safe_distance st a b :
  safe_range st → in_range st a → in_range st b → Number_sub a b = a - b.
Proof.
  unfold safe_range, in_range. intros (Hlo & Hhi & Hspan) Ha Hb.
  apply Number_sub_exact. lia.
Qed.

Lemma safe_range_bounds st st' :
  minFloor st' = minFloor st → maxFloor st' = maxFloor st →
  safe_range st → safe_range st'.
Proof. unfold safe_range. by intros -> ->. Qed.
(** ** Demand registration: rejection, acceptance, idempotence *)

Lemma validFloor_spec st v :
  _validFloor st v = true ↔ ∃ f, v = JsInt f ∧ in_range st f.
Proof.
  unfold _validFloor, in_range. destruct v as [n| |s| |].
  - rewrite andb_true_iff, !Z.leb_le. split.
    + intros H. exists n. done.
    + intros (f & [= ->] & H). done.
  - split; [done | by intros (f & ? & _)].
  - split; [done | by intros (f & ? & _)].
  - split; [done | by intros (f & ? & _)].
  - split; [done | by intros (f & ? & _)].
Qed.

Lemma normalize_up d : normalize d = Up ↔ d = JsString "up".
Proof.
  unfold normalize, is_up. destruct d as [n| |s| |]; try done.
  case_bool_decide; subst; split; congruence.
Qed.

Lemma normalize_not_up d : d ≠ JsString "up" → normalize d = Down.
Proof.
  intros H. destruct (normalize d) eqn:E; [| done |].
  - apply normalize_up in E. done.
  - unfold normalize in E. by destruct (is_up d).
Qed.

(** The call map after an accepted [callFrom(f, d)]. *)
Lemma callFrom_alter_insert (c : gmap Z (gset Direction)) f d :
  alter (fun s => {[d]} ∪ s) f
    (match c !! f with None => <[f := ∅]> c | Some _ => c end)
  = <[f := {[d]} ∪ default ∅ (c !! f)]> c.
Proof.
  apply map_eq. intros g. destruct (decide (f = g)) as [<-|Hne].
  - rewrite lookup_insert_eq. destruct (c !! f) as [ds|] eqn:E.
    + by rewrite lookup_alter_eq, E.
    + by rewrite lookup_alter_eq, lookup_insert_eq.
  - rewrite lookup_insert_ne by done. rewrite lookup_alter_ne by done.
    destruct (c !! f); [done |]. by rewrite lookup_insert_ne.
Qed.

Lemma pressFloor_invalid st floor :
  _validFloor st floor = false → pressFloor st floor = st.
Proof. unfold pressFloor. by intros ->. Qed.

Lemma callFrom_invalid st floor d :
  _validFloor st floor = false → callFrom st floor d = st.
Proof. unfold callFrom. by intros ->. Qed.

Lemma pressFloor_valid st f :
  in_range st f →
  pressFloor st (JsInt f) = set_requests ({[f]} ∪ requests st) st.
Proof.
  intros Hf. unfold pressFloor.
  assert (_validFloor st (JsInt f) = true) as ->; [| done].
  apply validFloor_spec. by exists f.
Qed.

(** An accepted hall call: the floor is in range and the pair is neither
    "up from the top floor" nor "down from the bottom floor". *)
Lemma callFrom_accepted st f d :
  in_range st f →
  ¬ (f = maxFloor st ∧ normalize d = Up) →
  ¬ (f = minFloor st ∧ normalize d = Down) →
  callFrom st (JsInt f) d
  = set_calls (<[f := {[normalize d]} ∪ default ∅ (calls st !! f)]> (calls st)) st.
Proof.
  intros Hf Htop Hbot. unfold callFrom.
  assert (_validFloor st (JsInt f) = true) as ->.
  { apply validFloor_spec. by exists f. }
  cbn [negb].
  destruct ((f =? maxFloor st) && bool_decide (normalize d = Up)) eqn:E1.
  { apply andb_true_iff in E1 as [E1 E2]. apply Z.eqb_eq in E1.
    apply bool_decide_eq_true in E2. tauto. }
  destruct ((f =? minFloor st) && bool_decide (normalize d = Down)) eqn:E2.
  { apply andb_true_iff in E2 as [E2 E3]. apply Z.eqb_eq in E2.
    apply bool_decide_eq_true in E3. tauto. }
  by rewrite callFrom_alter_insert.
Qed.

(** Every [callFrom] either changes nothing or is an accepted call. *)
Lemma callFrom_cases st floor d :
  callFrom st floor d = st ∨
  ∃ f, floor = JsInt f ∧ in_range st f ∧
       ¬ (f = maxFloor st ∧ normalize d = Up) ∧
       ¬ (f = minFloor st ∧ normalize d = Down) ∧
       callFrom st floor d
       = set_calls (<[f := {[normalize d]} ∪ default ∅ (calls st !! f)]> (calls st)) st.
Proof.
  destruct (_validFloor st floor) eqn:Hv.
  - apply validFloor_spec in Hv as (f & -> & Hf).
    destruct (decide (f = maxFloor st ∧ normalize d = Up)) as [[E1 E2]|Htop].
    { left. unfold callFrom. cbv zeta. rewrite E2.
      destruct (negb _); [done |]. subst f. by rewrite Z.eqb_refl. }
    destruct (decide (f = minFloor st ∧ normalize d = Down)) as [[E1 E2]|Hbot].
    { left. unfold callFrom. cbv zeta. rewrite E2.
      destruct (negb _); [done |]. subst f.
      rewrite Z.eqb_refl, andb_false_r. done. }
    right. exists f. split_and!; try done.
    by apply callFrom_accepted.
  - left. by apply callFrom_invalid.
Qed.

(** The pending calls after the pair [(f, d)] has been added. *)
Lemma hasCall_accepted st f d g e :
  hasCall (set_calls (<[f := {[d]} ∪ default ∅ (calls st !! f)]> (calls st)) st) g e
  ↔ hasCall st g e ∨ (g = f ∧ e = d).
Proof.
  unfold hasCall; cbn.
  destruct (decide (f = g)) as [<-|Hne].
  - rewrite lookup_insert_eq. split.
    + intros (ds & [= <-] & He).
      apply elem_of_union in He as [He|He].
      * right. split; [done |]. by apply elem_of_singleton in He.
      * left. destruct (calls st !! f) as [ds|]; [by exists ds |].
        by apply elem_of_empty in He.
    + intros [(ds & E & He)|[_ ->]].
      * eexists. split; [done |]. rewrite E. cbn.
        apply elem_of_union. by right.
      * eexists. split; [done |].
        apply elem_of_union. left. by apply elem_of_singleton.
  - rewrite lookup_insert_ne by done. split; [by left |].
    intros [H|[-> _]]; done.
Qed.

Lemma pressFloor_twice st floor :
  pressFloor (pressFloor st floor) floor = pressFloor st floor.
Proof.
  destruct (_validFloor st floor) eqn:Hv.
  - apply validFloor_spec in Hv as (f & -> & Hf).
    rewrite (pressFloor_valid st f Hf).
    rewrite pressFloor_valid by done.
    unfold set_requests; cbn. f_equal.
    apply set_eq. intros x. rewrite !elem_of_union. tauto.
  - by rewrite !(pressFloor_invalid st floor Hv).
Qed.

Lemma callFrom_twice st floor d :
  callFrom (callFrom st floor d) floor d = callFrom st floor d.
Proof.
  destruct (callFrom_cases st floor d) as [E|(f & -> & Hf & Htop & Hbot & E)].
  - by rewrite !E.
  - rewrite E. rewrite callFrom_accepted by done.
    unfold set_calls; cbn. f_equal.
    rewrite lookup_insert_eq; cbn. rewrite insert_insert_eq.
    f_equal. apply set_eq. intros x. rewrite !elem_of_union. tauto.
Qed.

(** A call throws exactly when it rejects a floor argument that has no
    conversion to a string. *)
Lemma pressFloor_completion_Throws st floor :
  pressFloor_completion st floor = Throws ↔ floor = JsUnprintable.
Proof.
  unfold pressFloor_completion, template. split.
  - destruct (negb _); [| done]. by destruct floor.
  - by intros ->.
Qed.

Lemma callFrom_completion_Throws st floor d :
  callFrom_completion st floor d = Throws ↔ floor = JsUnprintable.
Proof.
  unfold callFrom_completion, template. split.
  - destruct (negb _); [| done]. by destruct floor.
  - by intros ->.
Qed.

(** C6, as amended: a floor argument that is not an integer of
    [minFloor, maxFloor] makes [pressFloor] and [callFrom] (whatever the
    direction argument) leave the controller as it was: no field changes
    and no error value is returned.  An exception propagates to the
    caller exactly when the rejected argument has no conversion to a
    string (a Symbol, [Object.create(null)]): the warning that formats it
    throws, after the state was left unchanged; for every other rejected
    argument the call returns. *)
Theorem invalid_floor_leaves_state st (floor d : JsValue) :
  (¬ ∃ f, floor = JsInt f ∧ minFloor st ≤ f ≤ maxFloor st) →
  pressFloor st floor = st ∧ callFrom st floor d = st ∧
  (pressFloor_completion st floor = Throws ↔ floor = JsUnprintable) ∧
  (callFrom_completion st floor d = Throws ↔ floor = JsUnprintable) ∧
  (floor ≠ JsUnprintable →
   pressFloor_completion st floor = Returns ∧
   callFrom_completion st floor d = Returns).
Proof.
  intros Hbad.
  assert (_validFloor st floor = false) as Hv.
  { destruct (_validFloor st floor) eqn:E; [| done].
    apply validFloor_spec in E. done. }
  split_and!.
  - by apply pressFloor_invalid.
  - by apply callFrom_invalid.
  - apply pressFloor_completion_Throws.
  - apply callFrom_completion_Throws.
  - intros Hp. unfold pressFloor_completion, callFrom_completion.
    rewrite Hv. cbn. by destruct floor.
Qed.

Lemma invalid_floor_leaves_state_witness :
  pressFloor default_Elevator (JsInt 11) = default_Elevator ∧
  callFrom default_Elevator (JsInt 11) (JsString "down") = default_Elevator ∧
  pressFloor_completion default_Elevator (JsInt 11) = Returns ∧
  callFrom_completion default_Elevator (JsInt 11) (JsString "down") = Returns.
Proof.
  destruct (invalid_floor_leaves_state default_Elevator (JsInt 11)
              (JsString "down")) as (Hp & Hc & _ & _ & Hret).
  - intros (f & [= <-] & H). cbn in H. lia.
  - destruct Hret as [Hrp Hrc]; done.
Defined.

(** C6 as the claim states it fails on [pressFloor(Symbol())] and
    [callFrom(Symbol(), "up")] of the default controller: the argument
    is not an integer of the range and the state is unchanged, but the
    call does not return: an exception propagates to the caller. *)
Lemma invalid_floor_can_throw :
  (¬ ∃ f, JsUnprintable = JsInt f ∧
          minFloor default_Elevator ≤ f ≤ maxFloor default_Elevator) ∧
  pressFloor default_Elevator JsUnprintable = default_Elevator ∧
  callFrom default_Elevator JsUnprintable (JsString "up") = default_Elevator ∧
  pressFloor_completion default_Elevator JsUnprintable = Throws ∧
  pressFloor_completion default_Elevator JsUnprintable ≠ Returns ∧
  callFrom_completion default_Elevator JsUnprintable (JsString "up") = Throws ∧
  callFrom_completion default_Elevator JsUnprintable (JsString "up") ≠ Returns.
Proof.
  split_and!; try done. by intros (f & ? & _).
Qed.

(** C7: [callFrom(maxFloor, "up")] is rejected, and so is
    [callFrom(minFloor, d)] for every [d] other than ["up"] (such a [d] is
    normalized to Down), both without any change of state; every other
    call with a floor in range adds the pair of the floor and the
    normalized direction to the call map and changes nothing else. *)
Theorem callFrom_geometry st :
  callFrom st (JsInt (maxFloor st)) (JsString "up") = st ∧
  (∀ d, d ≠ JsString "up" → callFrom st (JsInt (minFloor st)) d = st) ∧
  (∀ f d,
     in_range st f →
     ¬ (f = maxFloor st ∧ normalize d = Up) →
     ¬ (f = minFloor st ∧ normalize d = Down) →
     let st' := callFrom st (JsInt f) d in
     st' = set_calls (calls st') st ∧
     hasCall st' f (normalize d) ∧
     ∀ g e, hasCall st' g e ↔ hasCall st g e ∨ (g = f ∧ e = normalize d)).
Proof.
  split; [| split].
  - destruct (callFrom_cases st (JsInt (maxFloor st)) (JsString "up"))
      as [E|(f & [= <-] & _ & Htop & _)]; [done |].
    exfalso. apply Htop. split; [done |]. by apply normalize_up.
  - intros d Hd.
    destruct (callFrom_cases st (JsInt (minFloor st)) d)
      as [E|(f & [= <-] & _ & _ & Hbot & _)]; [done |].
    exfalso. apply Hbot. split; [done |]. by apply normalize_not_up.
  - intros f d Hf Htop Hbot st'. subst st'.
    rewrite callFrom_accepted by done. cbn.
    split; [done |].
    pose proof (hasCall_accepted st f (normalize d)) as Hchar.
    split; [| done]. apply Hchar. by right.
Qed.

(** C8: pressing the same floor, or registering the same hall call,
    [n + 1] times in a row leaves the controller in exactly the state one
    press (one call) leaves it in. *)
Theorem registration_idempotent st (floor d : JsValue) (n : nat) :
  Nat.iter (S n) (fun s => pressFloor s floor) st = pressFloor st floor ∧
  Nat.iter (S n) (fun s => callFrom s floor d) st = callFrom st floor d.
Proof.
  induction n as [|n [IHp IHc]]; [done |].
  split.
  - change (pressFloor (Nat.iter (S n) (fun s => pressFloor s floor) st) floor
            = pressFloor st floor).
    rewrite IHp. apply pressFloor_twice.
  - change (callFrom (Nat.iter (S n) (fun s => callFrom s floor d) st) floor d
            = callFrom st floor d).
    rewrite IHc. apply callFrom_twice.
Qed.

(** C10: [openDoors] called with the doors open returns at once, with no
    suspension, and [closeDoors] called with the doors closed does the
    same; either leaves the controller as it was, pending demand at the
    current floor included. *)
Theorem door_guards_are_noops st :
  (doorsOpen st = true →
     openDoors st = (st, []) ∧
     requests (openDoors st).1 = requests st ∧
     calls (openDoors st).1 = calls st) ∧
  (doorsOpen st = false → closeDoors st = (st, [])).
Proof.
  unfold openDoors, closeDoors. split; intros ->; done.
Qed.
(** ** Direction decision *)

Lemma length_pos_elem_of {A} (l : list A) :
  (0 < length l)%nat ↔ ∃ x, x ∈ l.
Proof.
  destruct l as [|x l]; cbn.
  - split; [lia |]. intros [x Hx]. by apply elem_of_nil in Hx.
  - split; [| lia]. intros _. exists x. by left.
Qed.

Lemma Math_min_spec l m :
  Math_min l = Some m → m ∈ l ∧ ∀ x, x ∈ l → m ≤ x.
Proof.
  destruct l as [|a l]; [done |]. cbn. intros [= <-].
  induction l as [|b l [IH1 IH2]]; cbn.
  - split; [by left |]. intros x Hx. apply elem_of_cons in Hx as [->|Hx]; [lia |].
    by apply elem_of_nil in Hx.
  - split.
    + destruct (Z.min_spec b (foldr Z.min a l)) as [[_ ->]|[_ ->]].
      * right. by left.
      * apply elem_of_cons in IH1 as [E|E]; [rewrite E; by left |].
        right. by right.
    + intros x Hx.
      assert (x = b ∨ x ∈ a :: l) as [->|Hx'].
      { apply elem_of_cons in Hx as [->|Hx]; [right; by left |].
        apply elem_of_cons in Hx as [->|Hx]; [by left |]. right. by right. }
      * lia.
      * specialize (IH2 x Hx'). lia.
Qed.

Lemma Math_max_spec l m :
  Math_max l = Some m → m ∈ l ∧ ∀ x, x ∈ l → x ≤ m.
Proof.
  destruct l as [|a l]; [done |]. cbn. intros [= <-].
  induction l as [|b l [IH1 IH2]]; cbn.
  - split; [by left |]. intros x Hx. apply elem_of_cons in Hx as [->|Hx]; [lia |].
    by apply elem_of_nil in Hx.
  - split.
    + destruct (Z.max_spec b (foldr Z.max a l)) as [[_ ->]|[_ ->]].
      * apply elem_of_cons in IH1 as [E|E]; [rewrite E; by left |].
        right. by right.
      * right. by left.
    + intros x Hx.
      assert (x = b ∨ x ∈ a :: l) as [->|Hx'].
      { apply elem_of_cons in Hx as [->|Hx]; [right; by left |].
        apply elem_of_cons in Hx as [->|Hx]; [by left |]. right. by right. }
      * lia.
      * specialize (IH2 x Hx'). lia.
Qed.

(** On a controller without empty direction sets, the floors collected by
    [_decideDirection] are the floors with outstanding demand. *)
Lemma elem_of_targets st f :
  calls_nonempty st → f ∈ targets st ↔ demand st f.
Proof.
  intros Hne. unfold targets, demand, hasCall.
  rewrite elem_of_union, elem_of_dom. split.
  - intros [Hr|[ds Hds]]; [by left | right].
    destruct (set_choose_L ds (Hne f ds Hds)) as [d Hd]. eauto.
  - intros [Hr|(d & ds & Hds & _)]; [by left | right]. by exists ds.
Qed.

Section decide_arrays.
Variable st : Elevator.

Lemma elem_of_above f :
  f ∈ above st ↔ currentFloor st < f ∧ f ∈ targets st.
Proof. unfold above, targetsArr. by rewrite list_elem_of_filter, elem_of_elements. Qed.

Lemma elem_of_below f :
  f ∈ below st ↔ f < currentFloor st ∧ f ∈ targets st.
Proof. unfold below, targetsArr. by rewrite list_elem_of_filter, elem_of_elements. Qed.

(** The first test of [_decideDirection] holds exactly when there is no
    target. *)
Lemma no_targets_test :
  bool_decide (size (requests st) = 0%nat)
  && bool_decide (size (calls st) = 0%nat) = true
  ↔ targets st = ∅.
Proof.
  rewrite andb_true_iff, !bool_decide_eq_true.
  rewrite size_zero_empty, map_size_empty_iff.
  unfold targets. rewrite empty_union_L, dom_empty_iff_L. done.
Qed.

(** [_decideDirection] as the case analysis on its two arrays. *)
Lemma decideDirection_cases :
  _decideDirection st =
  match direction st with
  | Up =>
      if bool_decide (0 < length (above st))%nat then Up
      else if bool_decide (0 < length (below st))%nat then Down else Idle
  | Down =>
      if bool_decide (0 < length (below st))%nat then Down
      else if bool_decide (0 < length (above st))%nat then Up else Idle
  | Idle =>
      match Math_min (above st), Math_max (below st) with
      | None, None => Idle
      | None, Some _ => Down
      | Some _, None => Up
      | Some mn, Some mx =>
          if Number_sub mn (currentFloor st) <=? Number_sub (currentFloor st) mx
          then Up else Down
      end
  end.
Proof.
  unfold _decideDirection.
  destruct (bool_decide (size (requests st) = 0%nat)
            && bool_decide (size (calls st) = 0%nat)) eqn:Hnone.
  - apply no_targets_test in Hnone.
    assert (above st = []) as ->.
    { apply elem_of_nil_inv. intros f [_ Hf]%elem_of_above.
      rewrite Hnone in Hf. by apply elem_of_empty in Hf. }
    assert (below st = []) as ->.
    { apply elem_of_nil_inv. intros f [_ Hf]%elem_of_below.
      rewrite Hnone in Hf. by apply elem_of_empty in Hf. }
    by destruct (direction st).
  - destruct (direction st); [done | done |].
    destruct (above st) as [|a la], (below st) as [|b lb]; done.
Qed.
End decide_arrays.

Section decide_demand.
Variable st : Elevator.
Hypothesis Hne : calls_nonempty st.

Lemma demand_above_iff : demand_above st ↔ (0 < length (above st))%nat.
Proof.
  rewrite length_pos_elem_of. unfold demand_above.
  split; intros [f Hf]; exists f.
  - apply elem_of_above. rewrite elem_of_targets by done. tauto.
  - apply elem_of_above in Hf. rewrite elem_of_targets in Hf by done. tauto.
Qed.

Lemma demand_below_iff : demand_below st ↔ (0 < length (below st))%nat.
Proof.
  rewrite length_pos_elem_of. unfold demand_below.
  split; intros [f Hf]; exists f.
  - apply elem_of_below. rewrite elem_of_targets by done. tauto.
  - apply elem_of_below in Hf. rewrite elem_of_targets in Hf by done. tauto.
Qed.

Lemma Math_min_above_None : Math_min (above st) = None ↔ ¬ demand_above st.
Proof.
  rewrite demand_above_iff. destruct (above st); cbn; [| split; [done | lia]].
  split; [lia | done].
Qed.

Lemma Math_max_below_None : Math_max (below st) = None ↔ ¬ demand_below st.
Proof.
  rewrite demand_below_iff. destruct (below st); cbn; [| split; [done | lia]].
  split; [lia | done].
Qed.

Lemma nearest_above_min mn :
  Math_min (above st) = Some mn → ∀ n, nearest_above st n ↔ n = mn - currentFloor st.
Proof.
  intros [Hin Hle]%Math_min_spec n.
  apply elem_of_above in Hin as [Hgt Hin].
  rewrite elem_of_targets in Hin by done.
  split.
  - intros (Hpos & Hd & Hmin).
    assert (mn ≤ currentFloor st + n).
    { apply Hle, elem_of_above. rewrite elem_of_targets by done.
      split; [lia | done]. }
    specialize (Hmin mn Hin Hgt). lia.
  - intros ->. split; [lia |]. split.
    + by replace (currentFloor st + (mn - currentFloor st)) with mn by lia.
    + intros f Hf Hlt.
      assert (mn ≤ f); [| lia].
      apply Hle, elem_of_above. rewrite elem_of_targets by done. done.
Qed.

Lemma nearest_below_max mx :
  Math_max (below st) = Some mx → ∀ n, nearest_below st n ↔ n = currentFloor st - mx.
Proof.
  intros [Hin Hle]%Math_max_spec n.
  apply elem_of_below in Hin as [Hgt Hin].
  rewrite elem_of_targets in Hin by done.
  split.
  - intros (Hpos & Hd & Hmin).
    assert (currentFloor st - n ≤ mx).
    { apply Hle, elem_of_below. rewrite elem_of_targets by done.
      split; [lia | done]. }
    specialize (Hmin mx Hin Hgt). lia.
  - intros ->. split; [lia |]. split.
    + by replace (currentFloor st - (currentFloor st - mx)) with mx by lia.
    + intros f Hf Hlt.
      assert (f ≤ mx); [| lia].
      apply Hle, elem_of_below. rewrite elem_of_targets by done. done.
Qed.
End decide_demand.

Lemma nearest_above_exists st :
  calls_nonempty st → demand_above st → ∃ n, nearest_above st n.
Proof.
  intros Hne Ha.
  destruct (Math_min (above st))
    as [mn|] eqn:E.
  - exists (mn - currentFloor st). by apply (nearest_above_min st Hne mn E).
  - by apply Math_min_above_None in E.
Qed.

Lemma nearest_below_exists st :
  calls_nonempty st → demand_below st → ∃ n, nearest_below st n.
Proof.
  intros Hne Ha.
  destruct (Math_max (below st))
    as [mx|] eqn:E.
  - exists (currentFloor st - mx). by apply (nearest_below_max st Hne mx E).
  - by apply Math_max_below_None in E.
Qed.


Lemma nearest_above_demand st n : nearest_above st n → demand_above st.
Proof. intros (Hpos & Hd & _). eexists. split; [done | lia]. Qed.

Lemma nearest_below_demand st n : nearest_below st n → demand_below st.
Proof. intros (Hpos & Hd & _). eexists. split; [done | lia]. Qed.

Lemma above_dichotomy st :
  calls_nonempty st →
  (¬ demand_above st ∧ Math_min (above st) = None
   ∧ bool_decide (0 < length (above st))%nat = false) ∨
  (demand_above st ∧ bool_decide (0 < length (above st))%nat = true ∧
   ∃ mn, Math_min (above st) = Some mn ∧
         ∀ n, nearest_above st n ↔ n = mn - currentFloor st).
Proof.
  intros Hne.
  destruct (Math_min (above st)) as [mn|] eqn:E.
  - right.
    assert (demand_above st) as Ha.
    { destruct (nearest_above_min st Hne mn E (mn - currentFloor st))
        as [_ (Hpos & Hd & _)]; [done |].
      eexists. split; [done | lia]. }
    split; [done |]. split.
    + apply bool_decide_eq_true_2. by apply (demand_above_iff st Hne).
    + exists mn. split; [done |]. by apply nearest_above_min.
  - left.
    assert (¬ demand_above st) as Ha by by apply Math_min_above_None.
    split; [done |]. split; [done |].
    apply bool_decide_eq_false_2. intros H. by apply Ha, (demand_above_iff st Hne).
Qed.

Lemma below_dichotomy st :
  calls_nonempty st →
  (¬ demand_below st ∧ Math_max (below st) = None
   ∧ bool_decide (0 < length (below st))%nat = false) ∨
  (demand_below st ∧ bool_decide (0 < length (below st))%nat = true ∧
   ∃ mx, Math_max (below st) = Some mx ∧
         ∀ n, nearest_below st n ↔ n = currentFloor st - mx).
Proof.
  intros Hne.
  destruct (Math_max (below st)) as [mx|] eqn:E.
  - right.
    assert (demand_below st) as Ha.
    { destruct (nearest_below_max st Hne mx E (currentFloor st - mx))
        as [_ (Hpos & Hd & _)]; [done |].
      eexists. split; [done | lia]. }
    split; [done |]. split.
    + apply bool_decide_eq_true_2. by apply (demand_below_iff st Hne).
    + exists mx. split; [done |]. by apply nearest_below_max.
  - left.
    assert (¬ demand_below st) as Ha by by apply Math_max_below_None.
    split; [done |]. split; [done |].
    apply bool_decide_eq_false_2. intros H. by apply Ha, (demand_below_iff st Hne).
Qed.

Lemma targets_in_range st f :
  floors_in_range st → f ∈ targets st → in_range st f.
Proof.
  intros (_ & Hrq & Hcl) [Hf|Hf]%elem_of_union; [by apply Hrq | by apply Hcl].
Qed.

(** C1: on a controller without empty direction sets (every reachable
    one) whose floors are within bounds that are safe integers at most
    2^53 apart (between such floors the distances the code computes are
    exact), [_decideDirection] follows the four rules.  With no demand
    at all the answer is Idle.  Heading Up: Up when some demand floor is
    strictly above the current floor, else Down when some is strictly
    below, else Idle.  Heading Down: the same with the sides exchanged.
    Idle: the side whose closest demand floor is fewer floors away, Up
    when the two distances are equal, the only side with demand when
    there is one, else Idle.  A side with demand has a closest demand
    floor. *)
Theorem decideDirection_rules st :
  calls_nonempty st → floors_in_range st → safe_range st →
  let r := _decideDirection st in
  ((¬ ∃ f, demand st f) → r = Idle) ∧
  (direction st = Up →
     (demand_above st → r = Up) ∧
     (¬ demand_above st → demand_below st → r = Down) ∧
     (¬ demand_above st → ¬ demand_below st → r = Idle)) ∧
  (direction st = Down →
     (demand_below st → r = Down) ∧
     (¬ demand_below st → demand_above st → r = Up) ∧
     (¬ demand_below st → ¬ demand_above st → r = Idle)) ∧
  (direction st = Idle →
     (∀ na nb, nearest_above st na → nearest_below st nb →
        (na < nb → r = Up) ∧ (na = nb → r = Up) ∧ (nb < na → r = Down)) ∧
     (demand_above st → ¬ demand_below st → r = Up) ∧
     (¬ demand_above st → demand_below st → r = Down) ∧
     (¬ demand_above st → ¬ demand_below st → r = Idle)) ∧
  (demand_above st → ∃ na, nearest_above st na) ∧
  (demand_below st → ∃ nb, nearest_below st nb).
Proof.
  intros Hne Hok Hsafe r. subst r. rewrite decideDirection_cases.
  assert (¬ (∃ f, demand st f) → ¬ demand_above st ∧ ¬ demand_below st) as Hnone.
  { intros Hno. split; intros (f & Hf & _); apply Hno; by exists f. }
  assert (∀ mn mx, Math_min (above st) = Some mn →
                   Math_max (below st) = Some mx →
                   Number_sub mn (currentFloor st) = mn - currentFloor st ∧
                   Number_sub (currentFloor st) mx = currentFloor st - mx)
    as Hexact.
  { intros mn mx [Hmn _]%Math_min_spec [Hmx _]%Math_max_spec.
    apply elem_of_above in Hmn as [_ Hmn]. apply elem_of_below in Hmx as [_ Hmx].
    pose proof (targets_in_range st mn Hok Hmn).
    pose proof (targets_in_range st mx Hok Hmx).
    destruct Hok as (Hcur & _).
    split; by apply (safe_distance st). }
  split_and!; [| | | | by apply nearest_above_exists
                     | by apply nearest_below_exists];
    destruct (above_dichotomy st Hne) as
      [(Ha & Emn & ->)|(Ha & -> & mn & Emn & Hna)];
    destruct (below_dichotomy st Hne) as
      [(Hb & Emx & ->)|(Hb & -> & mx & Emx & Hnb)];
    try (destruct (Hexact mn mx Emn Emx) as [Ea Eb]);
    rewrite Emn, Emx; try rewrite Ea, Eb; clear Hexact;
    try (intros ->); try (intros [? ?]%Hnone); try done;
    try (destruct (direction st); done);
    split_and!; try done.
  1-3: intros na nb Hxa%nearest_above_demand Hxb%nearest_below_demand; done.
  intros na nb ->%Hna ->%Hnb.
  destruct (Z.leb_spec (mn - currentFloor st) (currentFloor st - mx));
    split_and!; intros; (done || lia).
Qed.
(** ** Door cycle: what a stop fulfils *)

Lemma fulfil_request_eq st :
  fulfil_request st = set_requests (requests st ∖ {[currentFloor st]}) st.
Proof.
  unfold fulfil_request. case_bool_decide as Hin; [done |].
  destruct st as [lo hi cur d o rq cl t1 t2 t3 r]; unfold set_requests; cbn in *.
  f_equal. apply set_eq. intros y.
  rewrite elem_of_difference, elem_of_singleton.
  split; [| tauto]. intros Hy. split; [done |]. by intros ->.
Qed.

Lemma fulfil_calls_eq st :
  fulfil_calls st =
  match calls st !! currentFloor st with
  | None => st
  | Some ds =>
      if decide (ds = ∅) then st
      else if decide (direction st = Idle)
           then set_calls (delete (currentFloor st) (calls st)) st
      else if decide (ds ∖ {[direction st]} = ∅)
           then set_calls (delete (currentFloor st) (calls st)) st
      else set_calls (<[currentFloor st := ds ∖ {[direction st]}]> (calls st)) st
  end.
Proof.
  unfold fulfil_calls.
  destruct (calls st !! currentFloor st) as [ds|]; [| done].
  case_bool_decide as Hsz.
  - apply size_pos_nonempty in Hsz. rewrite decide_False by done.
    case_bool_decide as Hidle.
    + by rewrite decide_True.
    + rewrite decide_False by done. cbv zeta.
      rewrite difference_singleton_if.
      case_bool_decide as He.
      * apply size_zero_empty in He. rewrite decide_True by done.
        by rewrite delete_insert_eq.
      * rewrite decide_False; [done |]. by rewrite <- size_zero_empty.
  - rewrite decide_True; [done |].
    destruct (decide (ds = ∅)) as [|Hne]; [done |].
    by apply size_pos_nonempty in Hne.
Qed.

(** The call map a stop leaves on a controller without empty direction
    sets. *)
Lemma fulfil_calls_nonempty st :
  calls_nonempty st →
  fulfil_calls st = set_calls (calls_after_stop st) st.
Proof.
  intros Hne. rewrite fulfil_calls_eq. unfold calls_after_stop.
  destruct (calls st !! currentFloor st) as [ds|] eqn:E.
  - rewrite decide_False by by apply (Hne _ _ E).
    repeat case_decide; done.
  - by destruct st.
Qed.

Lemma calls_after_stop_nonempty st :
  calls_nonempty st → calls_nonempty (set_calls (calls_after_stop st) st).
Proof.
  intros Hne g ds. unfold calls_after_stop; cbn.
  destruct (calls st !! currentFloor st) as [ds0|] eqn:E; [| apply Hne].
  repeat case_decide.
  - intros [_ Hl]%lookup_delete_Some. by apply (Hne g).
  - intros [_ Hl]%lookup_delete_Some. by apply (Hne g).
  - intros [[_ <-]|[_ Hl]]%lookup_insert_Some; [done |]. by apply (Hne g).
Qed.

Lemma hasCall_after_stop st g e :
  direction st ≠ Idle →
  hasCall (set_calls (calls_after_stop st) st) g e
  ↔ hasCall st g e ∧ ¬ (g = currentFloor st ∧ e = direction st).
Proof.
  intros Hmove. unfold hasCall, calls_after_stop; cbn.
  destruct (calls st !! currentFloor st) as [ds0|] eqn:E.
  - rewrite decide_False by done.
    destruct (decide (g = currentFloor st)) as [->|Hg].
    + rewrite E. case_decide as Hemp.
      * rewrite lookup_delete_eq. split.
        { by intros (ds & ? & _). }
        intros [(ds & [= <-] & He) Hnot]. exfalso.
        assert (e ∈ ds0 ∖ {[direction st]}) as Hin.
        { apply elem_of_difference. split; [done |].
          rewrite elem_of_singleton. intros ->. by apply Hnot. }
        rewrite Hemp in Hin. by apply elem_of_empty in Hin.
      * rewrite lookup_insert_eq. split.
        { intros (ds & [= <-] & [He Hd]%elem_of_difference).
          split; [by exists ds0 |]. intros [_ ->]. apply Hd. by apply elem_of_singleton. }
        intros [(ds & [= <-] & He) Hnot]. eexists. split; [done |].
        apply elem_of_difference. split; [done |].
        rewrite elem_of_singleton. intros ->. by apply Hnot.
    + case_decide.
      * rewrite lookup_delete_ne by done. split; [| tauto].
        intros H'. split; [done |]. by intros [-> _].
      * rewrite lookup_insert_ne by done. split; [| tauto].
        intros H'. split; [done |]. by intros [-> _].
  - split; [| tauto]. intros (ds & Hds & He). split; [by exists ds |].
    intros [-> _]. by rewrite E in Hds.
Qed.

Lemma openDoors_fulfil_doorsOpen st : doorsOpen (openDoors_fulfil st) = true.
Proof.
  unfold openDoors_fulfil. rewrite fulfil_request_eq, fulfil_calls_eq. cbn.
  repeat case_match; done.
Qed.

Lemma openDoors_opened_state st :
  (openDoors_opened st).1 = openDoors_fulfil st.
Proof.
  unfold openDoors_opened, openDoors_close, closeDoors, awaited.
  repeat case_match; done.
Qed.

(** The suspension the completed opening leaves: the dwell when there is
    a dwell time, else the closing of the doors. *)
Lemma openDoors_opened_frames st :
  (openDoors_opened st).2
  = if 0 <? doorDwellMs st then [DwellSleep] else [CloseSleep; OpenAwaitClose].
Proof.
  unfold openDoors_opened. cbv zeta.
  assert (doorDwellMs (openDoors_fulfil st) = doorDwellMs st) as ->.
  { unfold openDoors_fulfil. rewrite fulfil_request_eq, fulfil_calls_eq. cbn.
    repeat case_match; done. }
  destruct (0 <? doorDwellMs st); [done |].
  unfold openDoors_close, closeDoors, awaited.
  by rewrite openDoors_fulfil_doorsOpen.
Qed.

(** C2: the resumption of [openDoors] after the opening time, that is
    the completion of the opening of the doors at floor [f].  A panel
    request for [f] is removed; with the car Idle the whole entry of [f]
    leaves the call map; with the car heading Up or Down only the call
    [(f, direction)] is removed, every other pending call (the one at [f]
    for the opposite direction included) stays, and the entry of [f] is
    deleted exactly when its direction set has become empty.  Nothing
    else changes but [doorsOpen], now true, and [openDoors] goes on to
    the dwell or to the closing of the doors. *)
Theorem door_open_fulfilment st :
  calls_nonempty st →
  let f := currentFloor st in
  let r := resume_frame st OpenSleep in
  let st' := r.1 in
  st' = set_calls (calls st') (set_requests (requests st') (set_doorsOpen true st)) ∧
  requests st' = requests st ∖ {[f]} ∧
  (direction st = Idle → calls st' = delete f (calls st)) ∧
  (direction st ≠ Idle →
     (∀ g e, hasCall st' g e ↔ hasCall st g e ∧ ¬ (g = f ∧ e = direction st)) ∧
     (∀ g, g ≠ f → calls st' !! g = calls st !! g) ∧
     (∀ ds, calls st !! f = Some ds →
        calls st' !! f =
        if decide (ds ∖ {[direction st]} = ∅) then None
        else Some (ds ∖ {[direction st]}))) ∧
  calls_nonempty st' ∧
  r.2 = (if 0 <? doorDwellMs st then [DwellSleep]
         else [CloseSleep; OpenAwaitClose]).
Proof.
  intros Hne f r st'. subst f st' r. cbn [resume_frame].
  rewrite openDoors_opened_frames, openDoors_opened_state.
  unfold openDoors_fulfil.
  rewrite fulfil_request_eq.
  set (st1 := set_requests _ _).
  assert (calls_nonempty st1) as Hne1 by done.
  rewrite (fulfil_calls_nonempty st1 Hne1).
  split_and!.
  - done.
  - done.
  - intros Hidle. cbn. unfold calls_after_stop. cbn. fold (currentFloor st).
    destruct (calls st !! currentFloor st) as [ds|] eqn:E.
    + by rewrite decide_True.
    + by rewrite delete_id.
  - intros Hmove. split_and!.
    + intros g e. by rewrite (hasCall_after_stop st1 g e Hmove).
    + intros g Hg. cbn. unfold calls_after_stop. cbn.
      destruct (calls st !! currentFloor st) as [ds|] eqn:E; [| done].
      rewrite decide_False by done. case_decide.
      * by rewrite lookup_delete_ne.
      * by rewrite lookup_insert_ne.
    + intros ds E. cbn. unfold calls_after_stop. cbn. rewrite E.
      rewrite decide_False by done. case_decide.
      * by rewrite lookup_delete_eq.
      * by rewrite lookup_insert_eq.
  - by apply (calls_after_stop_nonempty st1).
  - done.
Qed.
(** ** Movement and the control loop, step by step *)

Lemma moveOneFloor_refuses st :
  doorsOpen st = true → _moveOneFloor st = (st, []).
Proof. unfold _moveOneFloor. by intros ->. Qed.

Lemma moveOneFloor_hop st t :
  doorsOpen st = false →
  (direction st = Up ∧ t = Number_add (currentFloor st) 1) ∨
  (direction st = Down ∧ t = Number_sub (currentFloor st) 1) →
  in_range st t →
  _moveOneFloor st = (st, [TravelSleep t]).
Proof.
  intros Hclosed Hdir Ht. unfold _moveOneFloor. rewrite Hclosed.
  assert (_validFloor st (JsInt t) = true) as Hv.
  { apply validFloor_spec. by exists t. }
  destruct Hdir as [[-> ->]|[-> ->]].
  - rewrite bool_decide_eq_false_2 by done.
    rewrite bool_decide_eq_true_2 by done. by rewrite Hv.
  - rewrite !bool_decide_eq_false_2 by done. by rewrite Hv.
Qed.

Lemma moveOneFloor_boundary st :
  doorsOpen st = false →
  (direction st = Up ∧ maxFloor st < Number_add (currentFloor st) 1) ∨
  (direction st = Down ∧ Number_sub (currentFloor st) 1 < minFloor st) →
  _moveOneFloor st = (set_direction Idle st, []).
Proof.
  intros Hclosed Hdir. unfold _moveOneFloor. rewrite Hclosed.
  destruct Hdir as [[-> Ht]|[-> Ht]].
  - rewrite bool_decide_eq_false_2 by done.
    rewrite bool_decide_eq_true_2 by done.
    assert (_validFloor st (JsInt (Number_add (currentFloor st) 1)) = false)
      as ->; [| done].
    cbn. apply andb_false_iff. right. lia.
  - rewrite !bool_decide_eq_false_2 by done.
    assert (_validFloor st (JsInt (Number_sub (currentFloor st) 1)) = false)
      as ->; [| done].
    cbn. apply andb_false_iff. left. lia.
Qed.

(** The same with the car at a floor of a safe range: the target is the
    adjacent floor. *)
Lemma moveOneFloor_hop_safe st t :
  safe_range st → in_range st (currentFloor st) →
  doorsOpen st = false →
  (direction st = Up ∧ t = currentFloor st + 1) ∨
  (direction st = Down ∧ t = currentFloor st - 1) →
  in_range st t →
  _moveOneFloor st = (st, [TravelSleep t]).
Proof.
  intros Hsafe Hcur Hclosed Hdir Ht.
  destruct (safe_next st (currentFloor st) Hsafe Hcur) as [Ea Es].
  apply moveOneFloor_hop; [done | | done]. by rewrite Ea, Es.
Qed.

Lemma moveOneFloor_boundary_safe st :
  safe_range st → in_range st (currentFloor st) →
  doorsOpen st = false →
  (direction st = Up ∧ maxFloor st < currentFloor st + 1) ∨
  (direction st = Down ∧ currentFloor st - 1 < minFloor st) →
  _moveOneFloor st = (set_direction Idle st, []).
Proof.
  intros Hsafe Hcur Hclosed Hdir.
  destruct (safe_next st (currentFloor st) Hsafe Hcur) as [Ea Es].
  apply moveOneFloor_boundary; [done |]. by rewrite Ea, Es.
Qed.

(** Beyond the exact range a hop need not reach the adjacent floor: at
    floor 2^53 heading Up, with floors up to 2^53 + 2, the target the
    code computes is 2^53 itself, a valid floor, and the hop is made. *)
Lemma moveOneFloor_beyond_exact_range :
  let st := mkElevator exact_bound (exact_bound + 2) exact_bound Up false
              {[exact_bound + 2]} ∅ 400 700 0 true in
  _moveOneFloor st = (st, [TravelSleep exact_bound]).
Proof. by vm_compute. Qed.

(** The frames [_moveOneFloor] may leave, and what it may change. *)
Lemma moveOneFloor_cases st :
  _moveOneFloor st = (st, []) ∨
  _moveOneFloor st = (set_direction Idle st, []) ∨
  ∃ t, _moveOneFloor st = (st, [TravelSleep t]) ∧
       doorsOpen st = false ∧ in_range st t.
Proof.
  unfold _moveOneFloor.
  destruct (doorsOpen st); [by left |].
  case_bool_decide; [by left |].
  destruct (_validFloor st (JsInt _)) eqn:Hv; cbn.
  - right. right. eexists. split; [done |]. split; [done |].
    apply validFloor_spec in Hv as (f & [= <-] & Hf). done.
  - right. by left.
Qed.

Lemma arrive_stops st t :
  doorsOpen st = false →
  t ∈ requests st ∨ hasCall st t (direction st) →
  _moveOneFloor_arrive st t
  = (set_currentFloor t st, [OpenSleep; MoveAwaitOpen]).
Proof.
  intros Hclosed Hwhy. unfold _moveOneFloor_arrive. cbn.
  assert (bool_decide (t ∈ requests st)
          || match calls st !! t with
             | Some callsHere => bool_decide (direction st ∈ callsHere)
             | None => false
             end = true) as ->.
  { apply orb_true_iff. destruct Hwhy as [Hr|(ds & -> & Hd)].
    - left. by apply bool_decide_eq_true_2.
    - right. by apply bool_decide_eq_true_2. }
  unfold openDoors, awaited. cbn. by rewrite Hclosed.
Qed.

Lemma arrive_passes st t :
  t ∉ requests st → ¬ hasCall st t (direction st) →
  _moveOneFloor_arrive st t = (set_currentFloor t st, []).
Proof.
  intros Hr Hc. unfold _moveOneFloor_arrive. cbn.
  rewrite bool_decide_eq_false_2 by done. cbn.
  destruct (calls st !! t) as [ds|] eqn:E; [| done].
  rewrite bool_decide_eq_false_2; [done |].
  intros Hd. apply Hc. by exists ds.
Qed.

Lemma start_loop_stopped st :
  _running st = false → start_loop st = (st, []).
Proof. unfold start_loop. by intros ->. Qed.

Lemma start_loop_idle st :
  _running st = true → _decideDirection st = Idle →
  start_loop st = (set_direction Idle st, [IdleSleep]).
Proof. unfold start_loop. by intros -> ->. Qed.

Lemma start_loop_moves st d :
  _running st = true → _decideDirection st = d → d ≠ Idle →
  doorsOpen st = false →
  start_loop st = start_move (set_direction d st).
Proof.
  unfold start_loop. intros -> -> Hd Hclosed. cbn.
  rewrite bool_decide_eq_false_2 by done. by rewrite Hclosed.
Qed.

Lemma start_loop_closes st d :
  _running st = true → _decideDirection st = d → d ≠ Idle →
  doorsOpen st = true →
  start_loop st = (set_direction d st, [CloseSleep; StartAwaitClose]).
Proof.
  unfold start_loop. intros -> -> Hd Hopen. cbn.
  rewrite bool_decide_eq_false_2 by done. rewrite Hopen.
  unfold closeDoors, awaited. cbn. by rewrite Hopen.
Qed.

(** ** The control loop with demand at the car's own floor *)

Lemma decideDirection_own_floor st :
  (∀ f, f ∈ targets st → f = currentFloor st) → _decideDirection st = Idle.
Proof.
  intros Hown. rewrite decideDirection_cases.
  assert (above st = []) as ->.
  { apply elem_of_nil_inv. intros f [Hlt Hf]%elem_of_above.
    apply Hown in Hf. lia. }
  assert (below st = []) as ->.
  { apply elem_of_nil_inv. intros f [Hlt Hf]%elem_of_below.
    apply Hown in Hf. lia. }
  by destruct (direction st).
Qed.

Lemma start_loop_own_floor st :
  (∀ f, f ∈ targets st → f = currentFloor st) →
  start_loop st =
  if _running st then (set_direction Idle st, [IdleSleep]) else (st, []).
Proof.
  intros Hown. unfold start_loop.
  destruct (_running st); [| done]. cbn.
  by rewrite decideDirection_own_floor.
Qed.

Lemma run_own_floor n st k :
  (∀ f, f ∈ targets st → f = currentFloor st) →
  k = [] ∨ k = [IdleSleep] →
  let r := run n st k in
  requests r.1 = requests st ∧ calls r.1 = calls st ∧
  currentFloor r.1 = currentFloor st ∧ doorsOpen r.1 = doorsOpen st ∧
  (r.2 = [] ∨ r.2 = [IdleSleep]).
Proof.
  revert st k. induction n as [|n IH]; intros st k Hown Hk; cbn.
  { done. }
  destruct Hk as [->| ->]; cbn.
  - by apply IH; [| left].
  - rewrite start_loop_own_floor by done.
    destruct (_running st); cbn.
    + by apply (IH (set_direction Idle st)); [| right].
    + by apply IH; [| left].
Qed.

(** C9: when every floor with demand (panel requests and floors of the
    call map) is the current floor, [_decideDirection] answers Idle
    whatever the direction was, and the loop then only sleeps: after any
    number of resumptions of the loop from its decision point the panel
    requests and the hall calls are what they were, the car has not moved
    and the doors have not been operated. *)
Theorem own_floor_demand_is_never_served st :
  (∀ f, f ∈ targets st → f = currentFloor st) →
  _decideDirection st = Idle ∧
  ∀ n, let r := run n (start_loop st).1 (start_loop st).2 in
       requests r.1 = requests st ∧ calls r.1 = calls st ∧
       currentFloor r.1 = currentFloor st ∧ doorsOpen r.1 = doorsOpen st ∧
       (r.2 = [] ∨ r.2 = [IdleSleep]).
Proof.
  intros Hown. split; [by apply decideDirection_own_floor |].
  intros n. rewrite start_loop_own_floor by done.
  destruct (_running st); cbn [fst snd].
  - by apply (run_own_floor n (set_direction Idle st)); [| right].
  - by apply run_own_floor; [| left].
Qed.

Lemma own_floor_demand_is_never_served_witness :
  targets waiting_at_2 = {[2]} ∧
  _decideDirection waiting_at_2 = Idle ∧
  hasCall (run 7 (start_loop waiting_at_2).1 (start_loop waiting_at_2).2).1 2 Down.
Proof.
  assert (targets waiting_at_2 = {[2]}) as Ht by (vm_compute; reflexivity).
  split; [done |].
  destruct (own_floor_demand_is_never_served waiting_at_2) as [Hidle Hloop].
  { intros f. rewrite Ht. cbn. by intros ->%elem_of_singleton. }
  split; [done |].
  destruct (Hloop 7%nat) as (_ & Hcalls & _).
  unfold hasCall. rewrite Hcalls. exists {[Down]}.
  split; [reflexivity |]. by apply elem_of_singleton.
Defined.

(** ** Two hall calls at floor 2, car idle at floor 1 *)

(** C3, as the code has it: with the car idle at floor 1 and
    [callFrom(2, "up")] and [callFrom(2, "down")] registered before the
    loop decides, the loop chooses Up and starts the hop to floor 2; on
    arrival it opens the doors for the call (2, up); when the doors are
    open the call (2, up) is fulfilled and the call (2, down) is still
    pending, since the direction is Up and not Idle at that moment. *)
Theorem two_calls_at_floor_2 st :
  currentFloor st = 1 → direction st = Idle → doorsOpen st = false →
  requests st = ∅ → calls st = ∅ → _running st = true →
  minFloor st ≤ 1 → 3 ≤ maxFloor st →
  let st0 := callFrom (callFrom st (JsInt 2) (JsString "up"))
                      (JsInt 2) (JsString "down") in
  let r1 := start_loop st0 in
  let r2 := resume r1.1 r1.2 in
  let r3 := resume r2.1 r2.2 in
  (hasCall st0 2 Up ∧ hasCall st0 2 Down) ∧
  (direction r1.1 = Up ∧ r1.2 = [TravelSleep 2; StartAwaitMove]) ∧
  (currentFloor r2.1 = 2 ∧ direction r2.1 = Up ∧
   r2.2 = [OpenSleep; MoveAwaitOpen; StartAwaitMove]) ∧
  (doorsOpen r3.1 = true ∧ currentFloor r3.1 = 2 ∧
   ¬ hasCall r3.1 2 Up ∧ hasCall r3.1 2 Down ∧
   calls r3.1 = {[2 := {[Down]}]}).
Proof.
  destruct st as [lo hi cur d o rq cl t1 t2 t3 r].
  cbn [currentFloor direction doorsOpen requests calls _running minFloor maxFloor].
  intros -> -> -> -> -> -> Hlo Hhi.
  set (both := {[2 := {[Up; Down]}]} : gmap Z (gset Direction)).
  set (S := fun f d o c => mkElevator lo hi f d o ∅ c t1 t2 t3 true).
  assert (callFrom (callFrom (S 1 Idle false ∅) (JsInt 2) (JsString "up"))
            (JsInt 2) (JsString "down") = S 1 Idle false both) as E0.
  { rewrite (callFrom_accepted _ 2 (JsString "up"));
      [| unfold in_range; cbn; lia | cbn; lia | by intros [_ [=]] ].
    rewrite (callFrom_accepted _ 2 (JsString "down"));
      [| unfold in_range; cbn; lia | by intros [_ [=]] | cbn; lia].
    unfold set_calls, S; cbn. f_equal. }
  assert (start_loop (S 1 Idle false both)
          = (S 1 Up false both, [TravelSleep 2; StartAwaitMove])) as E1.
  { rewrite (start_loop_moves _ Up); [| done | by vm_compute | done | done].
    unfold start_move.
    rewrite (moveOneFloor_hop _ 2); [done | done | by left |].
    unfold in_range; cbn; lia. }
  assert (resume (S 1 Up false both) [TravelSleep 2; StartAwaitMove]
          = (S 2 Up false both, [OpenSleep; MoveAwaitOpen; StartAwaitMove])) as E2.
  { cbn [resume resume_frame].
    rewrite arrive_stops; [done | done |].
    right. exists {[Up; Down]}. split; [done |]. cbn.
    apply elem_of_union. left. by apply elem_of_singleton. }
  assert (calls (openDoors_fulfil (S 2 Up false both)) = {[2 := {[Down]}]}) as E3.
  { by vm_compute. }
  change (mkElevator lo hi 1 Idle false ∅ ∅ t1 t2 t3 true) with (S 1 Idle false ∅).
  cbv zeta. rewrite E0, E1. cbn [fst snd]. rewrite E2.
  cbn [fst snd resume resume_frame].
  rewrite openDoors_opened_state.
  split_and!.
  - exists {[Up; Down]}. split; [done |].
    apply elem_of_union. left. by apply elem_of_singleton.
  - exists {[Up; Down]}. split; [done |].
    apply elem_of_union. right. by apply elem_of_singleton.
  - done.
  - done.
  - done.
  - done.
  - done.
  - apply openDoors_fulfil_doorsOpen.
  - by vm_compute.
  - unfold hasCall. rewrite E3. rewrite lookup_singleton_eq.
    intros (ds & [= <-] & Hin). by apply elem_of_singleton in Hin.
  - unfold hasCall. rewrite E3. rewrite lookup_singleton_eq.
    eexists. split; [done |]. by apply elem_of_singleton.
  - done.
Qed.

Lemma two_calls_at_floor_2_witness :
  let st0 := callFrom (callFrom idle_at_1 (JsInt 2) (JsString "up"))
                      (JsInt 2) (JsString "down") in
  let r1 := start_loop st0 in
  let r2 := resume r1.1 r1.2 in
  let r3 := resume r2.1 r2.2 in
  doorsOpen r3.1 = true ∧ currentFloor r3.1 = 2 ∧
  ¬ hasCall r3.1 2 Up ∧ hasCall r3.1 2 Down ∧
  calls r3.1 = {[2 := {[Down]}]}.
Proof.
  apply (two_calls_at_floor_2 idle_at_1);
    [reflexivity | reflexivity | reflexivity | reflexivity | reflexivity
    | reflexivity | vm_compute; discriminate | vm_compute; discriminate].
Defined.

(** The scenario on floors 1 to 5, event by event: the doors are open at
    floor 2 and it is not the case that both hall calls have been
    cleared; when the loop is back to its idle sleep, the call (2, down)
    is still pending. *)
Lemma two_calls_not_both_cleared :
  (currentFloor (elevator two_calls_run) = 2 ∧
   doorsOpen (elevator two_calls_run) = true ∧
   ¬ (¬ hasCall (elevator two_calls_run) 2 Up ∧
      ¬ hasCall (elevator two_calls_run) 2 Down)) ∧
  (tasks two_calls_run_end = [[IdleSleep]] ∧
   direction (elevator two_calls_run_end) = Idle ∧
   hasCall (elevator two_calls_run_end) 2 Down).
Proof.
  assert (calls (elevator two_calls_run) = {[2 := {[Down]}]}) as E1
    by (vm_compute; reflexivity).
  assert (calls (elevator two_calls_run_end) = {[2 := {[Down]}]}) as E2
    by (vm_compute; reflexivity).
  assert (∀ st, calls st = {[2 := {[Down]}]} → hasCall st 2 Down) as Hdown.
  { intros st E. exists {[Down]}. rewrite E.
    split; [reflexivity |]. by apply elem_of_singleton. }
  split.
  - split; [by vm_compute |]. split; [by vm_compute |].
    intros [_ Hno]. apply Hno. by apply Hdown.
  - split; [by vm_compute |]. split; [by vm_compute |]. by apply Hdown.
Qed.
(** ** What the loop can do to the controller *)

Lemma shrinks_refl st : shrinks st st.
Proof. unfold shrinks. split_and!; done. Qed.

Lemma shrinks_trans st1 st2 st3 :
  shrinks st1 st2 → shrinks st2 st3 → shrinks st1 st3.
Proof.
  intros (A1 & A2 & A3 & A4 & A5 & A6) (B1 & B2 & B3 & B4 & B5 & B6).
  unfold shrinks. split_and!; [congruence | congruence | | | auto | auto].
  - by transitivity (requests st2).
  - by transitivity (dom (calls st2)).
Qed.

Lemma shrinks_set_direction d st : shrinks st (set_direction d st).
Proof. unfold shrinks; cbn; split_and!; done. Qed.

Lemma shrinks_set_doorsOpen b st : shrinks st (set_doorsOpen b st).
Proof. unfold shrinks; cbn; split_and!; done. Qed.

Lemma shrinks_set_running b st : shrinks st (set_running b st).
Proof. unfold shrinks; cbn; split_and!; done. Qed.

Lemma shrinks_set_currentFloor t st : shrinks st (set_currentFloor t st).
Proof. unfold shrinks; cbn; split_and!; done. Qed.

Lemma shrinks_fulfil_request st : shrinks st (fulfil_request st).
Proof.
  rewrite fulfil_request_eq. unfold shrinks; cbn.
  split_and!; [done | done | | done | done | done].
  intros x [Hx _]%elem_of_difference. done.
Qed.

Lemma shrinks_fulfil_calls st : shrinks st (fulfil_calls st).
Proof.
  unfold shrinks. split_and!.
  - rewrite fulfil_calls_eq. by repeat case_match.
  - rewrite fulfil_calls_eq. by repeat case_match.
  - rewrite fulfil_calls_eq. by repeat case_match.
  - rewrite fulfil_calls_eq.
    destruct (calls st !! currentFloor st) as [ds|] eqn:E; [| done].
    assert (currentFloor st ∈ dom (calls st)) as Hin by by apply elem_of_dom.
    repeat case_decide; cbn; rewrite ?dom_delete_L, ?dom_insert_L; try done.
    + intros x [Hx _]%elem_of_difference. done.
    + intros x [Hx _]%elem_of_difference. done.
    + intros x [->%elem_of_singleton|Hx]%elem_of_union; done.
  - intros Hne. rewrite fulfil_calls_nonempty by done.
    by apply calls_after_stop_nonempty.
  - intros f d. rewrite fulfil_calls_eq. unfold hasCall.
    destruct (calls st !! currentFloor st) as [ds0|] eqn:E; [| done].
    repeat case_decide; cbn; try done.
    + intros (ds & [_ Hl]%lookup_delete_Some & Hd). by exists ds.
    + intros (ds & [_ Hl]%lookup_delete_Some & Hd). by exists ds.
    + intros (ds & [[<- <-]|[_ Hl]]%lookup_insert_Some & Hd).
      * exists ds0. split; [done |]. by apply elem_of_difference in Hd as [? _].
      * by exists ds.
Qed.

Lemma shrinks_openDoors_fulfil st : shrinks st (openDoors_fulfil st).
Proof.
  unfold openDoors_fulfil.
  eapply shrinks_trans; [| apply shrinks_fulfil_calls].
  eapply shrinks_trans; [| apply shrinks_fulfil_request].
  apply shrinks_set_doorsOpen.
Qed.

Lemma openDoors_fulfil_currentFloor st :
  currentFloor (openDoors_fulfil st) = currentFloor st.
Proof.
  unfold openDoors_fulfil. rewrite fulfil_calls_eq, fulfil_request_eq.
  by repeat case_match.
Qed.

Lemma stays_same st k :
  Forall (frame_in_range st) k → stays st (st, k).
Proof. intros Hk. split; [apply shrinks_refl | done]. Qed.

Lemma stays_awaited st r fr :
  frame_in_range st fr → stays st r → stays st (awaited r fr).
Proof.
  intros Hfr (Hs & Hc & Hk). unfold stays, awaited; cbn.
  split_and!; [done | done |].
  apply Forall_app. split; [done |]. by apply Forall_singleton.
Qed.

Lemma closeDoors_stays st : stays st (closeDoors st).
Proof.
  unfold closeDoors. destruct (negb _); apply stays_same.
  - done.
  - by apply Forall_singleton.
Qed.

Lemma closeDoors_closed_stays st : stays st (closeDoors_closed st).
Proof.
  unfold closeDoors_closed, stays; cbn.
  split_and!; [apply shrinks_set_doorsOpen | done | done].
Qed.

Lemma openDoors_stays st : stays st (openDoors st).
Proof.
  unfold openDoors. destruct (doorsOpen st); apply stays_same.
  - done.
  - by apply Forall_singleton.
Qed.

Lemma frame_in_range_shrinks st st' fr :
  shrinks st st' → frame_in_range st fr ↔ frame_in_range st' fr.
Proof.
  intros (Hlo & Hhi & _). destruct fr; cbn; try done.
  unfold in_range. by rewrite Hlo, Hhi.
Qed.

Lemma stays_trans st r1 r2 :
  stays st (r1, []) → stays r1 r2 → stays st r2.
Proof.
  intros (Hs1 & Hc1 & _) (Hs2 & Hc2 & Hk2). cbn in *.
  split_and!.
  - by eapply shrinks_trans.
  - congruence.
  - eapply Forall_impl; [done |]. intros fr.
    by apply (frame_in_range_shrinks st r1).
Qed.

Lemma openDoors_close_stays st : stays st (openDoors_close st).
Proof. apply stays_awaited; [done |]. apply closeDoors_stays. Qed.

Lemma openDoors_opened_stays st : stays st (openDoors_opened st).
Proof.
  assert (stays st (openDoors_fulfil st, [])) as Hf.
  { split_and!; [apply shrinks_openDoors_fulfil
                | apply openDoors_fulfil_currentFloor | done ]. }
  unfold openDoors_opened. cbv zeta. destruct (0 <? _).
  - eapply stays_trans; [done |]. apply stays_same. by apply Forall_singleton.
  - eapply stays_trans; [done |]. apply openDoors_close_stays.
Qed.

Lemma moveOneFloor_stays st : stays st (_moveOneFloor st).
Proof.
  destruct (moveOneFloor_cases st) as [-> | [-> | (t & -> & _ & Ht)]].
  - by apply stays_same.
  - split_and!; [apply shrinks_set_direction | done | done].
  - apply stays_same. by apply Forall_singleton.
Qed.

Lemma start_move_stays st : stays st (start_move st).
Proof. apply stays_awaited; [done |]. apply moveOneFloor_stays. Qed.

Lemma start_loop_stays st : stays st (start_loop st).
Proof.
  unfold start_loop. destruct (negb _); [by apply stays_same |]. cbv zeta.
  set (st1 := set_direction _ st).
  assert (stays st (st1, [])) as H1.
  { split_and!; [apply shrinks_set_direction | done | done]. }
  case_bool_decide.
  - eapply stays_trans; [done |]. apply stays_same. by apply Forall_singleton.
  - destruct (doorsOpen st1).
    + eapply stays_trans; [done |]. apply stays_awaited; [done |].
      apply closeDoors_stays.
    + eapply stays_trans; [done |]. apply start_move_stays.
Qed.

Lemma start_stays st : stays st (start st).
Proof.
  unfold start. destruct (_running st); [by apply stays_same |].
  eapply stays_trans; [| apply start_loop_stays].
  split_and!; [apply shrinks_set_running | done | done].
Qed.

Lemma arrive_effect st t :
  let r := _moveOneFloor_arrive st t in
  shrinks st r.1 ∧ currentFloor r.1 = t ∧ Forall (frame_in_range st) r.2.
Proof.
  unfold _moveOneFloor_arrive. cbv zeta.
  set (st1 := set_currentFloor t st).
  destruct (_ || _).
  - destruct (stays_awaited st1 (openDoors st1) MoveAwaitOpen I
                (openDoors_stays st1)) as (Hs & Hc & Hk).
    split_and!; [done | done |].
    eapply Forall_impl; [done |]. intros fr.
    by apply (frame_in_range_shrinks st st1), shrinks_set_currentFloor.
  - split_and!; [apply shrinks_set_currentFloor | done | done].
Qed.

(** The resumption of a frame: demand only shrinks, the car stays where
    it is unless the frame is a hop in progress, which ends at its target,
    and the frames left behind hold validated targets only. *)
Lemma resume_frame_effect st fr :
  let r := resume_frame st fr in
  shrinks st r.1 ∧
  (currentFloor r.1 = currentFloor st ∨
   ∃ t, fr = TravelSleep t ∧ currentFloor r.1 = t) ∧
  Forall (frame_in_range st) r.2.
Proof.
  assert (∀ r, stays st r →
    shrinks st r.1 ∧
    (currentFloor r.1 = currentFloor st ∨
     ∃ t, fr = TravelSleep t ∧ currentFloor r.1 = t) ∧
    Forall (frame_in_range st) r.2) as Hstays.
  { intros r (Hs & Hc & Hk). split_and!; [done | by left | done]. }
  destruct fr; cbn [resume_frame]; cbv zeta.
  - apply Hstays, start_loop_stays.
  - apply Hstays, start_move_stays.
  - apply Hstays, start_loop_stays.
  - destruct (arrive_effect st targetFloor) as (Hs & Hc & Hk).
    split_and!; [done | right; by exists targetFloor | done].
  - by apply Hstays, stays_same.
  - apply Hstays, openDoors_opened_stays.
  - apply Hstays, openDoors_close_stays.
  - by apply Hstays, stays_same.
  - apply Hstays, closeDoors_closed_stays.
Qed.
(** ** Invariants of the controller among its callers *)

Lemma pressFloor_cases st floor :
  pressFloor st floor = st ∨
  ∃ f, floor = JsInt f ∧ in_range st f ∧
       pressFloor st floor = set_requests ({[f]} ∪ requests st) st.
Proof.
  destruct (_validFloor st floor) eqn:Hv.
  - apply validFloor_spec in Hv as (f & -> & Hf). right. exists f.
    split_and!; [done | done |]. by apply pressFloor_valid.
  - left. by apply pressFloor_invalid.
Qed.

Lemma floors_in_range_shrinks st st' :
  shrinks st st' → in_range st (currentFloor st') →
  floors_in_range st → floors_in_range st'.
Proof.
  intros (Hlo & Hhi & Hr & Hc & _) Hcur (_ & Hrq & Hcl).
  unfold floors_in_range, in_range in *. rewrite Hlo, Hhi.
  split; [done |]. split.
  - intros f Hf. by apply Hrq, Hr.
  - intros f Hf. by apply Hcl, Hc.
Qed.

Lemma pressFloor_in_range st floor :
  floors_in_range st → floors_in_range (pressFloor st floor).
Proof.
  intros Hok.
  destruct (pressFloor_cases st floor) as [-> | (f & -> & Hf & ->)]; [done |].
  destruct Hok as (Hcur & Hrq & Hcl).
  split_and!; [done | | done].
  cbn. intros g [->%elem_of_singleton|Hg]%elem_of_union; [done |].
  by apply Hrq.
Qed.

Lemma callFrom_in_range st floor d :
  floors_in_range st → floors_in_range (callFrom st floor d).
Proof.
  intros Hok.
  destruct (callFrom_cases st floor d)
    as [-> | (f & -> & Hf & _ & _ & ->)]; [done |].
  destruct Hok as (Hcur & Hrq & Hcl).
  split_and!; [done | done |].
  cbn. rewrite dom_insert_L.
  intros g [->%elem_of_singleton|Hg]%elem_of_union; [done |].
  by apply Hcl.
Qed.

Lemma pressFloor_bounds st floor :
  minFloor (pressFloor st floor) = minFloor st ∧
  maxFloor (pressFloor st floor) = maxFloor st.
Proof.
  by destruct (pressFloor_cases st floor) as [-> | (f & -> & Hf & ->)].
Qed.

Lemma callFrom_bounds st floor d :
  minFloor (callFrom st floor d) = minFloor st ∧
  maxFloor (callFrom st floor d) = maxFloor st.
Proof.
  by destruct (callFrom_cases st floor d)
    as [-> | (f & -> & Hf & _ & _ & ->)].
Qed.

Lemma pressFloor_calls_nonempty st floor :
  calls_nonempty st → calls_nonempty (pressFloor st floor).
Proof.
  by destruct (pressFloor_cases st floor) as [-> | (f & -> & Hf & ->)].
Qed.

Lemma callFrom_calls_nonempty st floor d :
  calls_nonempty st → calls_nonempty (callFrom st floor d).
Proof.
  intros Hne.
  destruct (callFrom_cases st floor d)
    as [-> | (f & -> & Hf & _ & _ & ->)]; [done |].
  intros g ds; cbn.
  intros [[_ <-]|[_ Hl]]%lookup_insert_Some; [| by apply (Hne g)].
  intros Hemp.
  assert (normalize d ∈ ({[normalize d]} ∪ default ∅ (calls st !! f)
                          : gset Direction)) as Hin.
  { apply elem_of_union. left. by apply elem_of_singleton. }
  rewrite Hemp in Hin. by apply elem_of_empty in Hin.
Qed.

Lemma frames_in_range_bounds st st' (ts : list (list Frame)) :
  minFloor st' = minFloor st → maxFloor st' = maxFloor st →
  Forall (Forall (frame_in_range st)) ts →
  Forall (Forall (frame_in_range st')) ts.
Proof.
  intros Hlo Hhi Hts.
  eapply Forall_impl; [exact Hts |]. intros k Hk.
  eapply Forall_impl; [exact Hk |].
  intros fr. destruct fr; cbn; try done.
  unfold in_range. by rewrite Hlo, Hhi.
Qed.

Lemma spawn_in_range st r ts :
  floors_in_range st → stays st r →
  Forall (Forall (frame_in_range st)) ts →
  system_in_range (spawn r ts).
Proof.
  intros Hok (Hs & Hc & Hk) Hts.
  assert (floors_in_range r.1) as Hok'.
  { apply (floors_in_range_shrinks st); [done | | done].
    rewrite Hc. by destruct Hok. }
  destruct Hs as (Hlo & Hhi & _).
  unfold spawn. destruct r.2 as [|fr k] eqn:E.
  - split; [done |]. by apply (frames_in_range_bounds st).
  - split; [done |]. cbn. apply (frames_in_range_bounds st); [done | done |].
    apply Forall_app. split; [done |]. by apply Forall_singleton.
Qed.

Lemma resume_in_range st k :
  floors_in_range st → Forall (frame_in_range st) k →
  let r := resume st k in
  floors_in_range r.1 ∧ shrinks st r.1 ∧ Forall (frame_in_range st) r.2.
Proof.
  intros Hok Hk. destruct k as [|fr callers]; cbn.
  { split_and!; [done | apply shrinks_refl | done]. }
  apply Forall_cons in Hk as [Hfr Hcallers].
  destruct (resume_frame_effect st fr) as (Hs & Hc & Hnew).
  split_and!; [| done |].
  - apply (floors_in_range_shrinks st); [done | | done].
    destruct Hc as [-> | (t & -> & ->)]; [by destruct Hok | done].
  - apply Forall_app. done.
Qed.

(** Every event keeps the floors of the controller, and the targets of
    the hops in progress, within the bounds. *)
Lemma step_in_range sys ev :
  system_in_range sys → system_in_range (step sys ev).
Proof.
  intros [Hok Hts]. destruct ev as [floor|floor d| | |i]; cbn.
  - split; [by apply pressFloor_in_range |].
    destruct (pressFloor_bounds (elevator sys) floor).
    by apply (frames_in_range_bounds (elevator sys)).
  - split; [by apply callFrom_in_range |].
    destruct (callFrom_bounds (elevator sys) floor d).
    by apply (frames_in_range_bounds (elevator sys)).
  - apply (spawn_in_range (elevator sys)); [done | apply start_stays | done].
  - done.
  - destruct (tasks sys !! i) as [k|] eqn:Ei; [| done].
    assert (Forall (frame_in_range (elevator sys)) k) as Hk
      by by eapply Forall_lookup_1.
    destruct (resume_in_range (elevator sys) k Hok Hk) as (Hok' & Hs & Hk').
    destruct Hs as (Hlo & Hhi & _).
    destruct (resume (elevator sys) k).2 as [|fr k'] eqn:E.
    + split; [done |]. cbn.
      apply (frames_in_range_bounds (elevator sys)); [done | done |].
      by apply Forall_delete.
    + split; [done |]. cbn.
      apply (frames_in_range_bounds (elevator sys)); [done | done |].
      by apply Forall_insert.
Qed.

Lemma step_bounds sys ev :
  minFloor (elevator (step sys ev)) = minFloor (elevator sys) ∧
  maxFloor (elevator (step sys ev)) = maxFloor (elevator sys).
Proof.
  destruct ev as [floor|floor d| | |i]; cbn.
  - apply pressFloor_bounds.
  - apply callFrom_bounds.
  - destruct (start_stays (elevator sys)) as ((Hlo & Hhi & _) & _).
    unfold spawn. by destruct (start (elevator sys)).2.
  - done.
  - destruct (tasks sys !! i) as [k|] eqn:Ei; [| done].
    assert (shrinks (elevator sys) (resume (elevator sys) k).1) as (Hlo & Hhi & _).
    { destruct k as [|fr callers]; cbn; [apply shrinks_refl |].
      by destruct (resume_frame_effect (elevator sys) fr) as (Hs & _). }
    by destruct (resume (elevator sys) k).2.
Qed.

Lemma step_calls_nonempty sys ev :
  calls_nonempty (elevator sys) → calls_nonempty (elevator (step sys ev)).
Proof.
  intros Hne. destruct ev as [floor|floor d| | |i]; cbn.
  - by apply pressFloor_calls_nonempty.
  - by apply callFrom_calls_nonempty.
  - destruct (start_stays (elevator sys)) as ((_ & _ & _ & _ & Hkeep & _) & _).
    unfold spawn. destruct (start (elevator sys)).2; by apply Hkeep.
  - done.
  - destruct (tasks sys !! i) as [k|] eqn:Ei; [| done].
    assert (shrinks (elevator sys) (resume (elevator sys) k).1)
      as (_ & _ & _ & _ & Hkeep & _).
    { destruct k as [|fr callers]; cbn; [apply shrinks_refl |].
      by destruct (resume_frame_effect (elevator sys) fr) as (Hs & _). }
    destruct (resume (elevator sys) k).2; by apply Hkeep.
Qed.

Lemma new_Elevator_in_range lo hi t d w :
  lo ≤ hi → system_in_range (boot (new_Elevator lo hi t d w)).
Proof.
  intros Hle. split; [| done]. unfold floors_in_range, in_range; cbn.
  split; [lia |]. split.
  - intros f Hf. by apply elem_of_empty in Hf.
  - intros f Hf. rewrite dom_empty_L in Hf. by apply elem_of_empty in Hf.
Qed.

Lemma reachable_in_range lo hi t d w sys :
  lo ≤ hi → reachable (new_Elevator lo hi t d w) sys →
  system_in_range sys ∧
  minFloor (elevator sys) = lo ∧ maxFloor (elevator sys) = hi.
Proof.
  intros Hle Hreach. induction Hreach as [|sys ev _ (IH & Hlo & Hhi)].
  - split; [by apply new_Elevator_in_range | done].
  - split; [by apply step_in_range |].
    destruct (step_bounds sys ev) as [-> ->]. done.
Qed.

(** X2: no reachable controller holds an empty direction set in its call
    map: the fresh controller has no call, and every event (public
    operation or resumption of a loop task, in any interleaving) keeps
    the property. *)
Lemma calls_nonempty_reachable lo hi t d w sys :
  reachable (new_Elevator lo hi t d w) sys → calls_nonempty (elevator sys).
Proof.
  intros Hreach. induction Hreach as [|sys ev _ IH].
  - intros f ds. cbn. by rewrite lookup_empty.
  - by apply step_calls_nonempty.
Qed.

Lemma reachable_exec st0 evs : reachable st0 (exec (boot st0) evs).
Proof.
  unfold exec. induction evs as [|ev evs IH] using rev_ind.
  - apply reachable_boot.
  - rewrite foldl_app. cbn. by apply reachable_step.
Qed.

(** C5: with [minFloor < maxFloor], the current floor, every panel
    request and every key of the call map are within
    [minFloor, maxFloor] in the fresh controller and after any sequence of
    operations: [pressFloor] and [callFrom] keep the property, and so does
    every step of the loop (hops and door operations), for which the
    target of a hop in progress is within the bounds as well.  A hop whose
    target would leave the range is not made: the direction becomes Idle
    and the car stays where it is.  This holds of the target as the code
    computes it (the current floor plus or minus one, as a Number), and
    so of the adjacent floor when the bounds are safe integers. *)
Theorem floors_stay_in_range (lo hi t d w : Z) :
  lo < hi →
  let st0 := new_Elevator lo hi t d w in
  floors_in_range st0 ∧
  (∀ st floor, floors_in_range st → floors_in_range (pressFloor st floor)) ∧
  (∀ st floor dir, floors_in_range st → floors_in_range (callFrom st floor dir)) ∧
  (∀ sys ev, system_in_range sys → system_in_range (step sys ev)) ∧
  (∀ sys, reachable st0 sys →
     floors_in_range (elevator sys) ∧
     minFloor (elevator sys) = lo ∧ maxFloor (elevator sys) = hi) ∧
  (∀ st, doorsOpen st = false →
     (direction st = Up ∧ maxFloor st < Number_add (currentFloor st) 1) ∨
     (direction st = Down ∧ Number_sub (currentFloor st) 1 < minFloor st) →
     let r := _moveOneFloor st in
     direction r.1 = Idle ∧ currentFloor r.1 = currentFloor st ∧ r.2 = []) ∧
  (∀ st, safe_range st → in_range st (currentFloor st) →
     doorsOpen st = false →
     (direction st = Up ∧ maxFloor st < currentFloor st + 1) ∨
     (direction st = Down ∧ currentFloor st - 1 < minFloor st) →
     let r := _moveOneFloor st in
     direction r.1 = Idle ∧ currentFloor r.1 = currentFloor st ∧ r.2 = []).
Proof.
  intros Hlt st0. split_and!.
  - apply (new_Elevator_in_range lo hi t d w). lia.
  - apply pressFloor_in_range.
  - apply callFrom_in_range.
  - apply step_in_range.
  - intros sys Hreach.
    destruct (reachable_in_range lo hi t d w sys) as ((Hok & _) & Hlo & Hhi);
      [lia | done | done].
  - intros st Hclosed Hout r. subst r.
    by rewrite moveOneFloor_boundary.
  - intros st Hsafe Hcur Hclosed Hout r. subst r.
    by rewrite moveOneFloor_boundary_safe.
Qed.
(** ** Door-gated movement *)

Lemma gated_nil st : gated st [].
Proof. split; [intros t Ht; by apply elem_of_nil in Ht | done]. Qed.

Lemma gated_one st fr :
  (∀ t, fr = TravelSleep t → doorsOpen st = false) → gated st [fr].
Proof.
  intros Hfr. split; cbn.
  - intros t Ht. by apply elem_of_nil in Ht.
  - intros t [= ->]. by apply (Hfr t).
Qed.

Lemma gated_awaited st st' k fr :
  (∀ t, fr ≠ TravelSleep t) → gated st k →
  doorsOpen st' = doorsOpen st → gated st' (k ++ [fr]).
Proof.
  intros Hfr [Htl Hhd] Hd. destruct k as [|x k]; cbn.
  - apply gated_one. intros t ->. by destruct (Hfr t).
  - split; cbn.
    + intros t [Ht|Ht%list_elem_of_singleton]%elem_of_app.
      * by apply (Htl t).
      * by destruct (Hfr t).
    + intros t [= ->]. rewrite Hd. by apply (Hhd t).
Qed.

Lemma closeDoors_gated st : gated (closeDoors st).1 (closeDoors st).2.
Proof.
  unfold closeDoors. destruct (negb _); cbn; [apply gated_nil |].
  by apply gated_one.
Qed.

Lemma openDoors_gated st : gated (openDoors st).1 (openDoors st).2.
Proof.
  unfold openDoors. destruct (doorsOpen st); cbn; [apply gated_nil |].
  by apply gated_one.
Qed.

Lemma moveOneFloor_gated st : gated (_moveOneFloor st).1 (_moveOneFloor st).2.
Proof.
  destruct (moveOneFloor_cases st) as [-> | [-> | (t & -> & Hclosed & _)]]; cbn.
  - apply gated_nil.
  - apply gated_nil.
  - by apply gated_one.
Qed.

Lemma start_move_gated st : gated (start_move st).1 (start_move st).2.
Proof.
  unfold start_move, awaited; cbn.
  by apply (gated_awaited (_moveOneFloor st).1); [| apply moveOneFloor_gated |].
Qed.

Lemma start_loop_gated st : gated (start_loop st).1 (start_loop st).2.
Proof.
  unfold start_loop. destruct (negb _); [apply gated_nil |]. cbv zeta.
  case_bool_decide; [by apply gated_one |].
  destruct (doorsOpen _).
  - unfold awaited; cbn.
    by apply (gated_awaited (closeDoors (set_direction (_decideDirection st) st)).1);
      [| apply closeDoors_gated |].
  - apply start_move_gated.
Qed.

Lemma start_gated st : gated (start st).1 (start st).2.
Proof.
  unfold start. destruct (_running st); [apply gated_nil |].
  apply start_loop_gated.
Qed.

Lemma arrive_gated st t :
  gated (_moveOneFloor_arrive st t).1 (_moveOneFloor_arrive st t).2.
Proof.
  unfold _moveOneFloor_arrive. cbv zeta. destruct (_ || _); [| apply gated_nil].
  unfold awaited; cbn.
  by apply (gated_awaited (openDoors (set_currentFloor t st)).1);
    [| apply openDoors_gated |].
Qed.

Lemma openDoors_close_gated st :
  gated (openDoors_close st).1 (openDoors_close st).2.
Proof.
  unfold openDoors_close, awaited; cbn.
  by apply (gated_awaited (closeDoors st).1); [| apply closeDoors_gated |].
Qed.

Lemma openDoors_opened_gated st :
  gated (openDoors_opened st).1 (openDoors_opened st).2.
Proof.
  unfold openDoors_opened. cbv zeta. destruct (0 <? _).
  - by apply gated_one.
  - apply openDoors_close_gated.
Qed.

Lemma resume_frame_gated st fr :
  gated (resume_frame st fr).1 (resume_frame st fr).2.
Proof.
  destruct fr; cbn [resume_frame].
  - apply start_loop_gated.
  - apply start_move_gated.
  - apply start_loop_gated.
  - apply arrive_gated.
  - apply gated_nil.
  - apply openDoors_opened_gated.
  - apply openDoors_close_gated.
  - apply gated_nil.
  - unfold closeDoors_closed. apply gated_nil.
Qed.

Lemma resume_gated st k :
  gated st k → gated (resume st k).1 (resume st k).2.
Proof.
  intros [Htl Hhd]. destruct k as [|fr callers]; cbn; [apply gated_nil |].
  cbn in Htl.
  destruct (resume_frame_gated st fr) as [Htl' Hhd'].
  destruct (resume_frame st fr).2 as [|x xs]; cbn in *.
  - split.
    + intros t Ht. apply (Htl t). destruct callers; [done |]. by right.
    + intros t Ht. exfalso. apply (Htl t).
      destruct callers as [|c cs]; [done |]. cbn in Ht. injection Ht as ->.
      by left.
  - split; cbn.
    + intros t [Ht|Ht]%elem_of_app; [by apply (Htl' t) | by apply (Htl t)].
    + done.
Qed.

Lemma pressFloor_car st floor :
  currentFloor (pressFloor st floor) = currentFloor st ∧
  doorsOpen (pressFloor st floor) = doorsOpen st.
Proof.
  by destruct (pressFloor_cases st floor) as [-> | (f & -> & Hf & ->)].
Qed.

Lemma callFrom_car st floor d :
  currentFloor (callFrom st floor d) = currentFloor st ∧
  doorsOpen (callFrom st floor d) = doorsOpen st.
Proof.
  by destruct (callFrom_cases st floor d)
    as [-> | (f & -> & Hf & _ & _ & ->)].
Qed.

Lemma gated_doors st st' k :
  doorsOpen st' = doorsOpen st → gated st k → gated st' k.
Proof. intros Hd [Htl Hhd]. split; [done |]. by rewrite Hd. Qed.

Lemma start_spawns st :
  _running st = false → (start st).2 ≠ [].
Proof.
  unfold start, start_loop. intros ->. cbn.
  unfold start_move, awaited, closeDoors.
  split_ifs; cbn; try done.
  by destruct (_moveOneFloor _).2.
Qed.

(** With one task at most, every event keeps the task gated. *)
Lemma step_single_gated sys ev :
  single_gated sys →
  (length (tasks (step sys ev)) ≤ 1)%nat →
  single_gated (step sys ev).
Proof.
  intros Hinv Hone. destruct ev as [floor|floor d| | |i]; cbn in *.
  - destruct Hinv as [E|(k & E & Hk)]; [by left | right].
    exists k. split; [done |].
    destruct (pressFloor_car (elevator sys) floor) as [_ Hd].
    by apply (gated_doors (elevator sys)).
  - destruct Hinv as [E|(k & E & Hk)]; [by left | right].
    exists k. split; [done |].
    destruct (callFrom_car (elevator sys) floor d) as [_ Hd].
    by apply (gated_doors (elevator sys)).
  - unfold spawn in *.
    destruct (_running (elevator sys)) eqn:Hrun.
    { unfold start in *. rewrite Hrun in *. cbn. done. }
    pose proof (start_spawns (elevator sys) Hrun) as Hsp.
    pose proof (start_gated (elevator sys)) as Hg.
    destruct (start (elevator sys)).2 as [|fr k] eqn:E; [done |].
    cbn in *. rewrite length_app in Hone. cbn in Hone.
    destruct (tasks sys) as [|k0 ts]; [| cbn in Hone; lia].
    right. by exists (fr :: k).
  - destruct Hinv as [E|(k & E & Hk)]; [by left | right].
    by exists k.
  - destruct Hinv as [E|(k & E & Hk)].
    { rewrite E. cbn. by left. }
    rewrite E in *. destruct i as [|i]; cbn; [| right; by exists k].
    pose proof (resume_gated (elevator sys) k Hk) as Hg.
    destruct (resume (elevator sys) k).2 as [|fr k'] eqn:E'; cbn.
    + by left.
    + right. by eexists.
Qed.

Lemma reachable_single_gated st0 sys :
  reachable_single st0 sys → single_gated sys.
Proof.
  induction 1 as [|sys ev _ IH Hone]; [by left |].
  by apply step_single_gated.
Qed.

(** X1: door-gated movement of a single control loop: as long as at most one
    [start()] task is alive, no event moves the car while [doorsOpen] is
    true; and [_moveOneFloor] called with the doors open returns without
    a hop. *)
Theorem single_loop_door_gated st0 sys ev :
  reachable_single st0 sys →
  doorsOpen (elevator sys) = true →
  currentFloor (elevator (step sys ev)) = currentFloor (elevator sys) ∧
  _moveOneFloor (elevator sys) = (elevator sys, []).
Proof.
  intros Hreach Hopen. split; [| by apply moveOneFloor_refuses].
  apply reachable_single_gated in Hreach.
  destruct ev as [floor|floor d| | |i]; cbn.
  - apply pressFloor_car.
  - apply callFrom_car.
  - destruct (start_stays (elevator sys)) as (_ & Hc & _).
    unfold spawn. by destruct (start (elevator sys)).2.
  - done.
  - destruct (tasks sys !! i) as [k|] eqn:Ei; [| done].
    assert (currentFloor (resume (elevator sys) k).1
            = currentFloor (elevator sys)) as Hc.
    { destruct Hreach as [E|(k0 & E & [_ Hhd])]; rewrite E in Ei; [done |].
      destruct i; [| done]. cbn in Ei. injection Ei as ->.
      destruct k as [|fr callers]; [done |]. cbn.
      destruct (resume_frame_effect (elevator sys) fr)
        as (_ & [Hsame|(t & -> & _)] & _); [done |].
      specialize (Hhd t eq_refl). congruence. }
    by destruct (resume (elevator sys) k).2.
Qed.
(** ** The rules at work *)

Lemma calls_nonempty_tie_at_5 : calls_nonempty tie_at_5.
Proof.
  change (map_Forall (fun _ ds => ds ≠ (∅ : gset Direction)) (calls tie_at_5)).
  compute_done.
Qed.

Lemma demand_tie_at_5 f : demand tie_at_5 f ↔ f = 3 ∨ f = 7 ∨ f = 8.
Proof.
  rewrite <- (elem_of_targets tie_at_5 f calls_nonempty_tie_at_5).
  assert (targets tie_at_5 = {[3; 7; 8]}) as -> by (vm_compute; reflexivity).
  rewrite !elem_of_union, !elem_of_singleton. tauto.
Qed.

Lemma floors_in_range_tie_at_5 : floors_in_range tie_at_5.
Proof.
  unfold floors_in_range, in_range. cbn. split; [lia |]. split.
  - intros f [->%elem_of_singleton| ->%elem_of_singleton]%elem_of_union; lia.
  - intros f Hf. apply elem_of_dom in Hf as [ds Hf].
    apply lookup_singleton_Some in Hf as [<- _]. lia.
Qed.

Lemma safe_range_tie_at_5 : safe_range tie_at_5.
Proof. unfold safe_range. rewrite exact_bound_eq. cbn. lia. Qed.

Lemma decideDirection_rules_witness :
  nearest_above tie_at_5 2 ∧ nearest_below tie_at_5 2 ∧
  _decideDirection tie_at_5 = Up.
Proof.
  assert (nearest_above tie_at_5 2) as Ha.
  { split; [lia |]. split.
    - apply demand_tie_at_5. cbn. lia.
    - intros f Hf%demand_tie_at_5. cbn. lia. }
  assert (nearest_below tie_at_5 2) as Hb.
  { split; [lia |]. split.
    - apply demand_tie_at_5. cbn. lia.
    - intros f Hf%demand_tie_at_5. cbn. lia. }
  split; [done |]. split; [done |].
  destruct (decideDirection_rules tie_at_5 calls_nonempty_tie_at_5
              floors_in_range_tie_at_5 safe_range_tie_at_5)
    as (_ & _ & _ & Hidle & _).
  destruct (Hidle eq_refl) as (Hnear & _).
  destruct (Hnear 2 2 Ha Hb) as (_ & Htie & _).
  by apply Htie.
Defined.

Lemma calls_nonempty_stop_at_2 : calls_nonempty stop_at_2.
Proof.
  change (map_Forall (fun _ ds => ds ≠ (∅ : gset Direction)) (calls stop_at_2)).
  compute_done.
Qed.

Lemma door_open_fulfilment_witness :
  requests (resume_frame stop_at_2 OpenSleep).1 = {[4]} ∧
  hasCall (resume_frame stop_at_2 OpenSleep).1 2 Down ∧
  ¬ hasCall (resume_frame stop_at_2 OpenSleep).1 2 Up.
Proof.
  destruct (door_open_fulfilment stop_at_2 calls_nonempty_stop_at_2)
    as (_ & Hreq & _ & Hmove & _).
  destruct Hmove as (Hcalls & _); [done |].
  split; [by vm_compute |]. split.
  - apply Hcalls. split; [| by intros [_ [=]]].
    exists {[Up; Down]}. split; [reflexivity |].
    apply elem_of_union. right. by apply elem_of_singleton.
  - intros [_ Hnot]%Hcalls. by apply Hnot.
Defined.

Lemma floors_stay_in_range_witness :
  floors_in_range (elevator two_calls_run) ∧
  floors_in_range (elevator restart_run).
Proof.
  destruct (floors_stay_in_range 1 5 400 700 0) as (_ & _ & _ & _ & H5 & _ & _);
    [lia |].
  destruct (floors_stay_in_range 1 10 200 220 0) as (_ & _ & _ & _ & H10 & _ & _);
    [lia |].
  split.
  - by destruct (H5 two_calls_run (reachable_exec _ _)).
  - by destruct (H10 restart_run (reachable_exec _ _)).
Defined.

(** ** A restarted loop moves the car with the doors open *)

(** C4 does not hold of [start()] called again after [stop()] while the
    first loop still sleeps: the first loop never sees [_running] false,
    two loops then drive the one car, and the guard of [_moveOneFloor] is
    only read before the travel time.  At the end of [restart_run] the
    doors are open at floor 2 while the first loop is in its hop to floor
    3; its resumption moves the car, doors open. *)
Theorem restart_moves_car_with_doors_open :
  reachable restart_config restart_run ∧
  tasks restart_run =
    [[TravelSleep 3; StartAwaitMove];
     [CloseSleep; OpenAwaitClose; MoveAwaitOpen; StartAwaitMove]] ∧
  doorsOpen (elevator restart_run) = true ∧
  currentFloor (elevator restart_run) = 2 ∧
  currentFloor (elevator (step restart_run (E_resume 0))) = 3 ∧
  doorsOpen (elevator (step restart_run (E_resume 0))) = true.
Proof.
  split; [apply reachable_exec |].
  split_and!; by vm_compute.
Qed.

Lemma reachable_single_exec st0 evs :
  (∀ n, length (tasks (exec (boot st0) (take n evs))) ≤ 1)%nat →
  reachable_single st0 (exec (boot st0) evs).
Proof.
  unfold exec. induction evs as [|ev evs IH] using rev_ind; intros Hone.
  - apply single_boot.
  - rewrite foldl_app. cbn. apply single_step.
    + apply IH. intros n.
      destruct (decide (n ≤ length evs)%nat) as [Hn|Hn].
      * specialize (Hone n). by rewrite take_app_le in Hone.
      * specialize (Hone (length evs)).
        rewrite take_app_le, firstn_all in Hone by done.
        rewrite take_ge by lia. done.
    + specialize (Hone (length (evs ++ [ev]))).
      by rewrite firstn_all, foldl_app in Hone.
Qed.

Lemma single_loop_door_gated_witness :
  currentFloor (elevator (step two_calls_run (E_resume 0))) = 2 ∧
  _moveOneFloor (elevator two_calls_run) = (elevator two_calls_run, []).
Proof.
  apply (single_loop_door_gated (new_Elevator 1 5 400 700 0)).
  - apply reachable_single_exec. intros n.
    do 7 (destruct n as [|n]; [vm_compute; lia |]).
    rewrite take_ge by (cbn; lia). vm_compute; lia.
  - by vm_compute.
Defined.
(** ** More invariants of reachable controllers *)

Lemma calls_nonempty_reachable_witness :
  calls_nonempty (elevator two_calls_run) ∧
  calls_nonempty (elevator restart_run).
Proof.
  split.
  - apply (calls_nonempty_reachable 1 5 400 700 0), reachable_exec.
  - apply (calls_nonempty_reachable 1 10 200 220 0), reachable_exec.
Defined.

Lemma normalize_Up_or_Down d : normalize d = Up ∨ normalize d = Down.
Proof. unfold normalize. destruct (is_up d); [by left | by right]. Qed.

Lemma call_geometry_shrinks st st' :
  shrinks st st' → call_geometry st → call_geometry st'.
Proof.
  intros (Hlo & Hhi & _ & _ & _ & Hcalls) Hgeo f d Hc.
  rewrite Hlo, Hhi. by apply Hgeo, Hcalls.
Qed.

Lemma callFrom_call_geometry st floor d :
  call_geometry st → call_geometry (callFrom st floor d).
Proof.
  intros Hgeo.
  destruct (callFrom_cases st floor d)
    as [-> | (f & -> & Hf & Htop & Hbot & ->)]; [done |].
  intros g e [Hc|[-> ->]]%hasCall_accepted; cbn.
  - by apply Hgeo.
  - split; [apply normalize_Up_or_Down |]. split.
    + intros [E1 E2]. by apply Htop.
    + intros [E1 E2]. by apply Hbot.
Qed.

Lemma step_call_geometry sys ev :
  call_geometry (elevator sys) → call_geometry (elevator (step sys ev)).
Proof.
  intros Hgeo. destruct ev as [floor|floor d| | |i]; cbn.
  - by destruct (pressFloor_cases (elevator sys) floor)
      as [-> | (f & -> & Hf & ->)].
  - by apply callFrom_call_geometry.
  - destruct (start_stays (elevator sys)) as (Hs & _).
    unfold spawn.
    destruct (start (elevator sys)).2; by apply (call_geometry_shrinks _ _ Hs).
  - done.
  - destruct (tasks sys !! i) as [k|] eqn:Ei; [| done].
    assert (shrinks (elevator sys) (resume (elevator sys) k).1) as Hs.
    { destruct k as [|fr callers]; cbn; [apply shrinks_refl |].
      by destruct (resume_frame_effect (elevator sys) fr) as (Hs & _). }
    destruct (resume (elevator sys) k).2; by apply (call_geometry_shrinks _ _ Hs).
Qed.

(** X3: registered hall calls respect the geometry of the shaft in every
    reachable controller: a pending call is for Up or Down, none is Up at
    [maxFloor] and none is Down at [minFloor]. *)
Theorem reachable_call_geometry lo hi t d w sys :
  reachable (new_Elevator lo hi t d w) sys →
  ∀ f e, hasCall (elevator sys) f e →
    (e = Up ∨ e = Down) ∧ ¬ (f = hi ∧ e = Up) ∧ ¬ (f = lo ∧ e = Down).
Proof.
  intros Hreach.
  assert (call_geometry (elevator sys) ∧
          minFloor (elevator sys) = lo ∧ maxFloor (elevator sys) = hi)
    as (Hgeo & <- & <-); [| done].
  induction Hreach as [|sys ev _ (IH & Hlo & Hhi)].
  - split; [| done]. intros f e (ds & Hl & _). cbn in Hl.
    by rewrite lookup_empty in Hl.
  - split; [by apply step_call_geometry |].
    by destruct (step_bounds sys ev) as [-> ->].
Qed.

Lemma reachable_call_geometry_witness :
  ¬ hasCall (elevator two_calls_run) 5 Up ∧
  ¬ hasCall (elevator two_calls_run) 1 Down.
Proof.
  pose proof (reachable_call_geometry 1 5 400 700 0 two_calls_run
                (reachable_exec _ _)) as Hgeo.
  split.
  - intros Hc. destruct (Hgeo 5 Up Hc) as (_ & Htop & _). by apply Htop.
  - intros Hc. destruct (Hgeo 1 Down Hc) as (_ & _ & Hbot). by apply Hbot.
Defined.

(** ** A journey from floor 1 to floors 3 and 5 *)

(** Floors 1 to 5, idle at floor 1, [callFrom(3, "up")] then
    [pressFloor(5)]: the loop chooses Up and hops to 2, passes floor 2
    without a door cycle, stops at 3 where the call (3, up) is fulfilled
    and the request for 5 is left alone, closes the doors, passes floor 4,
    stops at 5 where the request is fulfilled, closes the doors and
    becomes Idle with no demand left. *)
Theorem journey_to_3_and_5 :
  (direction (elevator (journey 1)) = Up ∧
   tasks (journey 1) = [[TravelSleep 2; StartAwaitMove]]) ∧
  (currentFloor (elevator (journey 2)) = 2 ∧
   doorsOpen (elevator (journey 2)) = false ∧
   tasks (journey 2) = [[StartAwaitMove]]) ∧
  (currentFloor (elevator (journey 4)) = 3 ∧
   tasks (journey 4) = [[OpenSleep; MoveAwaitOpen; StartAwaitMove]]) ∧
  (doorsOpen (elevator (journey 5)) = true ∧
   calls (elevator (journey 5)) = ∅ ∧
   requests (elevator (journey 5)) = {[5]}) ∧
  (currentFloor (elevator (journey 8)) = 3 ∧
   doorsOpen (elevator (journey 8)) = false ∧
   tasks (journey 8) = [[StartAwaitMove]]) ∧
  (currentFloor (elevator (journey 10)) = 4 ∧
   doorsOpen (elevator (journey 10)) = false ∧
   tasks (journey 10) = [[StartAwaitMove]]) ∧
  (currentFloor (elevator (journey 13)) = 5 ∧
   doorsOpen (elevator (journey 13)) = true ∧
   requests (elevator (journey 13)) = ∅) ∧
  (currentFloor (elevator (journey 17)) = 5 ∧
   direction (elevator (journey 17)) = Idle ∧
   doorsOpen (elevator (journey 17)) = false ∧
   requests (elevator (journey 17)) = ∅ ∧
   calls (elevator (journey 17)) = ∅ ∧
   tasks (journey 17) = [[IdleSleep]]).
Proof. split_and!; by vm_compute. Qed.
(** ** Where the decision sends the car *)

Lemma above_nonempty st :
  (0 < length (above st))%nat ↔ ∃ f, f ∈ targets st ∧ currentFloor st < f.
Proof.
  rewrite length_pos_elem_of. split; intros [f Hf]; exists f.
  - apply elem_of_above in Hf. tauto.
  - apply elem_of_above. tauto.
Qed.

Lemma below_nonempty st :
  (0 < length (below st))%nat ↔ ∃ f, f ∈ targets st ∧ f < currentFloor st.
Proof.
  rewrite length_pos_elem_of. split; intros [f Hf]; exists f.
  - apply elem_of_below in Hf. tauto.
  - apply elem_of_below. tauto.
Qed.

Lemma no_target_elsewhere st :
  (∀ f, f ∈ targets st → f = currentFloor st)
  ↔ length (above st) = 0%nat ∧ length (below st) = 0%nat.
Proof.
  split.
  - intros Hown. split.
    + destruct (above st) as [|a l] eqn:E; [done |].
      assert (a ∈ above st) as [Hlt Ha]%elem_of_above by (rewrite E; by left).
      apply Hown in Ha. lia.
    + destruct (below st) as [|a l] eqn:E; [done |].
      assert (a ∈ below st) as [Hlt Ha]%elem_of_below by (rewrite E; by left).
      apply Hown in Ha. lia.
  - intros [Ha Hb] f Hf.
    destruct (Z.lt_trichotomy f (currentFloor st)) as [Hlt|[->|Hgt]]; [| done |].
    + assert (f ∈ below st) as Hin by by apply elem_of_below.
      destruct (below st); [by apply elem_of_nil in Hin | done].
    + assert (f ∈ above st) as Hin by by apply elem_of_above.
      destruct (above st); [by apply elem_of_nil in Hin | done].
Qed.

(** The answer of [_decideDirection] read backwards, on its arrays. *)
Lemma decideDirection_inv st :
  (_decideDirection st = Up → (0 < length (above st))%nat) ∧
  (_decideDirection st = Down → (0 < length (below st))%nat) ∧
  (_decideDirection st = Idle
   ↔ length (above st) = 0%nat ∧ length (below st) = 0%nat).
Proof.
  rewrite decideDirection_cases.
  destruct (direction st).
  - repeat case_bool_decide;
      (split_and!; [intros ? | intros ? | split; [intros ? | intros [? ?]]]);
      try done; lia.
  - repeat case_bool_decide;
      (split_and!; [intros ? | intros ? | split; [intros ? | intros [? ?]]]);
      try done; lia.
  - destruct (above st) as [|a la], (below st) as [|b lb]; cbn;
      try destruct (_ <=? _);
      (split_and!; [intros ? | intros ? | split; [intros ? | intros [? ?]]]);
      try done; lia.
Qed.

(** With direction Up the car keeps going Up while a target is above,
    and likewise for Down. *)
Lemma decideDirection_continues st :
  (direction st = Up → (0 < length (above st))%nat → _decideDirection st = Up) ∧
  (direction st = Down → (0 < length (below st))%nat → _decideDirection st = Down).
Proof.
  rewrite decideDirection_cases.
  split; intros -> Hlen; by rewrite bool_decide_eq_true_2.
Qed.

(** X4: [_decideDirection] never sends the car toward a side without a
    target: it answers Up only when some target floor (a panel request or
    a floor of the call map) is strictly above the current floor, Down
    only when some is strictly below, and Idle exactly when no target
    floor differs from the current floor. *)
Theorem decideDirection_heads_for_a_target st :
  (_decideDirection st = Up → ∃ f, f ∈ targets st ∧ currentFloor st < f) ∧
  (_decideDirection st = Down → ∃ f, f ∈ targets st ∧ f < currentFloor st) ∧
  (_decideDirection st = Idle ↔ ∀ f, f ∈ targets st → f = currentFloor st).
Proof.
  rewrite <- above_nonempty, <- below_nonempty, no_target_elsewhere.
  apply decideDirection_inv.
Qed.

(** The floor next to the car in the decided direction is within the
    bounds when the floors of the controller are. *)
Lemma decided_target_in_range st :
  floors_in_range st → _decideDirection st ≠ Idle →
  ∃ t,
    ((_decideDirection st = Up ∧ t = currentFloor st + 1) ∨
     (_decideDirection st = Down ∧ t = currentFloor st - 1)) ∧
    in_range st t.
Proof.
  intros Hok Hmove.
  pose proof Hok as (Hcur & _).
  destruct (decideDirection_inv st) as (Hup & Hdown & _).
  destruct (_decideDirection st) eqn:E; [| | done].
  - destruct (proj1 (above_nonempty st) (Hup eq_refl)) as (f & Hf & Hlt).
    apply (targets_in_range st f Hok) in Hf.
    exists (currentFloor st + 1). split; [by left |].
    unfold in_range in *. lia.
  - destruct (proj1 (below_nonempty st) (Hdown eq_refl)) as (f & Hf & Hlt).
    apply (targets_in_range st f Hok) in Hf.
    exists (currentFloor st - 1). split; [by right |].
    unfold in_range in *. lia.
Qed.

Lemma start_loop_decided st :
  floors_in_range st → safe_range st →
  _running st = true → doorsOpen st = false →
  let d := _decideDirection st in
  start_loop st =
  (set_direction d st,
   match d with
   | Up => [TravelSleep (currentFloor st + 1); StartAwaitMove]
   | Down => [TravelSleep (currentFloor st - 1); StartAwaitMove]
   | Idle => [IdleSleep]
   end).
Proof.
  intros Hok Hsafe Hrun Hclosed d.
  destruct (decide (d = Idle)) as [E|Hmove].
  { rewrite E. by apply start_loop_idle. }
  rewrite (start_loop_moves st d) by done.
  destruct (decided_target_in_range st Hok Hmove) as (t & Hdir & Ht).
  unfold start_move.
  rewrite (moveOneFloor_hop_safe (set_direction d st) t);
    [| done | by destruct Hok | done | done | done].
  unfold awaited; cbn. fold d in Hdir.
  destruct Hdir as [[-> ->]|[-> ->]]; done.
Qed.

(** X5: a decision never runs into the boundary guard of
    [_moveOneFloor].  From a running controller with the doors closed,
    its floors within the bounds and the bounds safe integers at most
    2^53 apart, one pass of the loop stores the decided direction and
    either sleeps idle (direction Idle) or starts a hop to the next floor
    in that direction, which is within [minFloor, maxFloor]; the
    direction is never reset by "reached boundary". *)
Theorem decided_hop_is_within_bounds st :
  floors_in_range st → safe_range st →
  _running st = true → doorsOpen st = false →
  let r := start_loop st in
  r.1 = set_direction (_decideDirection st) st ∧
  ((direction r.1 = Idle ∧ r.2 = [IdleSleep]) ∨
   (∃ t, r.2 = [TravelSleep t; StartAwaitMove] ∧ in_range st t ∧
         ((direction r.1 = Up ∧ t = currentFloor st + 1) ∨
          (direction r.1 = Down ∧ t = currentFloor st - 1)))).
Proof.
  intros Hok Hsafe Hrun Hclosed r. subst r.
  rewrite start_loop_decided by done. cbn.
  split; [done |].
  destruct (decide (_decideDirection st = Idle)) as [E|Hmove].
  { rewrite E. by left. }
  right.
  destruct (decided_target_in_range st Hok Hmove) as (t & [[E ->]|[E ->]] & Ht);
    rewrite E; eexists; split_and!; try done; [by left | by right].
Qed.

Lemma decided_hop_is_within_bounds_witness :
  (start_loop stop_at_2).2 = [TravelSleep 3; StartAwaitMove].
Proof.
  destruct (decided_hop_is_within_bounds stop_at_2) as (_ & [[E _]|Hhop]).
  - unfold floors_in_range, in_range. cbn. split; [lia |]. split.
    + intros f [->%elem_of_singleton| ->%elem_of_singleton]%elem_of_union; lia.
    + intros f Hf. apply elem_of_dom in Hf as [ds Hf].
      apply lookup_singleton_Some in Hf as [<- _]. lia.
  - unfold safe_range. rewrite exact_bound_eq. cbn. lia.
  - reflexivity.
  - reflexivity.
  - by vm_compute in E.
  - by vm_compute.
Defined.
(** ** What each part of the controller leaves alone *)

Lemma car_only_refl st : car_only st st.
Proof. unfold car_only. split_and!; done. Qed.

Lemma car_only_trans st1 st2 st3 :
  car_only st1 st2 → car_only st2 st3 → car_only st1 st3.
Proof.
  unfold car_only. intros (?&?&?&?&?&?&?&?) (?&?&?&?&?&?&?&?).
  split_and!; congruence.
Qed.

Lemma car_only_set_direction d st : car_only st (set_direction d st).
Proof. unfold car_only; cbn. split_and!; done. Qed.

Lemma car_only_set_doorsOpen b st : car_only st (set_doorsOpen b st).
Proof. unfold car_only; cbn. split_and!; done. Qed.

Lemma car_only_set_currentFloor t st : car_only st (set_currentFloor t st).
Proof. unfold car_only; cbn. split_and!; done. Qed.

Lemma closeDoors_car_only st : car_only st (closeDoors st).1.
Proof. unfold closeDoors. destruct (negb _); apply car_only_refl. Qed.

Lemma openDoors_car_only st : car_only st (openDoors st).1.
Proof. unfold openDoors. destruct (doorsOpen st); apply car_only_refl. Qed.

Lemma moveOneFloor_car_only st : car_only st (_moveOneFloor st).1.
Proof.
  destruct (moveOneFloor_cases st) as [-> | [-> | (t & -> & _)]];
    [apply car_only_refl | apply car_only_set_direction | apply car_only_refl].
Qed.

Lemma start_loop_car_only st : car_only st (start_loop st).1.
Proof.
  unfold start_loop. destruct (negb _); [apply car_only_refl |]. cbv zeta.
  set (st1 := set_direction _ st).
  assert (car_only st st1) as H1 by apply car_only_set_direction.
  case_bool_decide; [done |].
  destruct (doorsOpen st1).
  - eapply car_only_trans; [done |]. apply closeDoors_car_only.
  - eapply car_only_trans; [done |]. apply moveOneFloor_car_only.
Qed.

Lemma arrive_car_only st t : car_only st (_moveOneFloor_arrive st t).1.
Proof.
  unfold _moveOneFloor_arrive. cbv zeta.
  set (st1 := set_currentFloor t st).
  assert (car_only st st1) as H1 by apply car_only_set_currentFloor.
  destruct (_ || _); [| done].
  eapply car_only_trans; [done |]. apply openDoors_car_only.
Qed.

Lemma openDoors_fulfil_config st :
  minFloor (openDoors_fulfil st) = minFloor st ∧
  maxFloor (openDoors_fulfil st) = maxFloor st ∧
  travelTimeMs (openDoors_fulfil st) = travelTimeMs st ∧
  doorOperateMs (openDoors_fulfil st) = doorOperateMs st ∧
  doorDwellMs (openDoors_fulfil st) = doorDwellMs st ∧
  _running (openDoors_fulfil st) = _running st ∧
  direction (openDoors_fulfil st) = direction st.
Proof.
  unfold openDoors_fulfil. rewrite fulfil_calls_eq, fulfil_request_eq.
  cbn. repeat case_match; cbn; split_and!; done.
Qed.

Lemma openDoors_fulfil_requests st :
  requests (openDoors_fulfil st) = requests st ∖ {[currentFloor st]}.
Proof.
  unfold openDoors_fulfil. rewrite fulfil_calls_eq, fulfil_request_eq.
  cbn. by repeat case_match.
Qed.

Lemma openDoors_fulfil_calls_elsewhere st f :
  f ≠ currentFloor st → calls (openDoors_fulfil st) !! f = calls st !! f.
Proof.
  intros Hf. unfold openDoors_fulfil. rewrite fulfil_calls_eq, fulfil_request_eq.
  cbn. destruct (calls st !! currentFloor st) as [ds|] eqn:E; [| done].
  repeat case_decide; cbn; try done.
  - by rewrite lookup_delete_ne.
  - by rewrite lookup_delete_ne.
  - by rewrite lookup_insert_ne.
Qed.

(** X6: the loop retires demand only when a door opening completes, and
    then only at the floor where the car stands.  The code after any
    [await] of the loop keeps the bounds, the timings and [_running]; it
    adds no panel request and no hall call; it leaves the demand of every
    floor other than the current one as it was; and unless the [await]
    was the opening time of the doors it leaves all demand as it was. *)
Theorem resumption_serves_only_here st fr :
  let r := resume_frame st fr in
  (minFloor r.1 = minFloor st ∧ maxFloor r.1 = maxFloor st ∧
   travelTimeMs r.1 = travelTimeMs st ∧ doorOperateMs r.1 = doorOperateMs st ∧
   doorDwellMs r.1 = doorDwellMs st ∧ _running r.1 = _running st) ∧
  requests r.1 ⊆ requests st ∧
  (∀ f d, hasCall r.1 f d → hasCall st f d) ∧
  (∀ f, f ≠ currentFloor st →
     (f ∈ requests r.1 ↔ f ∈ requests st) ∧ calls r.1 !! f = calls st !! f) ∧
  (fr ≠ OpenSleep → requests r.1 = requests st ∧ calls r.1 = calls st).
Proof.
  intros r. subst r.
  assert (∀ st', car_only st st' →
    (minFloor st' = minFloor st ∧ maxFloor st' = maxFloor st ∧
     travelTimeMs st' = travelTimeMs st ∧ doorOperateMs st' = doorOperateMs st ∧
     doorDwellMs st' = doorDwellMs st ∧ _running st' = _running st) ∧
    requests st' ⊆ requests st ∧
    (∀ f d, hasCall st' f d → hasCall st f d) ∧
    (∀ f, f ≠ currentFloor st →
       (f ∈ requests st' ↔ f ∈ requests st) ∧ calls st' !! f = calls st !! f) ∧
    (fr ≠ OpenSleep → requests st' = requests st ∧ calls st' = calls st))
    as Hcar.
  { intros st' (?&?&?&?&?&?& Hr & Hc). unfold hasCall. rewrite Hr, Hc.
    split_and!; done. }
  destruct fr; cbn [resume_frame].
  - apply Hcar, start_loop_car_only.
  - apply Hcar, moveOneFloor_car_only.
  - apply Hcar, start_loop_car_only.
  - apply Hcar, arrive_car_only.
  - apply Hcar, car_only_refl.
  - rewrite openDoors_opened_state.
    destruct (openDoors_fulfil_config st) as (?&?&?&?&?&?&_).
    destruct (shrinks_openDoors_fulfil st) as (_ & _ & Hsub & _ & _ & Hcalls).
    split_and!; try done.
    intros f Hf. split.
    + rewrite openDoors_fulfil_requests, elem_of_difference, elem_of_singleton.
      tauto.
    + by apply openDoors_fulfil_calls_elsewhere.
  - apply Hcar. unfold openDoors_close, awaited; cbn.
    apply closeDoors_car_only.
  - apply Hcar, car_only_refl.
  - apply Hcar. unfold closeDoors_closed; cbn. apply car_only_set_doorsOpen.
Qed.

(** ** Registration in any order *)

Lemma validFloor_bounds st st' floor :
  minFloor st' = minFloor st → maxFloor st' = maxFloor st →
  _validFloor st' floor = _validFloor st floor.
Proof. intros Hlo Hhi. unfold _validFloor. by rewrite Hlo, Hhi. Qed.

Lemma pressed_bounds st st' floor :
  minFloor st' = minFloor st → maxFloor st' = maxFloor st →
  pressed st' floor = pressed st floor.
Proof.
  intros Hlo Hhi. unfold pressed.
  by rewrite (validFloor_bounds st st' floor Hlo Hhi).
Qed.

Lemma called_bounds st st' floor d :
  minFloor st' = minFloor st → maxFloor st' = maxFloor st →
  called st' floor d = called st floor d.
Proof.
  intros Hlo Hhi. unfold called.
  by rewrite (validFloor_bounds st st' floor Hlo Hhi), Hlo, Hhi.
Qed.

Lemma pressFloor_pressed st floor :
  pressFloor st floor =
  match pressed st floor with
  | Some f => set_requests ({[f]} ∪ requests st) st
  | None => st
  end.
Proof.
  unfold pressFloor, pressed.
  destruct floor; cbn; try done. by destruct (_ && _).
Qed.

Lemma callFrom_called st floor d :
  callFrom st floor d =
  match called st floor d with
  | Some f =>
      set_calls (<[f := {[normalize d]} ∪ default ∅ (calls st !! f)]> (calls st)) st
  | None => st
  end.
Proof.
  unfold callFrom, called. cbv zeta.
  destruct floor as [f| | | |]; try (by destruct (negb _)).
  destruct (negb _); [done |].
  destruct (_ && _); [done |].
  destruct (_ && _); [done |].
  by rewrite callFrom_alter_insert.
Qed.

(** X7: panel presses and hall calls can be registered in any order:
    whether an operation is accepted depends on its arguments and the
    bounds only, and the demand registered by two operations is the same
    in both orders (the containers are taken up to their iteration order,
    which only the log lines show). *)
Theorem registration_commutes st (a b da db : JsValue) :
  pressFloor (pressFloor st a) b = pressFloor (pressFloor st b) a ∧
  callFrom (pressFloor st a) b db = pressFloor (callFrom st b db) a ∧
  callFrom (callFrom st a da) b db = callFrom (callFrom st b db) a da.
Proof.
  split_and!.
  - rewrite !pressFloor_pressed.
    destruct (pressed st a) as [fa|] eqn:Ea, (pressed st b) as [fb|] eqn:Eb;
      rewrite ?(pressed_bounds st (set_requests _ st)) by done;
      rewrite ?Ea, ?Eb; try done.
    unfold set_requests; cbn. f_equal.
    apply set_eq. intros x. rewrite !elem_of_union. tauto.
  - rewrite !pressFloor_pressed, !callFrom_called.
    destruct (pressed st a) as [fa|] eqn:Ea, (called st b db) as [fb|] eqn:Eb;
      rewrite ?(pressed_bounds st (set_calls _ st)) by done;
      rewrite ?(called_bounds st (set_requests _ st)) by done;
      rewrite ?Ea, ?Eb; done.
  - rewrite !callFrom_called.
    destruct (called st a da) as [fa|] eqn:Ea, (called st b db) as [fb|] eqn:Eb;
      rewrite ?(called_bounds st (set_calls _ st)) by done;
      rewrite ?Ea, ?Eb; try done.
    unfold set_calls; cbn. f_equal.
    destruct (decide (fa = fb)) as [->|Hne].
    + rewrite !lookup_insert_eq, !insert_insert_eq. cbn. f_equal.
      apply set_eq. intros x. rewrite !elem_of_union. tauto.
    + rewrite !lookup_insert_ne by done. by apply insert_insert_ne.
Qed.
(** ** One loop, left alone *)

Lemma run_add a b st k :
  run (a + b) st k = run b (run a st k).1 (run a st k).2.
Proof.
  revert st k. induction a as [|a IH]; intros st k; cbn; [done |].
  apply IH.
Qed.

Lemma run_nil n st : run n st [] = (st, []).
Proof. induction n as [|n IH]; cbn; done. Qed.

Lemma resume_OpenSleep st callers :
  resume st (OpenSleep :: callers) =
  (openDoors_fulfil st,
   (if 0 <? doorDwellMs st then [DwellSleep] else [CloseSleep; OpenAwaitClose])
   ++ callers).
Proof.
  cbn [resume resume_frame]. unfold openDoors_opened. cbv zeta.
  destruct (openDoors_fulfil_config st) as (_ & _ & _ & _ & -> & _).
  destruct (0 <? doorDwellMs st); [done |].
  unfold openDoors_close, closeDoors, awaited.
  by rewrite openDoors_fulfil_doorsOpen.
Qed.

Lemma resume_DwellSleep st callers :
  doorsOpen st = true →
  resume st (DwellSleep :: callers) =
  (st, [CloseSleep; OpenAwaitClose] ++ callers).
Proof.
  intros Hopen. cbn [resume resume_frame].
  unfold openDoors_close, closeDoors, awaited. by rewrite Hopen.
Qed.

Lemma resume_CloseSleep st callers :
  resume st (CloseSleep :: callers) = (set_doorsOpen false st, callers).
Proof. done. Qed.

(** A door cycle left alone: the opening fulfils the demand of the floor,
    and the cycle returns to the caller of [openDoors] with the doors
    closed. *)
Lemma door_cycle_run st callers :
  run (door_cycle_steps st) st (OpenSleep :: callers) =
  (set_doorsOpen false (openDoors_fulfil st), callers).
Proof.
  unfold door_cycle_steps.
  destruct (0 <? doorDwellMs st) eqn:Hdwell.
  - change 4%nat with (1 + (1 + 2))%nat. rewrite run_add.
    cbn [run]. rewrite resume_OpenSleep, Hdwell. cbn [fst snd app].
    rewrite run_add. cbn [run].
    rewrite resume_DwellSleep by apply openDoors_fulfil_doorsOpen.
    cbn [fst snd app]. done.
  - change 3%nat with (1 + 2)%nat. rewrite run_add.
    cbn [run]. rewrite resume_OpenSleep, Hdwell. cbn [fst snd app]. done.
Qed.

Lemma openDoors_fulfil_not_pending st :
  ¬ hasCall (openDoors_fulfil st) (currentFloor st) (direction st).
Proof.
  unfold openDoors_fulfil. rewrite fulfil_calls_eq, fulfil_request_eq.
  unfold hasCall. cbn.
  destruct (calls st !! currentFloor st) as [ds|] eqn:E; cbn.
  - repeat case_decide; cbn.
    + rewrite E. intros (ds' & [= <-] & Hd). subst ds.
      by apply elem_of_empty in Hd.
    + rewrite lookup_delete_eq. by intros (ds' & ? & _).
    + rewrite lookup_delete_eq. by intros (ds' & ? & _).
    + rewrite lookup_insert_eq. intros (ds' & [= <-] & Hd).
      apply elem_of_difference in Hd as [_ Hd]. apply Hd.
      by apply elem_of_singleton.
  - rewrite E. by intros (ds' & ? & _).
Qed.

(** X8: arrival at a floor.  When the car, doors closed, completes a hop
    to floor [t] where a panel request for [t] or a hall call at [t] in
    the direction of travel is pending, it stops: after the door cycle
    the loop is back in [_moveOneFloor] with the car at [t], the doors
    closed and the direction kept; the request for [t] and the call
    [(t, direction)] are gone and the demand of every other floor is
    untouched.  With neither pending the car passes: the hop returns at
    once, with no door activity and all demand as it was. *)
Theorem arrival_serves_the_floor st t callers :
  doorsOpen st = false →
  ((t ∈ requests st ∨ hasCall st t (direction st)) →
   let r := run (1 + door_cycle_steps st) st (TravelSleep t :: callers) in
   r.2 = MoveAwaitOpen :: callers ∧
   currentFloor r.1 = t ∧ doorsOpen r.1 = false ∧
   direction r.1 = direction st ∧
   (t ∉ requests r.1) ∧ ¬ hasCall r.1 t (direction st) ∧
   ∀ f, f ≠ t →
     (f ∈ requests r.1 ↔ f ∈ requests st) ∧ calls r.1 !! f = calls st !! f) ∧
  (t ∉ requests st → ¬ hasCall st t (direction st) →
   run 1 st (TravelSleep t :: callers) = (set_currentFloor t st, callers)).
Proof.
  intros Hclosed. split.
  - intros Hwhy r. subst r. rewrite run_add. cbn [run resume resume_frame].
    rewrite arrive_stops by done. cbn [fst snd app].
    set (st1 := set_currentFloor t st).
    change (door_cycle_steps st) with (door_cycle_steps st1).
    rewrite door_cycle_run. cbn [fst snd].
    destruct (openDoors_fulfil_config st1) as (_ & _ & _ & _ & _ & _ & Hdir).
    split_and!.
    + done.
    + cbn. apply openDoors_fulfil_currentFloor.
    + done.
    + cbn. by rewrite Hdir.
    + cbn. rewrite openDoors_fulfil_requests. cbn.
      intros [_ Hno]%elem_of_difference. apply Hno. by apply elem_of_singleton.
    + apply (openDoors_fulfil_not_pending st1).
    + intros f Hf. cbn. split.
      * rewrite openDoors_fulfil_requests, elem_of_difference, elem_of_singleton.
        cbn. tauto.
      * by rewrite (openDoors_fulfil_calls_elsewhere st1 f).
  - intros Hr Hc. cbn [run resume resume_frame].
    by rewrite arrive_passes.
Qed.

Lemma arrival_serves_the_floor_witness :
  let r := run 4 (set_currentFloor 1 stop_at_2) [TravelSleep 2; StartAwaitMove] in
  currentFloor r.1 = 2 ∧ doorsOpen r.1 = false ∧ (2 ∉ requests r.1) ∧
  ¬ hasCall r.1 2 Up.
Proof.
  destruct (arrival_serves_the_floor (set_currentFloor 1 stop_at_2) 2
              [StartAwaitMove] eq_refl) as [Hstop _].
  destruct Hstop as (_ & Hcur & Hclosed & _ & Hreq & Hcall & _).
  - left. cbn. apply elem_of_union. left. by apply elem_of_singleton.
  - done.
Defined.

(** ** The positions of a loop that runs alone *)

Lemma moveOneFloor_closed st :
  doorsOpen st = false →
  ((_moveOneFloor st).2 = [] ∧ doorsOpen (_moveOneFloor st).1 = false) ∨
  ∃ t, _moveOneFloor st = (st, [TravelSleep t]) ∧
       ((direction st = Up ∧ t = Number_add (currentFloor st) 1) ∨
        (direction st = Down ∧ t = Number_sub (currentFloor st) 1)).
Proof.
  intros Hclosed. unfold _moveOneFloor. rewrite Hclosed.
  case_bool_decide as Hidle; [by left |].
  destruct (negb _); [by left |].
  right. eexists. split; [done |].
  destruct (direction st); [| | done].
  - left. by rewrite bool_decide_eq_true_2.
  - right. by rewrite bool_decide_eq_false_2.
Qed.

Lemma start_move_single st :
  doorsOpen st = false → loop_task (start_move st).1 (start_move st).2.
Proof.
  intros Hclosed. unfold start_move, awaited. cbn.
  destruct (moveOneFloor_closed st Hclosed) as [[-> Hd]|(t & -> & Hdir)]; cbn.
  - left. split; [done |]. right. by left.
  - left. split; [done |]. right. right. left. by exists t.
Qed.

Lemma start_loop_single st :
  doorsOpen st = false →
  ((start_loop st).2 = [] ∧ doorsOpen (start_loop st).1 = false) ∨
  loop_task (start_loop st).1 (start_loop st).2.
Proof.
  intros Hclosed. unfold start_loop. destruct (negb _); [by left |].
  cbv zeta. cbn [doorsOpen set_direction]. rewrite Hclosed.
  case_bool_decide.
  - right. left. split; [done |]. by left.
  - right. by apply start_move_single.
Qed.

Lemma resume_loop_task st k :
  loop_task st k →
  ((resume st k).2 = [] ∧ doorsOpen (resume st k).1 = false) ∨
  loop_task (resume st k).1 (resume st k).2.
Proof.
  intros [[Hclosed Hk]|[Hopen Hk]].
  - destruct Hk as [->|[->|[(t & -> & Hdir)|[->|[->| ->]]]]].
    + cbn [resume resume_frame]. rewrite app_nil_r. by apply start_loop_single.
    + cbn [resume resume_frame]. rewrite app_nil_r. by apply start_loop_single.
    + cbn [resume resume_frame]. right.
      unfold _moveOneFloor_arrive. cbv zeta. destruct (_ || _).
      * unfold openDoors, awaited. cbn. rewrite Hclosed. cbn.
        left. split; [done |]. do 3 right. by left.
      * cbn. left. split; [done |]. right. by left.
    + right. rewrite resume_OpenSleep. cbn [fst snd].
      right. split; [apply openDoors_fulfil_doorsOpen |].
      destruct (0 <? _); [by left | by right].
    + right. cbn. left. split; [done |]. do 5 right. done.
    + right. cbn. left. split; [done |]. right. by left.
  - destruct Hk as [->| ->].
    + right. rewrite resume_DwellSleep by done. cbn.
      right. split; [done |]. by right.
    + right. cbn. left. split; [done |]. do 4 right. by left.
Qed.

Lemma pressFloor_direction st floor :
  direction (pressFloor st floor) = direction st.
Proof. rewrite pressFloor_pressed. by destruct (pressed st floor). Qed.

Lemma callFrom_direction st floor d :
  direction (callFrom st floor d) = direction st.
Proof. rewrite callFrom_called. by destruct (called st floor d). Qed.

Lemma loop_task_car st st' k :
  doorsOpen st' = doorsOpen st → direction st' = direction st →
  currentFloor st' = currentFloor st →
  loop_task st k → loop_task st' k.
Proof. unfold loop_task. by intros -> -> ->. Qed.

Lemma step_single_loop sys ev :
  single_loop sys →
  (length (tasks (step sys ev)) ≤ 1)%nat →
  single_loop (step sys ev).
Proof.
  intros Hinv Hone. destruct ev as [floor|floor d| | |i]; cbn in *.
  - destruct (pressFloor_car (elevator sys) floor) as [Hc Hd].
    destruct Hinv as [[E Hclosed]|(k & E & Hk)]; [left | right]; cbn.
    + by rewrite Hd.
    + exists k. split; [done |].
      apply (loop_task_car (elevator sys)); try done.
      apply pressFloor_direction.
  - destruct (callFrom_car (elevator sys) floor d) as [Hc Hd].
    destruct Hinv as [[E Hclosed]|(k & E & Hk)]; [left | right]; cbn.
    + by rewrite Hd.
    + exists k. split; [done |].
      apply (loop_task_car (elevator sys)); try done.
      apply callFrom_direction.
  - unfold spawn in *.
    destruct (_running (elevator sys)) eqn:Hrun.
    { unfold start in *. rewrite Hrun in *. cbn. done. }
    pose proof (start_spawns (elevator sys) Hrun) as Hsp.
    destruct (start (elevator sys)).2 as [|fr k] eqn:E; [done |].
    cbn in *. rewrite length_app in Hone. cbn in Hone.
    destruct Hinv as [[Et Hclosed]|(k0 & Et & _)];
      [| rewrite Et in Hone; cbn in Hone; lia].
    rewrite Et. cbn. right. exists (fr :: k). split; [done |].
    unfold start in *. rewrite Hrun in *.
    destruct (start_loop_single (set_running true (elevator sys)) Hclosed)
      as [[E' _]|Hk]; [by rewrite E in E' | by rewrite E in Hk].
  - destruct Hinv as [[E Hclosed]|(k & E & Hk)]; [by left | right].
    by exists k.
  - destruct Hinv as [[E Hclosed]|(k & E & Hk)].
    { rewrite E. cbn. by left. }
    rewrite E in *. destruct i as [|i]; cbn; [| right; by exists k].
    destruct (resume_loop_task (elevator sys) k Hk) as [[E' Hclosed]|Hk'].
    + rewrite E'. cbn. by left.
    + destruct (resume (elevator sys) k).2 as [|fr k'] eqn:E'; cbn.
      * exfalso. destruct Hk' as [[_ Hs]|[_ Hs]];
          repeat (destruct Hs as [Hs|Hs]);
          try destruct Hs as (? & ? & _); done.
      * right. by eexists.
Qed.

Lemma reachable_single_in_range st0 sys :
  floors_in_range st0 → reachable_single st0 sys →
  system_in_range sys ∧
  minFloor (elevator sys) = minFloor st0 ∧
  maxFloor (elevator sys) = maxFloor st0.
Proof.
  intros Hok Hreach. induction Hreach as [|sys ev _ (IH & Hlo & Hhi) _].
  - split; [| done]. split; [done | constructor].
  - split; [by apply step_in_range |].
    destruct (step_bounds sys ev) as [-> ->]. done.
Qed.

(** X9: the positions of a single loop.  On a controller that starts
    with its doors closed and never has two [start()] tasks alive, after
    any sequence of public operations and resumptions: either no loop is
    alive and the doors are closed, or the one loop is in a position of
    [loop_task].  In particular the doors are open only during the dwell
    and the closing of a stop, the loop never has to close the doors
    before a hop ("ensure doors are closed before moving"), and a hop in
    progress goes to the floor the code computed from the current floor
    and direction: the adjacent floor in the current direction when the
    controller started with its floors within bounds that are safe
    integers at most 2^53 apart. *)
Theorem single_loop_positions st0 sys :
  doorsOpen st0 = false →
  reachable_single st0 sys →
  single_loop sys ∧
  (doorsOpen (elevator sys) = true →
   ∃ rest, tasks sys = [DwellSleep :: rest] ∨ tasks sys = [CloseSleep :: rest]) ∧
  (∀ k, k ∈ tasks sys → StartAwaitClose ∉ k) ∧
  (floors_in_range st0 → safe_range st0 →
   ∀ t rest, tasks sys = [TravelSleep t :: rest] →
     (direction (elevator sys) = Up ∧ t = currentFloor (elevator sys) + 1) ∨
     (direction (elevator sys) = Down ∧ t = currentFloor (elevator sys) - 1)).
Proof.
  intros Hclosed Hreach.
  assert (single_loop sys) as Hinv.
  { induction Hreach as [|sys ev _ IH Hone]; [by left |].
    by apply step_single_loop. }
  split; [done |]. split; [| split]; cycle 2.
  { intros Hok Hsafe t rest Et.
    destruct (reachable_single_in_range st0 sys Hok Hreach)
      as (((Hcur & _) & _) & Hlo & Hhi).
    assert (safe_range (elevator sys)) as Hsafe'
      by by apply (safe_range_bounds st0).
    destruct (safe_next _ _ Hsafe' Hcur) as [Ea Es].
    destruct Hinv as [[E _]|(k & E & Hk)]; rewrite E in Et; [done |].
    injection Et as ->.
    destruct Hk as [[_ Hs]|[_ Hs]].
    - destruct Hs as [Hs|[Hs|[(t' & [= <- _] & Hdir)|[Hs|[Hs|Hs]]]]];
        try done.
      by rewrite Ea, Es in Hdir.
    - by destruct Hs. }
  - intros Hopen.
    destruct Hinv as [[_ Hc]|(k & -> & [[Hc _]|[_ [->| ->]]])];
      try congruence; eexists; [by left | by right].
  - intros k Hk.
    destruct Hinv as [[E _]|(k0 & E & Hk0)]; rewrite E in Hk.
    + by apply elem_of_nil in Hk.
    + apply list_elem_of_singleton in Hk as ->.
      destruct Hk0 as [[_ Hs]|[_ Hs]];
        repeat (destruct Hs as [Hs|Hs]); try destruct Hs as (t & -> & _);
        subst; intros Hin;
        repeat (apply elem_of_cons in Hin as [Hin|Hin]; [done |]);
        by apply elem_of_nil in Hin.
Qed.

Lemma single_loop_positions_witness :
  single_loop two_calls_run ∧ single_loop (journey 9).
Proof.
  split.
  - apply (single_loop_positions (new_Elevator 1 5 400 700 0)); [done |].
    apply reachable_single_exec. intros n.
    do 7 (destruct n as [|n]; [vm_compute; lia |]).
    rewrite take_ge by (cbn; lia). vm_compute; lia.
  - apply (single_loop_positions (new_Elevator 1 5 400 700 0)); [done |].
    apply reachable_single_exec. intros n.
    do 13 (destruct n as [|n]; [vm_compute; lia |]).
    rewrite take_ge by (cbn; lia). vm_compute; lia.
Defined.

(** ** Stopping and starting *)

Lemma run_StartAwaitMove_stopped st :
  _running st = false → run 1 st [StartAwaitMove] = (st, []).
Proof.
  intros Hrun. cbn [run resume resume_frame].
  by rewrite start_loop_stopped.
Qed.

Lemma run_IdleSleep_stopped st :
  _running st = false → run 1 st [IdleSleep] = (st, []).
Proof.
  intros Hrun. cbn [run resume resume_frame].
  by rewrite start_loop_stopped.
Qed.

Lemma run_CloseSleep_stopped st :
  _running st = false →
  run 4 st [CloseSleep; OpenAwaitClose; MoveAwaitOpen; StartAwaitMove]
  = (set_doorsOpen false st, []).
Proof.
  intros Hrun. change 4%nat with (3 + 1)%nat. rewrite run_add.
  cbn [run resume resume_frame closeDoors_closed fst snd app].
  by rewrite start_loop_stopped.
Qed.

Lemma run_OpenSleep_stopped st :
  _running st = false →
  run (door_cycle_steps st + 2) st [OpenSleep; MoveAwaitOpen; StartAwaitMove]
  = (set_doorsOpen false (openDoors_fulfil st), []).
Proof.
  intros Hrun. rewrite run_add, door_cycle_run. cbn [fst snd].
  change 2%nat with (1 + 1)%nat. rewrite run_add.
  cbn [run resume resume_frame fst snd app].
  rewrite start_loop_stopped; [done |]. cbn.
  destruct (openDoors_fulfil_config st) as (_ & _ & _ & _ & _ & -> & _). done.
Qed.

Lemma door_cycle_steps_le st : (door_cycle_steps st ≤ 4)%nat.
Proof. unfold door_cycle_steps. destruct (0 <? _); lia. Qed.

Lemma arrive_wanted_dec st t :
  (t ∈ requests st ∨ hasCall st t (direction st)) ∨
  ((t ∉ requests st) ∧ ¬ hasCall st t (direction st)).
Proof.
  destruct (decide (t ∈ requests st)) as [Hr|Hr]; [left; by left |].
  destruct (calls st !! t) as [ds|] eqn:E.
  - destruct (decide (direction st ∈ ds)) as [Hd|Hd].
    + left. right. by exists ds.
    + right. split; [done |]. intros (ds' & E' & Hd'). congruence.
  - right. split; [done |]. intros (ds' & E' & _). congruence.
Qed.

(** X10: [stop()] is honoured at the next test of the loop.  Once
    [_running] is false, a loop that runs alone returns from [start()]
    within seven resumptions, whatever its position, and makes no
    decision and begins no hop any more.  What is in progress is
    completed: a door cycle runs to its end, and a hop arrives at its
    target, where the car still stops and runs a whole door cycle when
    the floor is wanted ([_moveOneFloor] does not read [_running]), so
    that neither a request for the target nor a call there in the
    direction of travel is left.  The doors are closed when the loop
    returns, the direction is kept and the car is where it was, or at the
    target of the hop that was in progress. *)
Theorem stop_is_honoured st k :
  loop_task st k → _running st = false →
  ∃ n, (n ≤ 7)%nat ∧
    let r := run n st k in
    r.2 = [] ∧ doorsOpen r.1 = false ∧ _running r.1 = false ∧
    direction r.1 = direction st ∧
    (currentFloor r.1 = currentFloor st ∨
     ∃ t rest, k = TravelSleep t :: rest ∧ currentFloor r.1 = t ∧
               (t ∉ requests r.1) ∧ ¬ hasCall r.1 t (direction st)).
Proof.
  intros [[Hclosed Hk]|[Hopen Hk]] Hrun.
  - destruct Hk as [->|[->|[(t & -> & Hdir)|[->|[->| ->]]]]].
    + exists 1%nat. split; [lia |]. rewrite run_IdleSleep_stopped by done.
      cbn. split_and!; try done. by left.
    + exists 1%nat. split; [lia |]. rewrite run_StartAwaitMove_stopped by done.
      cbn. split_and!; try done. by left.
    + destruct (arrive_wanted_dec st t) as [Hwhy|[Hnr Hnc]].
      * assert (run 1 st [TravelSleep t; StartAwaitMove]
                = (set_currentFloor t st,
                   [OpenSleep; MoveAwaitOpen; StartAwaitMove])) as Hone.
        { cbn [run resume resume_frame]. by rewrite arrive_stops. }
        exists (1 + (door_cycle_steps st + 2))%nat.
        split; [pose proof (door_cycle_steps_le st); lia |].
        rewrite run_add, Hone. cbn [fst snd app].
        change (door_cycle_steps st)
          with (door_cycle_steps (set_currentFloor t st)).
        rewrite run_OpenSleep_stopped by done. cbn.
        pose proof (openDoors_fulfil_not_pending (set_currentFloor t st))
          as Hnp.
        pose proof (openDoors_fulfil_requests (set_currentFloor t st))
          as Hrq.
        destruct (openDoors_fulfil_config (set_currentFloor t st))
          as (_ & _ & _ & _ & _ & -> & ->).
        split_and!; try done. right. exists t, [StartAwaitMove].
        split_and!.
        -- done.
        -- apply openDoors_fulfil_currentFloor.
        -- rewrite Hrq. cbn. intros [_ Hno]%elem_of_difference.
           apply Hno. by apply elem_of_singleton.
        -- exact Hnp.
      * assert (run 1 st [TravelSleep t; StartAwaitMove]
                = (set_currentFloor t st, [StartAwaitMove])) as Hone.
        { cbn [run resume resume_frame]. by rewrite arrive_passes. }
        exists 2%nat. split; [lia |].
        change 2%nat with (1 + 1)%nat. rewrite run_add, Hone.
        cbn [fst snd app].
        rewrite run_StartAwaitMove_stopped by done. cbn.
        split_and!; try done. right. by exists t, [StartAwaitMove].
    + exists (door_cycle_steps st + 2)%nat.
      split; [pose proof (door_cycle_steps_le st); lia |].
      rewrite run_OpenSleep_stopped by done. cbn.
      destruct (openDoors_fulfil_config st) as (_ & _ & _ & _ & _ & -> & ->).
      split_and!; try done. left. apply openDoors_fulfil_currentFloor.
    + exists 3%nat. split; [lia |].
      change 3%nat with (2 + 1)%nat. rewrite run_add.
      cbn [run resume resume_frame fst snd app].
      rewrite start_loop_stopped by done. cbn.
      split_and!; try done. by left.
    + exists 2%nat. split; [lia |].
      change 2%nat with (1 + 1)%nat. rewrite run_add.
      cbn [run resume resume_frame fst snd app].
      rewrite start_loop_stopped by done. cbn.
      split_and!; try done. by left.
  - destruct Hk as [->| ->].
    + exists 5%nat. split; [lia |].
      change 5%nat with (1 + 4)%nat. rewrite run_add.
      assert (run 1 st [DwellSleep; MoveAwaitOpen; StartAwaitMove]
              = (st, [CloseSleep; OpenAwaitClose; MoveAwaitOpen; StartAwaitMove]))
        as -> by (cbn [run]; by rewrite resume_DwellSleep).
      cbn [fst snd].
      rewrite run_CloseSleep_stopped by done. cbn.
      split_and!; try done. by left.
    + exists 4%nat. split; [lia |].
      rewrite run_CloseSleep_stopped by done. cbn.
      split_and!; try done. by left.
Qed.

Lemma stop_is_honoured_witness :
  ∃ n, (n ≤ 7)%nat ∧
    (run n (stop (elevator two_calls_run)) [CloseSleep; OpenAwaitClose; MoveAwaitOpen; StartAwaitMove]).2 = [].
Proof.
  destruct (stop_is_honoured (stop (elevator two_calls_run))
              [CloseSleep; OpenAwaitClose; MoveAwaitOpen; StartAwaitMove])
    as (n & Hn & Hend & _).
  - right. split; [by vm_compute |]. by right.
  - by vm_compute.
  - by exists n.
Defined.

Lemma start_running st : _running (start st).1 = true.
Proof.
  unfold start. destruct (_running st) eqn:Hrun; [done |].
  by destruct (start_loop_car_only (set_running true st))
    as (_ & _ & _ & _ & _ & -> & _).
Qed.

Lemma start_while_running sys :
  _running (elevator sys) = true → step sys E_start = sys.
Proof.
  intros Hrun. cbn [step]. unfold start. rewrite Hrun.
  unfold spawn. cbn. by destruct sys.
Qed.

(** X11: [start()] is idempotent while the loop runs.  After [start()]
    the flag [_running] is true and at most one task has been added; a
    second [start()] right after it changes nothing and adds no task. *)
Theorem start_twice_is_start_once sys :
  let s1 := step sys E_start in
  _running (elevator s1) = true ∧
  (length (tasks s1) ≤ S (length (tasks sys)))%nat ∧
  step s1 E_start = s1.
Proof.
  intros s1.
  assert (∀ r ts, elevator (spawn r ts) = r.1) as Hel.
  { intros r ts. unfold spawn. by destruct r.2. }
  assert (_running (elevator s1) = true) as Hrun.
  { unfold s1. cbn [step]. rewrite Hel. apply start_running. }
  split_and!.
  - done.
  - unfold s1. cbn [step]. unfold spawn.
    destruct (start (elevator sys)).2; cbn; [lia |].
    rewrite length_app. cbn. lia.
  - by apply start_while_running.
Qed.
(** ** Every wanted floor is reached *)

Lemma arrive_cases st t :
  doorsOpen st = false →
  _moveOneFloor_arrive st t = (set_currentFloor t st, [OpenSleep; MoveAwaitOpen]) ∨
  _moveOneFloor_arrive st t = (set_currentFloor t st, []).
Proof.
  intros Hclosed. unfold _moveOneFloor_arrive. cbv zeta.
  destruct (_ || _); [left | by right].
  unfold openDoors, awaited. cbn. by rewrite Hclosed.
Qed.

(** A hop left alone, from the travel time to the return to [start]: the
    car is at the target, the doors are closed, and the demand of the
    other floors is untouched. *)
Lemma hop_run st t :
  doorsOpen st = false →
  ∃ n st',
    run n st [TravelSleep t; StartAwaitMove] = (st', [StartAwaitMove]) ∧
    currentFloor st' = t ∧ direction st' = direction st ∧
    doorsOpen st' = false ∧ _running st' = _running st ∧
    shrinks st st' ∧
    ∀ f, f ≠ t →
      (f ∈ requests st' ↔ f ∈ requests st) ∧ calls st' !! f = calls st !! f.
Proof.
  intros Hclosed.
  assert (run 1 st [TravelSleep t; StartAwaitMove]
          = ((_moveOneFloor_arrive st t).1,
             (_moveOneFloor_arrive st t).2 ++ [StartAwaitMove])) as Hone by done.
  destruct (arrive_cases st t Hclosed) as [E|E]; rewrite E in Hone;
    cbn [fst snd app] in Hone.
  - set (st1 := set_currentFloor t st) in *.
    exists (1 + (door_cycle_steps st1 + 1))%nat,
           (set_doorsOpen false (openDoors_fulfil st1)).
    destruct (openDoors_fulfil_config st1) as (_ & _ & _ & _ & _ & Hrun & Hdir).
    split_and!.
    + rewrite run_add, Hone. cbn [fst snd].
      rewrite run_add, door_cycle_run. done.
    + cbn. apply openDoors_fulfil_currentFloor.
    + cbn. by rewrite Hdir.
    + done.
    + cbn. by rewrite Hrun.
    + eapply shrinks_trans; [apply (shrinks_set_currentFloor t) |].
      eapply shrinks_trans; [apply shrinks_openDoors_fulfil |].
      apply shrinks_set_doorsOpen.
    + intros f Hf. cbn. split.
      * rewrite openDoors_fulfil_requests, elem_of_difference, elem_of_singleton.
        cbn. tauto.
      * by rewrite (openDoors_fulfil_calls_elsewhere st1 f).
  - exists 1%nat, (set_currentFloor t st).
    split_and!; done.
Qed.

(** A floor the car is wanted at is a target of the decision. *)
Lemma wanted_target st f :
  f ∈ requests st ∨ (∃ d, hasCall st f d) → f ∈ targets st.
Proof.
  intros [Hr|(d & ds & Hds & _)]; apply elem_of_union; [by left | right].
  apply elem_of_dom. by exists ds.
Qed.

(** One pass of the loop toward a wanted floor [f]: the hop either
    arrives at [f], where the doors open, or ends at another floor from
    which the way to [f] is shorter. *)
Lemma pass_toward st f :
  _running st = true → doorsOpen st = false → floors_in_range st →
  safe_range st →
  f ≠ currentFloor st →
  f ∈ requests st ∨ (currentFloor st < f ∧ hasCall st f Up) ∨
  (f < currentFloor st ∧ hasCall st f Down) →
  (let r := run 2 (start_loop st).1 (start_loop st).2 in
   currentFloor r.1 = f ∧ doorsOpen r.1 = true ∧ (f ∉ requests r.1) ∧
   (currentFloor st < f → ¬ hasCall r.1 f Up) ∧
   (f < currentFloor st → ¬ hasCall r.1 f Down)) ∨
  ∃ n st',
    run n (start_loop st).1 (start_loop st).2
    = ((start_loop st').1, (start_loop st').2) ∧
    _running st' = true ∧ doorsOpen st' = false ∧ floors_in_range st' ∧
    safe_range st' ∧
    f ≠ currentFloor st' ∧
    (currentFloor st < f ↔ currentFloor st' < f) ∧
    (f ∈ requests st' ∨ (currentFloor st' < f ∧ hasCall st' f Up) ∨
     (f < currentFloor st' ∧ hasCall st' f Down)) ∧
    0 ≤ way_to st' f < way_to st f.
Proof.
  intros Hrun Hclosed Hok Hsafe Hf Hwant.
  assert (f ∈ targets st) as Htarget.
  { apply wanted_target.
    destruct Hwant as [?|[[_ ?]|[_ ?]]]; [by left | right; eauto | right; eauto]. }
  pose proof (targets_in_range st f Hok Htarget) as Hfr.
  pose proof Hok as (Hcur & _).
  set (d := _decideDirection st).
  assert (d ≠ Idle) as Hmove.
  { intros E. apply (proj1 (proj2 (proj2 (decideDirection_inv st)))) in E.
    rewrite <- no_target_elsewhere in E. by apply Hf, E. }
  assert ((currentFloor st < f → direction st = Up → d = Up) ∧
          (f < currentFloor st → direction st = Down → d = Down)) as [Hup Hdown].
  { destruct (decideDirection_continues st) as [Hu Hd]. split; intros Hlt Hdir.
    - apply Hu; [done |]. apply above_nonempty. by exists f.
    - apply Hd; [done |]. apply below_nonempty. by exists f. }
  destruct (decided_target_in_range st Hok Hmove) as (t & Hdir & Ht).
  fold d in Hdir.
  assert (start_loop st = (set_direction d st, [TravelSleep t; StartAwaitMove]))
    as Estart.
  { rewrite start_loop_decided by done. fold d.
    destruct Hdir as [[-> ->]|[-> ->]]; done. }
  rewrite Estart. cbn [fst snd].
  set (st1 := set_direction d st).
  destruct (decide (t = f)) as [->|Hne].
  - left.
    assert (f ∈ requests st1 ∨ hasCall st1 f (direction st1)) as Hwhy.
    { destruct Hwant as [?|[[Hlt Hc]|[Hlt Hc]]]; [by left | right | right];
        destruct Hdir as [[E Et]|[E Et]]; try lia; cbn; by rewrite E. }
    assert (run 2 st1 [TravelSleep f; StartAwaitMove]
            = (openDoors_fulfil (set_currentFloor f st1),
               (resume (set_currentFloor f st1)
                  [OpenSleep; MoveAwaitOpen; StartAwaitMove]).2)) as ->.
    { change 2%nat with (1 + 1)%nat. rewrite run_add.
      assert (run 1 st1 [TravelSleep f; StartAwaitMove]
              = (set_currentFloor f st1, [OpenSleep; MoveAwaitOpen; StartAwaitMove]))
        as ->.
      { cbn [run resume resume_frame]. by rewrite arrive_stops. }
      cbn [run fst snd]. by rewrite resume_OpenSleep. }
    cbn [fst snd].
    split_and!.
    + apply openDoors_fulfil_currentFloor.
    + apply openDoors_fulfil_doorsOpen.
    + rewrite openDoors_fulfil_requests. cbn.
      intros [_ Hno]%elem_of_difference. apply Hno. by apply elem_of_singleton.
    + intros Hlt. destruct Hdir as [[E Et]|[E Et]]; [| lia].
      pose proof (openDoors_fulfil_not_pending (set_currentFloor f st1)) as Hnp.
      cbn in Hnp. by rewrite E in Hnp.
    + intros Hlt. destruct Hdir as [[E Et]|[E Et]]; [lia |].
      pose proof (openDoors_fulfil_not_pending (set_currentFloor f st1)) as Hnp.
      cbn in Hnp. by rewrite E in Hnp.
  - right.
    destruct (hop_run st1 t Hclosed)
      as (n & st' & Erun & Hcur' & Hdir' & Hclosed' & Hrun' & Hs & Helse).
    exists (n + 1)%nat, st'.
    assert (floors_in_range st') as Hok'.
    { apply (floors_in_range_shrinks st1); [done | by rewrite Hcur' | done]. }
    destruct Hs as (Hlo & Hhi & _).
    destruct (Helse f (not_eq_sym Hne)) as [Hreq Hcalls].
    assert (0 ≤ way_to st' f < way_to st f) as [Hway0 Hway].
    { unfold way_to. rewrite Hcur', Hdir', Hlo, Hhi. cbn.
      unfold in_range in *. cbn in *.
      destruct (Z.ltb_spec t f), (Z.ltb_spec (currentFloor st) f),
        (direction st) eqn:Ed;
        destruct Hdir as [[E ->]|[E ->]]; rewrite E;
        try (specialize (Hup ltac:(lia) eq_refl));
        try (specialize (Hdown ltac:(lia) eq_refl));
        try congruence; lia. }
    split_and!.
    + rewrite run_add, Erun. cbn [run resume resume_frame fst snd].
      by rewrite app_nil_r.
    + by rewrite Hrun'.
    + done.
    + done.
    + by apply (safe_range_bounds st).
    + rewrite Hcur'. congruence.
    + rewrite Hcur'. destruct Hdir as [[_ ->]|[_ ->]]; lia.
    + unfold hasCall. rewrite Hcur', Hcalls. cbn.
      destruct Hwant as [?|[[Hlt Hc]|[Hlt Hc]]].
      * left. by apply Hreq.
      * right. left. split; [| done]. destruct Hdir as [[_ ->]|[_ ->]]; lia.
      * right. right. split; [| done]. destruct Hdir as [[_ ->]|[_ ->]]; lia.
    + done.
    + done.
Qed.

(** X12: every wanted floor is reached.  Take a running controller at a
    decision point of its loop, doors closed, floors within the bounds,
    the bounds safe integers at most 2^53 apart (so that a hop reaches
    the adjacent floor), and a floor [f] other than the current one with
    a panel request, or
    above the car with a hall call for Up, or below the car with a hall
    call for Down.  If the loop is left alone (no further operation), then
    after finitely many resumptions the car stands at [f] with the doors
    open, the request for [f] is gone, and so is the call for Up (when
    [f] was above) or for Down (when [f] was below). *)
Theorem wanted_floor_is_served st f :
  _running st = true → doorsOpen st = false → floors_in_range st →
  safe_range st →
  f ≠ currentFloor st →
  f ∈ requests st ∨ (currentFloor st < f ∧ hasCall st f Up) ∨
  (f < currentFloor st ∧ hasCall st f Down) →
  ∃ n,
    let r := run n (start_loop st).1 (start_loop st).2 in
    currentFloor r.1 = f ∧ doorsOpen r.1 = true ∧ (f ∉ requests r.1) ∧
    (currentFloor st < f → ¬ hasCall r.1 f Up) ∧
    (f < currentFloor st → ¬ hasCall r.1 f Down).
Proof.
  remember (Z.to_nat (way_to st f)) as m eqn:Em.
  revert st Em. induction (lt_wf m) as [m _ IH].
  intros st -> Hrun Hclosed Hok Hsafe Hf Hwant.
  destruct (pass_toward st f Hrun Hclosed Hok Hsafe Hf Hwant)
    as [Hnow|(n & st' & Erun & Hrun' & Hclosed' & Hok' & Hsafe' & Hf' & Hside
              & Hwant' & Hway)].
  { by exists 2%nat. }
  destruct (IH (Z.to_nat (way_to st' f)) ltac:(lia) st' eq_refl
              Hrun' Hclosed' Hok' Hsafe' Hf' Hwant')
    as (n' & Hcur & Hopen & Hreq & Hup & Hdown).
  exists (n + n')%nat. cbv zeta. rewrite run_add, Erun. cbn [fst snd].
  split_and!; [done | done | done | |].
  - intros Hlt. apply Hup. by apply Hside.
  - intros Hlt. apply Hdown. lia.
Qed.

Lemma wanted_floor_is_served_witness :
  ∃ n, currentFloor (run n (start_loop tie_at_5).1 (start_loop tie_at_5).2).1 = 3.
Proof.
  destruct (wanted_floor_is_served tie_at_5 3) as (n & Hcur & _).
  - reflexivity.
  - reflexivity.
  - unfold floors_in_range, in_range. cbn. split; [lia |]. split.
    + intros f [->%elem_of_singleton| ->%elem_of_singleton]%elem_of_union; lia.
    + intros f Hf. apply elem_of_dom in Hf as [ds Hf].
      apply lookup_singleton_Some in Hf as [<- _]. lia.
  - unfold safe_range. rewrite exact_bound_eq. cbn. lia.
  - cbn. lia.
  - left. cbn. apply elem_of_union. left. by apply elem_of_singleton.
  - by exists n.
Defined.
(** * seed script: properties of the [.env] parser *)
Module LoadEnvFacts.
Import LoadEnv.

Local Open Scope nat_scope.

Definition all_spaces (ws : list N) : Prop :=
  Forall (fun c => is_space c = true) ws.

Lemma trimStart_spaces ws s : all_spaces ws → trimStart (ws ++ s) = trimStart s.
Proof. induction 1 as [|c ws Hc _ IH]; cbn; [done |]. by rewrite Hc. Qed.

Lemma trimStart_head s :
  (∀ c, head s = Some c → is_space c = false) → trimStart s = s.
Proof. destruct s as [|c s]; cbn; [done |]. intros H. by rewrite (H c). Qed.

(** [trimStart] drops a prefix of spaces and stops at a code unit that
    is not one. *)
Lemma trimStart_spec s :
  ∃ ws, s = ws ++ trimStart s ∧ all_spaces ws ∧
        ∀ c, head (trimStart s) = Some c → is_space c = false.
Proof.
  induction s as [|c s (ws & E & Hws & Hhd)]; cbn.
  - exists []. split_and!; [done | by constructor | done].
  - destruct (is_space c) eqn:Hc.
    + exists (c :: ws). split_and!; [by apply (f_equal (cons c)) | by constructor | done].
    + exists []. split_and!; [done | by constructor |]. cbn. by intros ? [= <-].
Qed.

Lemma head_reverse {A} (s : list A) : head (reverse s) = last s.
Proof.
  induction s as [|x s IH] using rev_ind; [done |].
  by rewrite reverse_app, last_snoc.
Qed.

Lemma last_reverse {A} (s : list A) : last (reverse s) = head s.
Proof. by rewrite <- head_reverse, reverse_involutive. Qed.

Lemma all_spaces_reverse ws : all_spaces ws → all_spaces (reverse ws).
Proof. unfold all_spaces. intros H. by apply Forall_reverse. Qed.

Lemma trimEnd_spaces s ws : all_spaces ws → trimEnd (s ++ ws) = trimEnd s.
Proof.
  intros Hws. unfold trimEnd. rewrite reverse_app.
  by rewrite trimStart_spaces by by apply all_spaces_reverse.
Qed.

Lemma trimEnd_last s :
  (∀ c, last s = Some c → is_space c = false) → trimEnd s = s.
Proof.
  intros H. unfold trimEnd. rewrite trimStart_head.
  - apply reverse_involutive.
  - intros c. rewrite head_reverse. apply H.
Qed.

Lemma trimEnd_spec s :
  ∃ ws, s = trimEnd s ++ ws ∧ all_spaces ws ∧
        ∀ c, last (trimEnd s) = Some c → is_space c = false.
Proof.
  destruct (trimStart_spec (reverse s)) as (ws & E & Hws & Hhd).
  exists (reverse ws). unfold trimEnd. split_and!.
  - rewrite <- reverse_app, <- E. by rewrite reverse_involutive.
  - by apply all_spaces_reverse.
  - intros c. rewrite last_reverse. apply Hhd.
Qed.

Lemma trim_tight s : tight s → trim s = s.
Proof.
  intros [Hhd Hlast]. unfold trim.
  rewrite trimStart_head by done. by apply trimEnd_last.
Qed.

(** Spaces around a tight string are what [trim] removes. *)
Lemma trim_padded ws1 s ws2 :
  all_spaces ws1 → all_spaces ws2 → tight s → trim (ws1 ++ s ++ ws2) = s.
Proof.
  intros H1 H2 [Hhd Hlast]. unfold trim.
  rewrite trimStart_spaces by done.
  destruct s as [|c s].
  - cbn. destruct (trimStart_spec ws2) as (ws & E & Hws & Hh).
    destruct (trimStart ws2) as [|x r] eqn:Et; [done |].
    exfalso. specialize (Hh x eq_refl).
    assert (x ∈ ws2) as Hin.
    { rewrite E. apply elem_of_app. right. by left. }
    unfold all_spaces in H2. rewrite Forall_forall in H2.
    rewrite (H2 x Hin) in Hh. done.
  - rewrite trimStart_head.
    + rewrite trimEnd_spaces by done. by apply trimEnd_last.
    + cbn. intros ? [= <-]. by apply Hhd.
Qed.

Lemma tight_trim s : tight (trim s).
Proof.
  unfold trim.
  destruct (trimStart_spec s) as (_ & _ & _ & Hhd).
  destruct (trimEnd_spec (trimStart s)) as (ws & E & _ & Hlast).
  split; [| done].
  intros c Hc. apply Hhd.
  destruct (trimEnd (trimStart s)) as [|x r]; [done |].
  rewrite E. done.
Qed.

(** [trim] removes spaces only: the string is the trimmed one between two
    runs of spaces. *)
Lemma trim_spec s :
  ∃ ws1 ws2, s = ws1 ++ trim s ++ ws2 ∧ all_spaces ws1 ∧ all_spaces ws2.
Proof.
  destruct (trimStart_spec s) as (ws1 & E1 & H1 & _).
  destruct (trimEnd_spec (trimStart s)) as (ws2 & E2 & H2 & _).
  exists ws1, ws2. unfold trim. split_and!; [| done | done].
  by rewrite <- E2.
Qed.

Lemma all_spaces_app ws1 ws2 :
  all_spaces ws1 → all_spaces ws2 → all_spaces (ws1 ++ ws2).
Proof. unfold all_spaces. intros. by apply Forall_app. Qed.

Lemma all_spaces_elem ws c : all_spaces ws → c ∈ ws → is_space c = true.
Proof. unfold all_spaces. rewrite Forall_forall. auto. Qed.

Lemma all_spaces_trim ws : all_spaces ws ↔ trim ws = [].
Proof.
  split.
  - intros H. rewrite <- (trim_padded ws [] []); [| done | by constructor |].
    + by rewrite !app_nil_r.
    + split; intros ? [=].
  - intros E. destruct (trim_spec ws) as (w1 & w2 & Es & H1 & H2).
    rewrite Es, E. by apply all_spaces_app.
Qed.

Lemma equals_not_space : is_space equals = false.
Proof. reflexivity. Qed.

Lemma hash_not_space : is_space hash = false.
Proof. reflexivity. Qed.

Lemma equals_notin_spaces ws : all_spaces ws → equals ∉ ws.
Proof.
  intros H Hin. pose proof (all_spaces_elem _ _ H Hin) as E.
  by rewrite equals_not_space in E.
Qed.

Lemma indexOf_None c s : indexOf c s = None ↔ c ∉ s.
Proof.
  induction s as [|x s IH]; cbn.
  - split; [intros _ H; by apply elem_of_nil in H | done].
  - case_bool_decide as Hx.
    + subst. split; [done |]. intros H. exfalso. apply H. by left.
    + rewrite not_elem_of_cons, <- IH.
      destruct (indexOf c s); cbn.
      * split; [done | by intros [_ ?]].
      * split; [| done]. intros _. split; [congruence | done].
Qed.

Lemma indexOf_first c k rest :
  c ∉ k → indexOf c (k ++ c :: rest) = Some (length k).
Proof.
  induction k as [|x k IH]; cbn; intros Hk.
  - by rewrite bool_decide_eq_true_2.
  - apply not_elem_of_cons in Hk as [Hx Hk].
    rewrite bool_decide_eq_false_2 by done. by rewrite IH.
Qed.

Lemma indexOf_Some c s i :
  indexOf c s = Some i →
  ∃ k rest, s = k ++ c :: rest ∧ (c ∉ k) ∧ i = length k.
Proof.
  revert i. induction s as [|x s IH]; cbn; intros i; [done |].
  case_bool_decide as Hx.
  - intros [= <-]. subst. exists [], s. split_and!; [done | | done].
    intros H. by apply elem_of_nil in H.
  - destruct (indexOf c s) as [j|] eqn:E; cbn; [| done].
    intros [= <-]. destruct (IH j eq_refl) as (k & rest & -> & Hk & ->).
    exists (x :: k), rest. split_and!; [done | | done].
    apply not_elem_of_cons. split; [congruence | done].
Qed.

Lemma drop_S_middle {A} (l : list A) x r :
  drop (S (length l)) (l ++ x :: r) = r.
Proof. induction l as [|y l IH]; cbn; done. Qed.

(** The line without its outer spaces, once it is known to be tight. *)
Lemma parse_tight k ws2 ws3 v :
  all_spaces ws2 → all_spaces ws3 →
  tight k → equals ∉ k → startsWith hash k = false → tight v →
  tight (k ++ ws2 ++ equals :: ws3 ++ v) →
  ∀ ws1 ws4, all_spaces ws1 → all_spaces ws4 →
  parse_line (ws1 ++ (k ++ ws2 ++ equals :: ws3 ++ v) ++ ws4)
  = Some (k, unquote v).
Proof.
  intros H2 H3 Hk Hek Hhk Hv Ht ws1 ws4 H1 H4. unfold parse_line.
  rewrite (trim_padded ws1 _ ws4 H1 H4 Ht).
  assert (k ++ ws2 ++ equals :: ws3 ++ v ≠ []) as Hne.
  { intros E. apply app_eq_nil in E as [_ E].
    apply app_eq_nil in E as [_ E]. done. }
  rewrite bool_decide_eq_false_2 by done.
  assert (startsWith hash (k ++ ws2 ++ equals :: ws3 ++ v) = false) as ->.
  { destruct k as [|x k]; [| exact Hhk].
    destruct Ht as [Hhd _].
    destruct ws2 as [|y ws2]; [reflexivity |].
    exfalso. specialize (Hhd y eq_refl).
    assert (y ∈ y :: ws2) as Hy by by left.
    by rewrite (all_spaces_elem _ _ H2 Hy) in Hhd. }
  cbn [orb].
  assert (equals ∉ k ++ ws2) as Hkw.
  { rewrite elem_of_app. intros [H | H]; [done |].
    by apply (equals_notin_spaces ws2). }
  replace (k ++ ws2 ++ equals :: ws3 ++ v)
    with ((k ++ ws2) ++ equals :: ws3 ++ v) by by rewrite <- app_assoc.
  rewrite (indexOf_first _ _ _ Hkw).
  rewrite take_app_length.
  rewrite drop_S_middle.
  assert (all_spaces []) as H0 by constructor.
  assert (trim (k ++ ws2) = k) as -> by by apply (trim_padded [] k ws2).
  pose proof (trim_padded ws3 v [] H3 H0 Hv) as E.
  rewrite app_nil_r in E. by rewrite E.
Qed.

Lemma tight_nil : tight [].
Proof. split; intros ? [=]. Qed.

Lemma all_spaces_nil : all_spaces [].
Proof. constructor. Qed.

Lemma tight_around k ws2 ws3 v :
  tight k → tight v → (k = [] → ws2 = []) → (v = [] → ws3 = []) →
  tight (k ++ ws2 ++ equals :: ws3 ++ v).
Proof.
  intros [Hk _] [_ Hv] H2 H3. split; intros c.
  - destruct k as [|x k]; [| exact (Hk c)].
    rewrite (H2 eq_refl). cbn. by intros [= <-].
  - destruct v as [|y v _] using rev_ind.
    + rewrite (H3 eq_refl). cbn [app].
      rewrite app_assoc, last_snoc. by intros [= <-].
    + replace (k ++ ws2 ++ equals :: ws3 ++ v ++ [y])
        with ((k ++ ws2 ++ equals :: ws3 ++ v) ++ [y])
        by by rewrite <- !app_assoc, <- app_comm_cons, <- app_assoc.
      rewrite last_snoc. intros E. apply Hv. by rewrite last_snoc.
Qed.

(** A line [KEY = VALUE] with spaces anywhere around the key and the
    value. *)
Lemma parse_padded ws1 k ws2 ws3 v ws4 :
  all_spaces ws1 → all_spaces ws2 → all_spaces ws3 → all_spaces ws4 →
  tight k → equals ∉ k → startsWith hash k = false → tight v →
  parse_line (ws1 ++ k ++ ws2 ++ equals :: ws3 ++ v ++ ws4)
  = Some (k, unquote v).
Proof.
  intros H1 H2 H3 H4 Hk Hek Hhk Hv.
  pose proof all_spaces_nil as H0.
  destruct k as [|x k], v as [|y v].
  - assert (tight ([] ++ [] ++ equals :: [] ++ [])) as Ht
      by by apply tight_around.
    rewrite <- (parse_tight [] [] [] [] H0 H0 Hk Hek Hhk Hv Ht
                 (ws1 ++ ws2) (ws3 ++ ws4))
      by by apply all_spaces_app.
    f_equal. by repeat (cbn [app]; rewrite <- app_assoc).
  - assert (tight ([] ++ [] ++ equals :: ws3 ++ y :: v)) as Ht
      by by apply tight_around.
    rewrite <- (parse_tight [] [] ws3 (y :: v) H0 H3 Hk Hek Hhk Hv Ht
                 (ws1 ++ ws2) ws4)
      by (done || by apply all_spaces_app).
    f_equal. by repeat (cbn [app]; rewrite <- app_assoc).
  - assert (tight ((x :: k) ++ ws2 ++ equals :: [] ++ [])) as Ht
      by by apply tight_around.
    rewrite <- (parse_tight (x :: k) ws2 [] [] H2 H0 Hk Hek Hhk Hv Ht
                 ws1 (ws3 ++ ws4))
      by (done || by apply all_spaces_app).
    f_equal. by repeat (cbn [app]; rewrite <- app_assoc).
  - assert (tight ((x :: k) ++ ws2 ++ equals :: ws3 ++ y :: v)) as Ht
      by by apply tight_around.
    rewrite <- (parse_tight (x :: k) ws2 ws3 (y :: v) H2 H3 Hk Hek Hhk Hv Ht
                 ws1 ws4) by done.
    f_equal. by repeat (cbn [app]; rewrite <- app_assoc).
Qed.

Lemma trim_outer ws1 s ws2 :
  all_spaces ws1 → all_spaces ws2 → trim (ws1 ++ s ++ ws2) = trim s.
Proof.
  intros H1 H2. destruct (trim_spec s) as (a & b & E & Ha & Hb).
  rewrite E at 1.
  replace (ws1 ++ (a ++ trim s ++ b) ++ ws2)
    with ((ws1 ++ a) ++ trim s ++ (b ++ ws2)) by by rewrite <- !app_assoc.
  apply trim_padded; [by apply all_spaces_app .. | apply tight_trim].
Qed.

Lemma slice_quoted q w : slice_1_m1 (q :: w ++ [q]) = w.
Proof.
  unfold slice_1_m1. cbn [drop length]. rewrite length_app. cbn [length].
  replace (S (length w + 1) - 1 - 1) with (length w) by lia.
  rewrite drop_0. by rewrite take_app_length.
Qed.

Lemma endsWith_snoc c s x : endsWith c (s ++ [x]) = bool_decide (x = c).
Proof. unfold endsWith. by rewrite last_snoc. Qed.

Lemma unquote_quoted q w :
  q = dquote ∨ q = squote → unquote (q :: w ++ [q]) = w.
Proof.
  intros Hq. unfold unquote.
  assert (endsWith dquote (q :: w ++ [q]) = bool_decide (q = dquote)) as ->
    by apply (endsWith_snoc dquote (q :: w) q).
  assert (endsWith squote (q :: w ++ [q]) = bool_decide (q = squote)) as ->
    by apply (endsWith_snoc squote (q :: w) q).
  cbn [startsWith].
  destruct Hq as [-> | ->]; cbn; apply slice_quoted.
Qed.

Lemma unquote_plain v :
  startsWith dquote v = false → startsWith squote v = false → unquote v = v.
Proof. intros Hd Hs. unfold unquote. by rewrite Hd, Hs. Qed.

Lemma tight_quoted q w : q = dquote ∨ q = squote → tight (q :: w ++ [q]).
Proof.
  intros Hq. split; intros c.
  - cbn. intros [= <-]. by destruct Hq as [-> | ->].
  - rewrite app_comm_cons, last_snoc. intros [= <-]. by destruct Hq as [-> | ->].
Qed.

Lemma tight_single q : is_space q = false → tight [q].
Proof. intros Hq. split; intros c [= <-]; done. Qed.

(** ** Splitting the text into lines *)

Lemma last_cons_ne {A} (x : A) l y :
  last (x :: l) ≠ Some y → l ≠ [] ∨ x ≠ y.
Proof. destruct l; cbn; [right; congruence | by left]. Qed.

Lemma split_from_last cur l :
  LF ∉ l → split_from cur l = [reverse cur ++ l].
Proof.
  revert cur. induction l as [|c l IH]; intros cur Hl; cbn [split_from].
  - by rewrite app_nil_r.
  - apply not_elem_of_cons in Hl as [Hc Hl].
    rewrite bool_decide_eq_false_2 by congruence.
    assert (split_from (c :: cur) l = [reverse cur ++ c :: l]) as E.
    { rewrite IH by done. by rewrite reverse_cons, <- app_assoc. }
    case_bool_decide; [| done].
    destruct l as [|c' l]; [done |].
    apply not_elem_of_cons in Hl as [Hc' _].
    by rewrite bool_decide_eq_false_2 by congruence.
Qed.

Lemma split_from_LF cur l rest :
  LF ∉ l → last l ≠ Some CR →
  split_from cur (l ++ LF :: rest) = (reverse cur ++ l) :: split_from [] rest.
Proof.
  revert cur. induction l as [|c l IH]; intros cur Hl Hlast.
  - cbn. by rewrite app_nil_r.
  - apply not_elem_of_cons in Hl as [Hc Hl].
    assert (last l ≠ Some CR) as Hlast'.
    { destruct l; [done | exact Hlast]. }
    cbn [app split_from].
    rewrite bool_decide_eq_false_2 by congruence.
    assert (split_from (c :: cur) (l ++ LF :: rest)
            = (reverse cur ++ c :: l) :: split_from [] rest) as E.
    { rewrite IH by done. by rewrite reverse_cons, <- app_assoc. }
    case_bool_decide as Hcr; [| done]. subst c.
    destruct l as [|c' l]; [done |].
    apply not_elem_of_cons in Hl as [Hc' _].
    cbn [app]. cbn [app] in E.
    by rewrite bool_decide_eq_false_2 by congruence.
Qed.

Lemma split_from_CRLF cur l rest :
  LF ∉ l →
  split_from cur (l ++ CR :: LF :: rest)
  = (reverse cur ++ l) :: split_from [] rest.
Proof.
  revert cur. induction l as [|c l IH]; intros cur Hl.
  - cbn. by rewrite app_nil_r.
  - apply not_elem_of_cons in Hl as [Hc Hl].
    cbn [app split_from].
    rewrite bool_decide_eq_false_2 by congruence.
    assert (split_from (c :: cur) (l ++ CR :: LF :: rest)
            = (reverse cur ++ c :: l) :: split_from [] rest) as E.
    { rewrite IH by done. by rewrite reverse_cons, <- app_assoc. }
    case_bool_decide as Hcr; [| done]. subst c.
    destruct l as [|c' l]; cbn [app]; cbn [app] in E; [done |].
    apply not_elem_of_cons in Hl as [Hc' _].
    by rewrite bool_decide_eq_false_2 by congruence.
Qed.

Lemma split_join_LF ls :
  ls ≠ [] → Forall (fun l => (LF ∉ l) ∧ last l ≠ Some CR) ls →
  split_lines (join [LF] ls) = ls.
Proof.
  unfold split_lines. induction ls as [|l ls IH]; [done |].
  intros _ Hall. apply Forall_cons in Hall as [[Hl Hc] Hall].
  destruct ls as [|l2 ls].
  - cbn [join]. by rewrite split_from_last.
  - cbn [join app]. rewrite split_from_LF by done.
    cbn [reverse rev_append app]. f_equal. by apply IH.
Qed.

Lemma split_join_CRLF ls :
  ls ≠ [] → Forall (fun l => LF ∉ l) ls →
  split_lines (join [CR; LF] ls) = ls.
Proof.
  unfold split_lines. induction ls as [|l ls IH]; [done |].
  intros _ Hall. apply Forall_cons in Hall as [Hl Hall].
  destruct ls as [|l2 ls].
  - cbn [join]. by rewrite split_from_last.
  - cbn [join app]. rewrite split_from_CRLF by done.
    cbn [reverse rev_append app]. f_equal. by apply IH.
Qed.

(** A comment line, trimmed, starts with its [#]. *)
Lemma trim_comment ws rest :
  all_spaces ws → ∃ r, trim (ws ++ hash :: rest) = hash :: r.
Proof.
  intros Hws. unfold trim. rewrite trimStart_spaces by done.
  rewrite (trimStart_head (hash :: rest)) by by intros ? [= <-].
  destruct (trimEnd_spec (hash :: rest)) as (ws' & E & Hws' & _).
  destruct (trimEnd (hash :: rest)) as [|x r].
  - exfalso. cbn in E.
    assert (hash ∈ ws') as Hin by (rewrite <- E; by left).
    pose proof (all_spaces_elem _ _ Hws' Hin) as Hs.
    by rewrite hash_not_space in Hs.
  - injection E as <- _. by exists r.
Qed.

Lemma elem_of_trim c s : c ∈ trim s → c ∈ s.
Proof.
  intros H. destruct (trim_spec s) as (a & b & E & _ & _).
  rewrite E, !elem_of_app. auto.
Qed.

Lemma equals_in_trim s : equals ∈ s → equals ∈ trim s.
Proof.
  destruct (trim_spec s) as (a & b & E & Ha & Hb).
  rewrite E at 1. rewrite !elem_of_app. intros [H | [H | H]]; [| done |].
  - by apply equals_notin_spaces in H.
  - by apply equals_notin_spaces in H.
Qed.
End LoadEnvFacts.

(** X13: a line [KEY=VALUE], with any white space before the key, around
    the [=] and after the value, is parsed to the key and the value as
    they are written, when the value does not start with a quote; the key
    is free of [=], does not start with [#], and neither the key nor the
    value has white space at its ends (the value may contain [=] and
    [#]). *)
Theorem plain_assignment_is_parsed ws1 k ws2 ws3 v ws4 :
  LoadEnvFacts.all_spaces ws1 → LoadEnvFacts.all_spaces ws2 →
  LoadEnvFacts.all_spaces ws3 → LoadEnvFacts.all_spaces ws4 →
  LoadEnv.tight k → LoadEnv.equals ∉ k →
  LoadEnv.startsWith LoadEnv.hash k = false →
  LoadEnv.tight v →
  LoadEnv.startsWith LoadEnv.dquote v = false →
  LoadEnv.startsWith LoadEnv.squote v = false →
  LoadEnv.parse_line (ws1 ++ k ++ ws2 ++ LoadEnv.equals :: ws3 ++ v ++ ws4)
  = Some (k, v).
Proof.
  intros H1 H2 H3 H4 Hk Hek Hhk Hv Hd Hs.
  rewrite LoadEnvFacts.parse_padded by done.
  by rewrite LoadEnvFacts.unquote_plain.
Qed.

Lemma plain_assignment_is_parsed_witness :
  LoadEnv.parse_line [32; 75; 32; 61; 9; 118; 61; 35; 13]%N
  = Some ([75]%N, [118; 61; 35]%N).
Proof.
  apply (plain_assignment_is_parsed [32%N] [75%N] [32%N] [9%N]
           [118; 61; 35]%N [13%N]).
  - by repeat constructor.
  - by repeat constructor.
  - by repeat constructor.
  - by repeat constructor.
  - split; intros c [= <-]; reflexivity.
  - intros H. apply list_elem_of_singleton in H. discriminate H.
  - reflexivity.
  - split; intros c [= <-]; reflexivity.
  - reflexivity.
  - reflexivity.
Defined.

(** X14: a value written between two double quotes or between two single
    quotes is stored without them, whatever stands between the quotes
    (white space, [=], [#] and further quotes included); a value that is
    one quote character alone is stored as the empty string. *)
Theorem quoted_value_loses_its_quotes q ws1 k ws2 ws3 w ws4 :
  q = LoadEnv.dquote ∨ q = LoadEnv.squote →
  LoadEnvFacts.all_spaces ws1 → LoadEnvFacts.all_spaces ws2 →
  LoadEnvFacts.all_spaces ws3 → LoadEnvFacts.all_spaces ws4 →
  LoadEnv.tight k → LoadEnv.equals ∉ k →
  LoadEnv.startsWith LoadEnv.hash k = false →
  LoadEnv.parse_line
    (ws1 ++ k ++ ws2 ++ LoadEnv.equals :: ws3 ++ (q :: w ++ [q]) ++ ws4)
  = Some (k, w) ∧
  LoadEnv.parse_line (ws1 ++ k ++ ws2 ++ LoadEnv.equals :: ws3 ++ [q] ++ ws4)
  = Some (k, []).
Proof.
  intros Hq H1 H2 H3 H4 Hk Hek Hhk. split.
  - rewrite LoadEnvFacts.parse_padded
      by (done || by apply LoadEnvFacts.tight_quoted).
    by rewrite LoadEnvFacts.unquote_quoted.
  - rewrite LoadEnvFacts.parse_padded;
      [| done | done | done | done | done | done | done |].
    + by destruct Hq as [-> | ->].
    + apply LoadEnvFacts.tight_single. by destruct Hq as [-> | ->].
Qed.

Lemma quoted_value_loses_its_quotes_witness :
  LoadEnv.parse_line [75; 61; 34; 32; 97; 61; 34; 32]%N
  = Some ([75]%N, [32; 97; 61]%N) ∧
  LoadEnv.parse_line [75; 61; 34; 32]%N = Some ([75]%N, []).
Proof.
  apply (quoted_value_loses_its_quotes 34%N [] [75%N] [] []
           [32; 97; 61]%N [32%N]).
  - by left.
  - constructor.
  - constructor.
  - constructor.
  - by repeat constructor.
  - split; intros c [= <-]; reflexivity.
  - intros H. apply list_elem_of_singleton in H. discriminate H.
  - reflexivity.
Defined.

(** X15: when a line yields an assignment, the line is the key, white
    space, [=], white space and the written value, between two runs of
    white space; the key has no [=], does not start with [#] and has no
    white space at its ends, and the stored value is the written value
    with one pair of enclosing quotes removed. *)
Theorem parsed_line_shape line k v :
  LoadEnv.parse_line line = Some (k, v) →
  ∃ ws1 ws2 ws3 v0 ws4,
    line = ws1 ++ k ++ ws2 ++ LoadEnv.equals :: ws3 ++ v0 ++ ws4 ∧
    LoadEnvFacts.all_spaces ws1 ∧ LoadEnvFacts.all_spaces ws2 ∧
    LoadEnvFacts.all_spaces ws3 ∧ LoadEnvFacts.all_spaces ws4 ∧
    LoadEnv.tight k ∧ (LoadEnv.equals ∉ k) ∧
    LoadEnv.startsWith LoadEnv.hash k = false ∧
    LoadEnv.tight v0 ∧ v = LoadEnv.unquote v0.
Proof.
  intros H. unfold LoadEnv.parse_line in H. cbv zeta in H.
  destruct (LoadEnvFacts.trim_spec line) as (w1 & w2 & El & Hw1 & Hw2).
  pose proof (LoadEnvFacts.tight_trim line) as [Hthd _].
  remember (LoadEnv.trim line) as t eqn:Ht in *. clear Ht.
  destruct (bool_decide (t = []) || LoadEnv.startsWith LoadEnv.hash t)
    eqn:Hb; [done |].
  apply orb_false_elim in Hb as [_ Hh].
  destruct (LoadEnv.indexOf LoadEnv.equals t) as [eq|] eqn:Ei; [| done].
  apply LoadEnvFacts.indexOf_Some in Ei as (k0 & r0 & Et & Hk0 & ->).
  subst t. rewrite take_app_length, LoadEnvFacts.drop_S_middle in H.
  injection H as Hk Hv.
  destruct (LoadEnvFacts.trim_spec k0) as (a & b & Ek & Ha & Hb).
  destruct (LoadEnvFacts.trim_spec r0) as (c & d & Er & Hc & Hd).
  pose proof (LoadEnvFacts.tight_trim k0) as Htk.
  pose proof (LoadEnvFacts.tight_trim r0) as Htv.
  rewrite Hk in Ek, Htk. clear Hk.
  remember (LoadEnv.trim r0) as v0 eqn:Hv0 in *. clear Hv0.
  subst k0 r0 line v.
  exists (w1 ++ a), b, c, v0, (d ++ w2). split_and!.
  - by repeat (cbn [app]; rewrite <- app_assoc).
  - by apply LoadEnvFacts.all_spaces_app.
  - done.
  - done.
  - by apply LoadEnvFacts.all_spaces_app.
  - done.
  - intros Hin. apply Hk0. rewrite !elem_of_app. auto.
  - destruct k as [|x k]; [done |].
    destruct a as [|y a]; [exact Hh |].
    exfalso. specialize (Hthd y eq_refl).
    assert (y ∈ y :: a) as Hy by by left.
    by rewrite (LoadEnvFacts.all_spaces_elem _ _ Ha Hy) in Hthd.
  - done.
  - done.
Qed.

Lemma parsed_line_shape_witness :
  ∃ ws1 ws2 ws3 v0 ws4,
    [32; 75; 61; 39; 97; 39]%N
    = ws1 ++ [75%N] ++ ws2 ++ LoadEnv.equals :: ws3 ++ v0 ++ ws4 ∧
    LoadEnvFacts.all_spaces ws1 ∧ LoadEnvFacts.all_spaces ws2 ∧
    LoadEnvFacts.all_spaces ws3 ∧ LoadEnvFacts.all_spaces ws4 ∧
    LoadEnv.tight [75%N] ∧ (LoadEnv.equals ∉ [75%N]) ∧
    LoadEnv.startsWith LoadEnv.hash [75%N] = false ∧
    LoadEnv.tight v0 ∧ [97%N] = LoadEnv.unquote v0.
Proof.
  apply (parsed_line_shape [32; 75; 61; 39; 97; 39]%N [75%N] [97%N]).
  reflexivity.
Defined.

(** X16: the lines that yield no assignment are exactly the blank lines
    (white space only), the comment lines (the first character that is
    not white space is [#]) and the lines without [=]. *)
Theorem ignored_lines line :
  LoadEnv.parse_line line = None ↔
  LoadEnvFacts.all_spaces line ∨
  (∃ ws rest, LoadEnvFacts.all_spaces ws ∧ line = ws ++ LoadEnv.hash :: rest) ∨
  LoadEnv.equals ∉ line.
Proof.
  split.
  - intros H. unfold LoadEnv.parse_line in H. cbv zeta in H.
    destruct (bool_decide (LoadEnv.trim line = [])) eqn:E1.
    { left. apply LoadEnvFacts.all_spaces_trim.
      by apply bool_decide_eq_true in E1. }
    destruct (LoadEnv.startsWith LoadEnv.hash (LoadEnv.trim line)) eqn:E2.
    { right. left.
      destruct (LoadEnvFacts.trim_spec line) as (w1 & w2 & El & Hw1 & _).
      destruct (LoadEnv.trim line) as [|x r]; [done |].
      cbn in E2. apply bool_decide_eq_true in E2. subst x.
      exists w1, (r ++ w2). split; [done |]. by rewrite El. }
    cbn [orb] in H.
    destruct (LoadEnv.indexOf LoadEnv.equals (LoadEnv.trim line))
      eqn:Ei; [done |].
    right. right. intros Hin.
    apply LoadEnvFacts.indexOf_None in Ei. apply Ei.
    by apply LoadEnvFacts.equals_in_trim.
  - intros [Hb | [(ws & rest & Hws & ->) | Hne]];
      unfold LoadEnv.parse_line; cbv zeta.
    + apply LoadEnvFacts.all_spaces_trim in Hb. by rewrite Hb.
    + destruct (LoadEnvFacts.trim_comment ws rest Hws) as (r & ->).
      cbn [LoadEnv.startsWith].
      by rewrite (bool_decide_eq_true_2 (LoadEnv.hash = LoadEnv.hash)),
        orb_true_r by done.
    + assert (LoadEnv.indexOf LoadEnv.equals (LoadEnv.trim line) = None)
        as ->.
      { apply LoadEnvFacts.indexOf_None. intros Hin. apply Hne.
        by apply LoadEnvFacts.elem_of_trim. }
      by destruct (_ || _).
Qed.

(** X17: white space before and after a line (indentation, a trailing
    carriage return) does not change what the line is parsed to. *)
Theorem outer_spaces_are_ignored ws1 line ws2 :
  LoadEnvFacts.all_spaces ws1 → LoadEnvFacts.all_spaces ws2 →
  LoadEnv.parse_line (ws1 ++ line ++ ws2) = LoadEnv.parse_line line.
Proof.
  intros H1 H2. unfold LoadEnv.parse_line.
  by rewrite LoadEnvFacts.trim_outer.
Qed.

Lemma outer_spaces_are_ignored_witness :
  LoadEnv.parse_line ([9; 32] ++ [75; 61; 118] ++ [13])%N
  = LoadEnv.parse_line [75; 61; 118]%N.
Proof.
  apply (outer_spaces_are_ignored [9; 32]%N [75; 61; 118]%N [13%N]).
  - by repeat constructor.
  - by repeat constructor.
Defined.

(** X18: the text of a file whose lines are joined by line feeds, or by
    carriage return and line feed, is split into these lines again, when
    no line contains a line feed and, for line-feed files, no line ends
    with a carriage return; the assignments of the file are then those
    of its lines, in order. *)
Theorem lines_round_trip ls :
  ls ≠ [] →
  Forall (fun l => (LoadEnv.LF ∉ l) ∧ last l ≠ Some LoadEnv.CR) ls →
  LoadEnv.split_lines (LoadEnv.join [LoadEnv.LF] ls) = ls ∧
  LoadEnv.split_lines (LoadEnv.join [LoadEnv.CR; LoadEnv.LF] ls) = ls ∧
  LoadEnv.assignments (LoadEnv.join [LoadEnv.LF] ls)
  = omap LoadEnv.parse_line ls ∧
  LoadEnv.assignments (LoadEnv.join [LoadEnv.CR; LoadEnv.LF] ls)
  = omap LoadEnv.parse_line ls.
Proof.
  intros Hne Hall.
  assert (LoadEnv.split_lines (LoadEnv.join [LoadEnv.LF] ls) = ls) as E1
    by by apply LoadEnvFacts.split_join_LF.
  assert (LoadEnv.split_lines (LoadEnv.join [LoadEnv.CR; LoadEnv.LF] ls) = ls)
    as E2.
  { apply LoadEnvFacts.split_join_CRLF; [done |].
    eapply Forall_impl; [exact Hall |]. by intros l [? _]. }
  unfold LoadEnv.assignments. rewrite E1, E2. done.
Qed.

Lemma lines_round_trip_witness :
  LoadEnv.split_lines
    (LoadEnv.join [LoadEnv.LF] [[65; 61; 49]; []; [35; 13; 120]]%N)
  = [[65; 61; 49]; []; [35; 13; 120]]%N ∧
  LoadEnv.split_lines
    (LoadEnv.join [LoadEnv.CR; LoadEnv.LF] [[65; 61; 49]; []; [35; 13; 120]]%N)
  = [[65; 61; 49]; []; [35; 13; 120]]%N ∧
  LoadEnv.assignments
    (LoadEnv.join [LoadEnv.LF] [[65; 61; 49]; []; [35; 13; 120]]%N)
  = omap LoadEnv.parse_line [[65; 61; 49]; []; [35; 13; 120]]%N ∧
  LoadEnv.assignments
    (LoadEnv.join [LoadEnv.CR; LoadEnv.LF] [[65; 61; 49]; []; [35; 13; 120]]%N)
  = omap LoadEnv.parse_line [[65; 61; 49]; []; [35; 13; 120]]%N.
Proof.
  apply (lines_round_trip [[65; 61; 49]; []; [35; 13; 120]]%N).
  - done.
  - compute_done.
Defined.
